(** * The inline parser of [src/295_inlines.py]

    A shallow embedding of [InlineParser]: its rule patterns, its semantic
    actions over a mutable parse state, and the [parse]/[render] driver.

    Python [str] values are modelled by [string]: the characters are the code
    points below 256.  The parse state is the dictionary the actions read and
    write; each of its keys may be absent. *)

From Stdlib Require Import String Ascii List ZArith Lia Bool.
From stdpp Require Import base gmap strings list.

Import ListNotations.
Local Open Scope string_scope.
Local Open Scope list_scope.

(** ** Characters and character classes *)

Module Chars.

Definition cset := ascii -> bool.

Definition code (c : ascii) : nat := nat_of_ascii c.

Definition dquote : ascii := "034"%char.
Definition newline : ascii := "010"%char.
Definition space : ascii := " "%char.
Definition backslash : ascii := "\"%char.

Definition chr (x : ascii) : cset := fun c => Ascii.eqb c x.
Definition rng (lo hi : ascii) : cset :=
  fun c => (code lo <=? code c)%nat && (code c <=? code hi)%nat.
Definition any_of (s : string) : cset :=
  fun c => existsb (Ascii.eqb c) (list_ascii_of_string s).
Definition cor (p q : cset) : cset := fun c => p c || q c.
Definition cnot (p : cset) : cset := fun c => negb (p c).
Definition any_char : cset := fun _ => true.

Infix "|||" := cor (at level 50, left associativity).

(** The characters [str.isspace] accepts, which [str.strip] removes. *)
Definition is_space : cset :=
  fun c => let n := code c in
    ((9 <=? n) && (n <=? 13) || (28 <=? n) && (n <=? 32)
     || (n =? 133) || (n =? 160))%nat.

(** [\s] in the patterns of the rules.  The rules are not compiled one by
    one: the scanner hands their patterns to [re.Scanner], and the pattern
    that builds carries no flag, so that [\s], [\w] and [\b] are those of
    ASCII.  [\s] is the space and the characters from the tab to the
    carriage return. *)
Definition re_space : cset :=
  fun c => let n := code c in ((9 <=? n) && (n <=? 13) || (n =? 32))%nat.

Definition is_upper : cset := rng "A" "Z".
Definition is_lower : cset := rng "a" "z".
Definition is_digit : cset := rng "0" "9".
Definition is_alnum : cset := is_upper ||| is_lower ||| is_digit.

(** [\w] in the patterns of the rules, which decides [\b]: the letters and
    digits of ASCII and the underscore. *)
Definition is_word : cset := is_alnum ||| chr "_".

(** The characters of [PUNCTUATION]. *)
Definition is_punct : cset :=
  any_of "\!#$%&'()*+,./:;<=>?@[]^`{}|_~-" ||| chr dquote.

(** [str.lower] on one character. *)
Definition lower_char (c : ascii) : ascii :=
  let n := code c in
  if ((65 <=? n) && (n <=? 90) || (192 <=? n) && (n <=? 214)
      || (216 <=? n) && (n <=? 222))%nat
  then ascii_of_nat (n + 32) else c.

End Chars.

Import Chars.

(** ** A backtracking matcher for the patterns of the parser

    The patterns are written for Python's [re]: alternatives are tried left
    to right, a greedy repetition tries one more round before it stops, a
    lazy one stops before it tries one more round, and a failure later in the
    pattern sends the matcher back to the latest choice. *)

Module Regex.

(** A position in the subject: the characters before it, nearest first, and
    the characters from it on. *)
Record cursor := Cur { before : list ascii; after : list ascii }.

Definition caps := list (nat * list ascii).

Inductive re : Type :=
| Eps
| Chr (p : cset)
| Seq (a b : re)
| Alt (a b : re)
| Rep (greedy : bool) (lo : nat) (hi : option nat) (a : re)
| Grp (n : nat) (a : re)
| Bref (n : nat)
| Ahead (positive : bool) (a : re)
| Behind (positive : bool) (p : cset)
| Wordb
| Dollar.

Definition answer := option (cursor * caps).
Definition cont := cursor -> caps -> answer.

Definition below (n : nat) (hi : option nat) : bool :=
  match hi with Some h => (n <? h)%nat | None => true end.

Definition consumed (c c' : cursor) : list ascii :=
  firstn (length (after c) - length (after c')) (after c).

Fixpoint lookup_group (n : nat) (g : caps) : option (list ascii) :=
  match g with
  | [] => None
  | (i, w) :: g' => if (i =? n)%nat then Some w else lookup_group n g'
  end.

Fixpoint literal (w : list ascii) (c : cursor) : option cursor :=
  match w with
  | [] => Some c
  | x :: w' =>
      match after c with
      | y :: t => if Ascii.eqb x y then literal w' (Cur (y :: before c) t)
                  else None
      | [] => None
      end
  end.

Definition prev_is (p : cset) (c : cursor) : bool :=
  match before c with x :: _ => p x | [] => false end.
Definition next_is (p : cset) (c : cursor) : bool :=
  match after c with x :: _ => p x | [] => false end.

(** [$] without the MULTILINE flag: the end of the subject, or just before
    a newline that ends it. *)
Definition at_end (c : cursor) : bool :=
  match after c with
  | [] => true
  | [x] => Ascii.eqb x newline
  | _ => false
  end.

(** The continuation that ends a match. *)
Definition accept : cont := fun c g => Some (c, g).

(** The rounds of a repetition [a{lo,hi}]: [body] matches [a], [n] counts
    the rounds done.  Every repeated sub-pattern of this file consumes at
    least one character per round, so a round that consumes nothing ends
    the repetition and the length of the rest of the subject bounds the
    rounds. *)
Fixpoint rep_loop (body : cont -> cont) (greedy : bool) (lo : nat)
         (hi : option nat) (k : cont) (fuel n : nat) (c : cursor) (g : caps)
         {struct fuel} : answer :=
  let stop (_ : unit) := if (lo <=? n)%nat then k c g else None in
  match fuel with
  | 0 => stop tt
  | S fuel' =>
      let more (_ : unit) :=
        if below n hi then
          body (fun c' g' =>
                  if (length (after c') <? length (after c))%nat
                  then rep_loop body greedy lo hi k fuel' (S n) c' g'
                  else None) c g
        else None in
      if greedy then
        match more tt with Some res => Some res | None => stop tt end
      else
        match stop tt with Some res => Some res | None => more tt end
  end.

Fixpoint rmatch (r : re) (k : cont) (c : cursor) (g : caps) {struct r}
  : answer :=
  match r with
  | Eps => k c g
  | Chr p =>
      match after c with
      | x :: t => if p x then k (Cur (x :: before c) t) g else None
      | [] => None
      end
  | Seq a b => rmatch a (rmatch b k) c g
  | Alt a b =>
      match rmatch a k c g with
      | Some res => Some res
      | None => rmatch b k c g
      end
  | Rep greedy lo hi a =>
      rep_loop (rmatch a) greedy lo hi k (length (after c)) 0 c g
  | Grp n a => rmatch a (fun c' g' => k c' ((n, consumed c c') :: g')) c g
  | Bref n =>
      match lookup_group n g with
      | Some w => match literal w c with Some c' => k c' g | None => None end
      | None => None
      end
  | Ahead positive a =>
      match rmatch a accept c g with
      | Some _ => if positive then k c g else None
      | None => if positive then None else k c g
      end
  | Behind positive p =>
      if Bool.eqb (prev_is p c) positive then k c g else None
  | Wordb =>
      if xorb (prev_is is_word c) (next_is is_word c) then k c g else None
  | Dollar => if at_end c then k c g else None
  end.

(** [pattern.match] at a position. *)
Definition match_at (r : re) (c : cursor) : answer :=
  rmatch r accept c [].

(** Pattern builders. *)
Fixpoint seqs (l : list re) : re :=
  match l with
  | [] => Eps
  | [a] => a
  | a :: l' => Seq a (seqs l')
  end.

Fixpoint alts (a : re) (l : list re) : re :=
  match l with
  | [] => a
  | b :: l' => Alt a (alts b l')
  end.

Definition lit (s : string) : re :=
  seqs (map (fun x => Chr (chr x)) (list_ascii_of_string s)).

Definition star (a : re) : re := Rep true 0 None a.
Definition star_lazy (a : re) : re := Rep false 0 None a.
Definition plus (a : re) : re := Rep true 1 None a.
Definition plus_lazy (a : re) : re := Rep false 1 None a.
Definition opt (a : re) : re := Rep true 0 (Some 1) a.
Definition upto (lo hi : nat) (a : re) : re := Rep true lo (Some hi) a.
Definition atleast (lo : nat) (a : re) : re := Rep true lo None a.

End Regex.

Import Regex.

(** ** The rule patterns

    Each definition transcribes the pattern of the same name, piece by
    piece; the comments quote the source. *)

Module Patterns.

(** [ESCAPE = r'\\[' + PUNCTUATION + ']'] *)
Definition ESCAPE : re := Seq (Chr (chr backslash)) (Chr is_punct).

(** [HTML_TAGNAME = r'[A-Za-z][A-Za-z0-9-]*'] *)
Definition HTML_TAGNAME : re :=
  Seq (Chr (is_upper ||| is_lower)) (star (Chr (is_alnum ||| chr "-"))).

(** [(?:\s+[A-Za-z_:][A-Za-z0-9_.:-]*
     (?:\s*=\s*(?:[^ DQ\'=<>`]+|\'[^\']*?\'|DQ[^\DQ]*?DQ))?)*] *)
Definition HTML_ATTRIBUTES : re :=
  star (seqs [
    plus (Chr re_space);
    Chr (is_upper ||| is_lower ||| any_of "_:");
    star (Chr (is_alnum ||| any_of "_.:-"));
    opt (seqs [
      star (Chr re_space); Chr (chr "="); star (Chr re_space);
      alts (plus (Chr (cnot (any_of " '=<>`" ||| chr dquote)))) [
        seqs [Chr (chr "'"); star_lazy (Chr (cnot (chr "'"))); Chr (chr "'")];
        seqs [Chr (chr dquote); star_lazy (Chr (cnot (chr dquote)));
              Chr (chr dquote)]]])]).

(** [LINK_LABEL =
     r'\[((?:\[[^\[\]]*\]|\\[\[\]]?|`[^`]*`|[^\[\]\\])*?)\]'] *)
Definition LINK_LABEL : re :=
  seqs [
    Chr (chr "[");
    Grp 1 (star_lazy (alts
      (seqs [Chr (chr "["); star (Chr (cnot (any_of "[]"))); Chr (chr "]")]) [
      Seq (Chr (chr backslash)) (opt (Chr (any_of "[]")));
      seqs [Chr (chr "`"); star (Chr (cnot (chr "`"))); Chr (chr "`")];
      Chr (cnot (any_of "[]\"))]));
    Chr (chr "]")].

(** One domain label: [[A-Za-z0-9](?:[A-Za-z0-9-]{0,61}[A-Za-z0-9])?] *)
Definition domain_label : re :=
  Seq (Chr is_alnum)
      (opt (Seq (upto 0 61 (Chr (is_alnum ||| chr "-"))) (Chr is_alnum))).

(** [(?<!\\)(?:\\\\)*<([A-Za-z][A-Za-z0-9+.-]{1,31}:[^ <>]*?
     |[A-Za-z0-9.!#$%&'*+/=?^_`{|}~-]+@ label (?:\. label)* )>] *)
Definition AUTO_LINK : re :=
  seqs [
    Behind false (chr backslash);
    star (lit "\\");
    Chr (chr "<");
    Grp 1 (Alt
      (seqs [Chr (is_upper ||| is_lower);
             upto 1 31 (Chr (is_alnum ||| any_of "+.-"));
             Chr (chr ":");
             star_lazy (Chr (cnot (any_of " <>")))])
      (seqs [plus (Chr (is_alnum ||| any_of ".!#$%&'*+/=?^_`{|}~-"));
             Chr (chr "@");
             domain_label;
             star (Seq (Chr (chr ".")) domain_label)]));
    Chr (chr ">")].

(** [r'!?' + LINK_LABEL + r'\(\s*'
     r'(<(?:\\[<>]?|[^\s<>\\])*>|'
     r'(?:\\[()]?|\([^\s\x00-\x1f\\]*\)|[^\s\x00-\x1f()\\])*?)'
     r'(?:\s+('
     r'''DQ(?:\\DQ?|[^DQ\\])*DQ|'(?:\\'?|[^'\\])*'|\((?:\\\)?|[^)\\])*\)'''
     r'))?\s*\)'] *)
Definition control : cset := rng "000" "031".

Definition STD_LINK : re :=
  seqs [
    opt (Chr (chr "!"));
    LINK_LABEL;
    Chr (chr "(");
    star (Chr re_space);
    Grp 2 (Alt
      (seqs [Chr (chr "<");
             star (Alt (Seq (Chr (chr backslash)) (opt (Chr (any_of "<>"))))
                       (Chr (cnot (re_space ||| any_of "<>\"))));
             Chr (chr ">")])
      (star_lazy (alts
         (Seq (Chr (chr backslash)) (opt (Chr (any_of "()")))) [
         seqs [Chr (chr "(");
               star (Chr (cnot (re_space ||| control ||| chr backslash)));
               Chr (chr ")")];
         Chr (cnot (re_space ||| control ||| any_of "()\"))])));
    opt (Seq (plus (Chr re_space)) (Grp 3 (alts
      (seqs [Chr (chr dquote);
             star (Alt (Seq (Chr (chr backslash)) (opt (Chr (chr dquote))))
                       (Chr (cnot (chr dquote ||| chr backslash))));
             Chr (chr dquote)]) [
      seqs [Chr (chr "'");
            star (Alt (Seq (Chr (chr backslash)) (opt (Chr (chr "'"))))
                      (Chr (cnot (any_of "'\"))));
            Chr (chr "'")];
      seqs [Chr (chr "(");
            star (Alt (Seq (Chr (chr backslash)) (opt (Chr (chr ")"))))
                      (Chr (cnot (any_of ")\"))));
            Chr (chr ")")]])));
    star (Chr re_space);
    Chr (chr ")")].

(** [\[((?:[^\\\[\]]|ESCAPE){0,1000})\]] with the group numbered [n]. *)
Definition ref_key (n : nat) : re :=
  seqs [Chr (chr "[");
        Grp n (upto 0 1000 (Alt (Chr (cnot (any_of "\[]"))) ESCAPE));
        Chr (chr "]")].

(** [r'!?' + LINK_LABEL + r'\[((?:[^\\\[\]]|' + ESCAPE + '){0,1000})\]'] *)
Definition REF_LINK : re :=
  seqs [opt (Chr (chr "!")); LINK_LABEL; ref_key 2].

(** [r'!?\[((?:[^\\\[\]]|' + ESCAPE + '){0,1000})\]'] *)
Definition REF_LINK2 : re :=
  Seq (opt (Chr (chr "!"))) (ref_key 1).

(** EMPHASIS has four alternatives:
    - [\b_[^\s_]], then optionally a [_] that stands after a backslash,
      then [_];
    - [\*[^\s*]], then optionally a [*] that stands after a backslash,
      then [*];
    - [\b_[^\s_][\s\S]*?[^\s_]_], not followed by [_] nor by a character
      outside [\s] and PUNCTUATION, then [\b];
    - [\*[^\s*DQ<\[][\s\S]*?[^\s*]\*]. *)
Definition EMPHASIS : re :=
  alts
    (seqs [Wordb; Chr (chr "_"); Chr (cnot (re_space ||| chr "_"));
           opt (Seq (Behind true (chr backslash)) (Chr (chr "_")));
           Chr (chr "_")]) [
    seqs [Chr (chr "*"); Chr (cnot (re_space ||| chr "*"));
          opt (Seq (Behind true (chr backslash)) (Chr (chr "*")));
          Chr (chr "*")];
    seqs [Wordb; Chr (chr "_"); Chr (cnot (re_space ||| chr "_"));
          star_lazy (Chr any_char);
          Chr (cnot (re_space ||| chr "_")); Chr (chr "_");
          Ahead false (Alt (Chr (chr "_"))
                           (Chr (cnot (re_space ||| is_punct))));
          Wordb];
    seqs [Chr (chr "*");
          Chr (cnot (re_space ||| any_of "*<[" ||| chr dquote));
          star_lazy (Chr any_char);
          Chr (cnot (re_space ||| chr "*")); Chr (chr "*")]].

(** STRONG has four alternatives:
    - [\b__[^\s\_]__(?!_)\b];
    - [\*\*[^\s\*]\*\*] not followed by [*];
    - [\b__[^\s][\s\S]*?[^\s]__(?!_)\b];
    - [\*\*[^\s][\s\S]*?[^\s]\*\*] not followed by [*]. *)
Definition STRONG : re :=
  alts
    (seqs [Wordb; lit "__"; Chr (cnot (re_space ||| chr "_")); lit "__";
           Ahead false (Chr (chr "_")); Wordb]) [
    seqs [lit "**"; Chr (cnot (re_space ||| chr "*")); lit "**";
          Ahead false (Chr (chr "*"))];
    seqs [Wordb; lit "__"; Chr (cnot re_space); star_lazy (Chr any_char);
          Chr (cnot re_space); lit "__"; Ahead false (Chr (chr "_")); Wordb];
    seqs [lit "**"; Chr (cnot re_space); star_lazy (Chr any_char);
          Chr (cnot re_space); lit "**"; Ahead false (Chr (chr "*"))]].

(** [r'(?<!\\|`)(?:\\\\)*(`+)(?!`)([\s\S]+?)(?<!`)\1(?!`)'] *)
Definition CODESPAN : re :=
  seqs [
    Behind false (any_of "\`");
    star (lit "\\");
    Grp 1 (plus (Chr (chr "`")));
    Ahead false (Chr (chr "`"));
    Grp 2 (plus_lazy (Chr any_char));
    Behind false (chr "`");
    Bref 1;
    Ahead false (Chr (chr "`"))].

(** [r'(?:\\| {2,})\n(?!\s*$)'] *)
Definition LINEBREAK : re :=
  seqs [
    Alt (Chr (chr backslash)) (atleast 2 (Chr (chr space)));
    Chr (chr newline);
    Ahead false (Seq (star (Chr re_space)) Dollar)].

(** [r'~~(?=\S)([\s\S]*?\S)~~'] *)
Definition STRIKETHROUGH : re :=
  seqs [
    lit "~~";
    Ahead true (Chr (cnot re_space));
    Grp 1 (Seq (star_lazy (Chr any_char)) (Chr (cnot re_space)));
    lit "~~"].

(** [r'\[\^([^\]]+)\]'] *)
Definition FOOTNOTE : re :=
  seqs [lit "[^"; Grp 1 (plus (Chr (cnot (chr "]")))); Chr (chr "]")].

(** [r'(?<!\\)<' + HTML_TAGNAME + HTML_ATTRIBUTES + r'\s*/?>|'
     r'(?<!\\)</' + HTML_TAGNAME + r'\s*>|'
     r'(?<!\\)<!--(?!>|->)(?:(?!--)[\s\S])+?(?<!-)-->|'
     r'(?<!\\)<\?[\s\S]+?\?>|'
     r'(?<!\\)<![A-Z][\s\S]+?>|'
     r'(?<!\\)<!\[CDATA[\s\S]+?\]\]>'] *)
Definition INLINE_HTML : re :=
  alts
    (seqs [Behind false (chr backslash); Chr (chr "<"); HTML_TAGNAME;
           HTML_ATTRIBUTES; star (Chr re_space); opt (Chr (chr "/"));
           Chr (chr ">")]) [
    seqs [Behind false (chr backslash); lit "</"; HTML_TAGNAME;
          star (Chr re_space); Chr (chr ">")];
    seqs [Behind false (chr backslash); lit "<!--";
          Ahead false (Alt (Chr (chr ">")) (lit "->"));
          plus_lazy (Seq (Ahead false (lit "--")) (Chr any_char));
          Behind false (chr "-"); lit "-->"];
    seqs [Behind false (chr backslash); lit "<?";
          plus_lazy (Chr any_char); lit "?>"];
    seqs [Behind false (chr backslash); lit "<!"; Chr is_upper;
          plus_lazy (Chr any_char); Chr (chr ">")];
    seqs [Behind false (chr backslash); lit "<![CDATA";
          plus_lazy (Chr any_char); lit "]]>"]].

End Patterns.

(** ** String operations of the actions *)

Module Str.

Definition chars (s : string) : list ascii := list_ascii_of_string s.
Definition of_chars (l : list ascii) : string := string_of_list_ascii l.

(** [s[i:]] and [s[i:-j]]. *)
Definition slice (i j : nat) (s : string) : string :=
  of_chars (skipn i (firstn (String.length s - j) (chars s))).

(** [s.lower()] *)
Definition lower (s : string) : string := of_chars (map lower_char (chars s)).

(** [s.startswith(p)] and [s.endswith(p)] *)
Definition startswith (p s : string) : bool := String.prefix p s.
Definition endswith (p s : string) : bool :=
  String.prefix (of_chars (rev (chars p))) (of_chars (rev (chars s))).

(** [c in s] for a one-character [c]. *)
Definition contains (c : ascii) (s : string) : bool :=
  existsb (Ascii.eqb c) (chars s).

Fixpoint lstrip (l : list ascii) : list ascii :=
  match l with
  | x :: t => if is_space x then lstrip t else l
  | [] => []
  end.

(** [s.strip()] *)
Definition strip (s : string) : string :=
  of_chars (rev (lstrip (rev (lstrip (chars s))))).

(** [re.sub(r'[ \n]+', ' ', s)]: every maximal run of spaces and newlines
    becomes one space.  [in_run] tells that the previous character was
    part of a run. *)
Definition blank : cset := chr space ||| chr newline.

Fixpoint collapse_from (in_run : bool) (l : list ascii) : list ascii :=
  match l with
  | [] => []
  | x :: t =>
      if blank x then
        if in_run then collapse_from true t else space :: collapse_from true t
      else x :: collapse_from false t
  end.

Definition collapse (s : string) : string :=
  of_chars (collapse_from false (chars s)).

(** [ESCAPE_CHAR.sub(r'\1', s)]: from left to right, a backslash followed
    by a punctuation character is replaced by that character. *)
Fixpoint unescape_chars (l : list ascii) : list ascii :=
  match l with
  | [] => []
  | x :: t =>
      match t with
      | y :: t' =>
          if Ascii.eqb x backslash && is_punct y
          then y :: unescape_chars t'
          else x :: unescape_chars t
      | [] => [x]
      end
  end.

Definition unescape (s : string) : string :=
  of_chars (unescape_chars (chars s)).

End Str.

(** ** Tokens, parse state and outcomes *)

#[local] Set Warnings "-register-all".

(** Modelled from the spec: the renderer is not part of the source.  It is
    taken to be tree-based ([IS_TREE]), with one method per token kind that
    builds the token variant of the spec's data model from its arguments.  A
    [Token] is the tagged tuple an action returns, after the renderer's
    method of that name has been applied to it. *)
Inductive Token : Type :=
| Text (text : string)
| Link (link : string) (text : LinkText) (title : option string)
| Image (src : string) (alt : option string) (title : option string)
| Emphasis (children : list Token)
| Strong (children : list Token)
| Codespan (code : string)
| Strikethrough (children : list Token)
| Linebreak
| InlineHtml (html : string)
| FootnoteRef (key : string) (index : Z)
with LinkText : Type :=
| Plain (s : string)               (* the body of an autolink, a [str] *)
| Children (tokens : list Token).  (* the rendered text of a link *)

(** The state dictionary.  A field is [None] when the key is absent. *)
Record State := mkState {
  def_links : option (gmap string (string * option string));
  def_footnotes : option (gset string);
  footnote_index : option Z;
  footnotes : option (list string);
  _in_link : option bool
}.

Definition set_in_link (b : bool) (st : State) : State :=
  mkState (def_links st) (def_footnotes st) (footnote_index st)
          (footnotes st) (Some b).
Definition set_footnote_index (i : Z) (st : State) : State :=
  mkState (def_links st) (def_footnotes st) (Some i) (footnotes st)
          (_in_link st).
Definition set_footnotes (l : list string) (st : State) : State :=
  mkState (def_links st) (def_footnotes st) (footnote_index st) (Some l)
          (_in_link st).

(** [state.get('_in_link')] as a condition. *)
Definition in_link (st : State) : bool :=
  match _in_link st with Some b => b | None => false end.

Inductive Exn : Type :=
| KeyError (key : string)
| TypeError
| AttributeError
| IndexError.

(** How a call ends: it returns, it raises, or the model ran out of
    recursion depth. *)
Inductive Outcome (A : Type) : Type :=
| Ok (a : A)
| Raise (e : Exn)
| Exhausted.
Arguments Ok {A} a.
Arguments Raise {A} e.
Arguments Exhausted {A}.

(** A computation over the shared state: the state it leaves is kept
    whether it returns or raises. *)
Definition M (A : Type) : Type := State -> Outcome A * State.

Definition ret {A} (a : A) : M A := fun st => (Ok a, st).
Definition raise {A} (e : Exn) : M A := fun st => (Raise e, st).
Definition bind {A B} (m : M A) (f : A -> M B) : M B :=
  fun st =>
    match m st with
    | (Ok a, st') => f a st'
    | (Raise e, st') => (Raise e, st')
    | (Exhausted, st') => (Exhausted, st')
    end.
Definition get_state : M State := fun st => (Ok st, st).
Definition modify (f : State -> State) : M unit := fun st => (Ok tt, f st).

Notation "'let*' x := m 'in' k" := (bind m (fun x => k))
  (at level 10, x name, m at level 100, k at level 200).
Notation "m ;; k" := (bind m (fun _ => k))
  (at level 100, k at level 200, right associativity).

(** The match object handed to an action: [m.group(0)] and the groups that
    took part in the match. *)
Record Match := mkMatch { group0 : string; subgroups : list (nat * string) }.

Fixpoint assoc (n : nat) (l : list (nat * string)) : option string :=
  match l with
  | [] => None
  | (i, w) :: l' => if (i =? n)%nat then Some w else assoc n l'
  end.

(** [m.group(n)]: [None] for a group that did not take part, and for a
    group number the pattern of the rule does not have: the match object is
    the scanner's, whose pattern holds the groups of all the rules, so that
    [m.group(2)] is [None] on a match of [REF_LINK2]. *)
Definition group (m : Match) (n : nat) : option string :=
  match n with
  | 0 => Some (group0 m)
  | _ => assoc n (subgroups m)
  end.

(** A [str] argument that may be [None]. *)
Definition need {A} (e : Exn) (o : option A) : M A :=
  match o with Some a => ret a | None => raise e end.

(** [if x:] on an optional string. *)
Definition truthy (o : option string) : bool :=
  match o with Some s => negb (String.eqb s "") | None => false end.

(** ** The rules *)

Inductive RuleName : Type :=
| escape | inline_html | auto_link | footnote | std_link | ref_link
| ref_link2 | strong | emphasis | codespan | strikethrough | linebreak.

Definition RULE_NAMES : list RuleName :=
  [escape; inline_html; auto_link; footnote; std_link; ref_link; ref_link2;
   strong; emphasis; codespan; strikethrough; linebreak].

(** [getattr(self, name.upper())] *)
Definition get_rule_pattern (name : RuleName) : re :=
  match name with
  | escape => Patterns.ESCAPE
  | inline_html => Patterns.INLINE_HTML
  | auto_link => Patterns.AUTO_LINK
  | footnote => Patterns.FOOTNOTE
  | std_link => Patterns.STD_LINK
  | ref_link => Patterns.REF_LINK
  | ref_link2 => Patterns.REF_LINK2
  | strong => Patterns.STRONG
  | emphasis => Patterns.EMPHASIS
  | codespan => Patterns.CODESPAN
  | strikethrough => Patterns.STRIKETHROUGH
  | linebreak => Patterns.LINEBREAK
  end.

(** ** The scanning engine

    [ScannerParser] and its [_scan] live in the module [scanner], which is
    not part of the source.  The spec (4.1) has the engine keep a cursor; at
    each step the rule whose match starts earliest wins, the earlier rule of
    the rule set winning a tie; the text between the cursor and the match,
    when there is some, is emitted as a [text] pseudo-match, then the match,
    and the cursor moves to the end of the match; when no rule matches, the
    rest, when there is some, is emitted as a last [text] pseudo-match. *)
Module Scanner.

(** Modelled from the spec: the first rule of [rules], in their order, that
    matches at [c]; this is how a tie between rules is broken. *)
Fixpoint first_rule (rules : list RuleName) (c : cursor)
  : option (RuleName * cursor * caps) :=
  match rules with
  | [] => None
  | name :: rules' =>
      match match_at (get_rule_pattern name) c with
      | Some (c', g) => Some (name, c', g)
      | None => first_rule rules' c
      end
  end.

(** Modelled from the spec: the earliest position from the cursor on at
    which a rule matches, with that match.  The text before the cursor stays
    in view of the patterns that look behind. *)
Fixpoint search (rules : list RuleName) (bef aft : list ascii)
  : option (cursor * (RuleName * cursor * caps)) :=
  match first_rule rules (Cur bef aft) with
  | Some hit => Some (Cur bef aft, hit)
  | None =>
      match aft with
      | [] => None
      | x :: aft' => search rules (x :: bef) aft'
      end
  end.

(** Modelled from the spec: the match object of a match from [start] to
    [stop] with the groups [g]. *)
Definition match_object (start stop : cursor) (g : caps) : Match :=
  mkMatch (Str.of_chars (consumed start stop))
          (map (fun '(n, w) => (n, Str.of_chars w)) g).

End Scanner.

(** ** The semantic actions and the driver *)

Section Parser.

(** [escape_url] and [unikey] are imported from [scanner], which is not
    part of the source; the actions only call them, on strings. *)
Variable escape_url : string -> string.
Variable unikey : string -> string.

Section Actions.

(** [self.render], at the depth below the current one. *)
Variable render : string -> M (list Token).

Definition parse_escape (m : Match) : M Token :=
  let text := Str.slice 1 0 (group0 m) in
  ret (Text text).

(** The destination [parse_auto_link] hands to [escape_url]. *)
Definition auto_link_target (text : string) : string :=
  if Str.contains "@" text
     && negb (Str.startswith "mailto:" (Str.lower text))
  then "mailto:" ++ text
  else text.

Definition parse_auto_link (m : Match) : M Token :=
  let* text := need TypeError (group m 1) in
  let link := auto_link_target text in
  ret (Link (escape_url link) (Plain text) None).

Definition tokenize_link (line link : string) (text : option string)
           (title : option string) : M Token :=
  let* st := get_state in
  if in_link st then ret (Text line)
  else
    modify (set_in_link true) ;;
    let* text := (let* s := need TypeError text in render s) in
    modify (set_in_link false) ;;
    ret (Link (escape_url link) (Children text) title).

(** [line[0] == '!'] *)
Definition starts_with_bang (line : string) : M bool :=
  match line with
  | EmptyString => raise IndexError
  | String c _ => ret (Ascii.eqb c "!")
  end.

(** The destination of a standard link: unescaped, and without the
    angle brackets when it has both. *)
Definition std_destination (raw : string) : string :=
  let link := Str.unescape raw in
  if Str.startswith "<" link && Str.endswith ">" link
  then Str.slice 1 1 link else link.

(** [if title: title = ESCAPE_CHAR.sub(r'\1', title[1:-1])] *)
Definition std_title (title : option string) : option string :=
  if truthy title
  then option_map (fun t => Str.unescape (Str.slice 1 1 t)) title
  else title.

Definition parse_std_link (m : Match) : M Token :=
  let line := group0 m in
  let text := group m 1 in
  let* raw := need TypeError (group m 2) in
  let link := std_destination raw in
  let title := std_title (group m 3) in
  let* bang := starts_with_bang line in
  if bang then ret (Image link text title)
  else tokenize_link line link text title.

(** [m.group(2) or text] *)
Definition ref_key_text (m : Match) : option string :=
  if truthy (group m 2) then group m 2 else group m 1.

(** [not def_links or key not in def_links] *)
Definition unresolved_link (st : State) (key : string) : bool :=
  match def_links st with
  | None => true
  | Some d => bool_decide (d = ∅) || negb (bool_decide (is_Some (d !! key)))
  end.

(** [if title: title = ESCAPE_CHAR.sub(r'\1', title)] *)
Definition ref_title (title : option string) : option string :=
  if truthy title then option_map Str.unescape title else title.

Definition parse_ref_link (m : Match) : M Token :=
  let line := group0 m in
  let text := group m 1 in
  let* key := need AttributeError (ref_key_text m) in
  let key := unikey key in
  let* st := get_state in
  if unresolved_link st key then ret (Text (Str.unescape line))
  else
    let* entry := need TypeError (def_links st ≫= (.!! key)) in
    let '(link, title) := entry in
    let link := Str.unescape link in
    let title := ref_title title in
    let* bang := starts_with_bang line in
    if bang then ret (Image link text title)
    else tokenize_link line link text title.

Definition parse_ref_link2 (m : Match) : M Token := parse_ref_link m.

(** [not def_footnotes or key not in def_footnotes] *)
Definition unresolved_footnote (st : State) (key : string) : bool :=
  match def_footnotes st with
  | None => true
  | Some d => bool_decide (d = ∅) || negb (bool_decide (key ∈ d))
  end.

Definition parse_footnote (m : Match) : M Token :=
  let* key := need AttributeError (group m 1) in
  let key := Str.lower key in
  let* st := get_state in
  if unresolved_footnote st key then ret (Text (group0 m))
  else
    let index := default 0%Z (footnote_index st) in
    let index := (index + 1)%Z in
    modify (set_footnote_index index) ;;
    let* st := get_state in
    let* l := need (KeyError "footnotes") (footnotes st) in
    modify (set_footnotes (l ++ [key])) ;;
    ret (FootnoteRef key index).

Definition parse_emphasis (m : Match) : M Token :=
  let text := Str.slice 1 1 (group0 m) in
  let* children := render text in
  ret (Emphasis children).

Definition parse_strong (m : Match) : M Token :=
  let text := Str.slice 2 2 (group0 m) in
  let* children := render text in
  ret (Strong children).

Definition parse_codespan (m : Match) : M Token :=
  let* inner := need AttributeError (group m 2) in
  let code := Str.collapse (Str.strip inner) in
  ret (Codespan code).

Definition parse_strikethrough (m : Match) : M Token :=
  let* text := need TypeError (group m 1) in
  let* children := render text in
  ret (Strikethrough children).

Definition parse_linebreak (m : Match) : M Token := ret Linebreak.

Definition parse_inline_html (m : Match) : M Token :=
  let html := group0 m in
  ret (InlineHtml html).

Definition parse_text (text : string) : M Token := ret (Text text).

(** [getattr(self, 'parse_' + name)] *)
Definition get_rule_method (name : RuleName) : Match -> M Token :=
  match name with
  | escape => parse_escape
  | inline_html => parse_inline_html
  | auto_link => parse_auto_link
  | footnote => parse_footnote
  | std_link => parse_std_link
  | ref_link => parse_ref_link
  | ref_link2 => parse_ref_link2
  | strong => parse_strong
  | emphasis => parse_emphasis
  | codespan => parse_codespan
  | strikethrough => parse_strikethrough
  | linebreak => parse_linebreak
  end.

(** Modelled from the spec: the text between the cursor and the next
    match goes through [parse_text], when there is some. *)
Definition hole (l : list ascii) : M (list Token) :=
  match l with
  | [] => ret []
  | _ => let* t := parse_text (Str.of_chars l) in ret [t]
  end.

(** Modelled from the spec: [self._scan(s, state, rules)], each yielded
    tuple turned into its token.  A match moves the cursor forward
    ([match_well_matched] below), so [steps], one more than the length of
    the text, is never used up. *)
Fixpoint scan (steps : nat) (rules : list RuleName) (c : cursor)
  : M (list Token) :=
  match steps with
  | 0 => fun st => (Exhausted, st)
  | S steps' =>
      match Scanner.search rules (before c) (after c) with
      | None => hole (after c)
      | Some (start, (name, stop, g)) =>
          let* gap := hole (consumed c start) in
          let* tok := get_rule_method name
                        (Scanner.match_object start stop g) in
          let* rest := scan steps' rules stop in
          ret (gap ++ tok :: rest)
      end
  end.

(** [parse(s, state)] with [rules=None], its tokens collected as [render]
    does for a tree-based renderer.  Modelled from the spec: the default
    rules, set in [ScannerParser], are the rule names in their order. *)
Definition parse (s : string) : M (list Token) :=
  scan (S (String.length s)) RULE_NAMES (Cur [] (Str.chars s)).

End Actions.

(** [render(s, state)]: [depth] bounds the nesting of the recursive
    calls; a depth above the length of [s] is never used up
    ([render_finite] below). *)
Fixpoint render (depth : nat) (s : string) : M (list Token) :=
  match depth with
  | 0 => fun st => (Exhausted, st)
  | S depth' => parse (render depth') s
  end.

End Parser.

(** ** Sample inputs

    The closed examples need the two imported helpers; [as_given] returns
    its argument and stands for both of them there. *)

Definition as_given (s : string) : string := s.

(** Three characters beyond ASCII: the no-break space and the next-line
    control, which [str.isspace] accepts, and a letter. *)
Definition nbsp : ascii := "160"%char.
Definition nel : ascii := "133"%char.
Definition eacute : ascii := "233"%char.

(** A state with empty reference tables and an empty list of footnotes. *)
Definition bare : State := mkState (Some ∅) (Some ∅) None (Some []) None.

(** [def_footnotes = {a, b}] *)
Definition with_footnotes : State :=
  mkState (Some ∅) (Some ({["a"]} ∪ {["b"]})) None (Some []) None.

(** [def_links = {foo: (/url, None)}] *)
Definition with_links : State :=
  mkState (Some (<["foo" := ("/url", None)]> ∅)) (Some ∅) None (Some []) None.

(** [def_links = {foo: (/u\*rl, t\&x)}]: a destination and a title with
    escapes in them. *)
Definition with_titled_link : State :=
  mkState (Some (<["foo" := ("/u\*rl", Some "t\&x")]> ∅)) (Some ∅) None
          (Some []) None.

(** Footnote definitions, but no [footnotes] list in the state. *)
Definition without_list : State :=
  mkState (Some ∅) (Some {["a"]}) None None (Some false).


(** ** Notions used by the statements *)

(** [link_free t]: no [Link] with rendered text, the token [tokenize_link]
    builds, occurs in [t] at any depth.  (An autolink carries its body as a
    [Plain] string.) *)
Fixpoint link_free (t : Token) : bool :=
  match t with
  | Link _ (Children _) _ => false
  | Emphasis l | Strong l | Strikethrough l => forallb link_free l
  | _ => true
  end.

(** [holds I Q m]: started in a state that satisfies [I], [m] ends in such a
    state, however it ends, and what it returns satisfies [Q]. *)
Definition holds (I : State -> Prop) {A} (Q : A -> Prop) (m : M A) : Prop :=
  forall st out st', I st -> m st = (out, st') ->
    I st' /\ forall a, out = Ok a -> Q a.

(** [keeps Q m]: [m] keeps the link guard up. *)
Definition keeps {A} (Q : A -> Prop) (m : M A) : Prop :=
  holds (fun st => in_link st = true) Q m.

(** The tokens without rendered text. *)
Definition leaf (t : Token) : bool :=
  match t with
  | Link _ (Children _) _ | Emphasis _ | Strong _ | Strikethrough _ => false
  | _ => true
  end.

(** [well_nested t]: wherever a link with rendered text occurs in [t], its
    text is [link_free]. *)
Fixpoint well_nested (t : Token) : bool :=
  match t with
  | Link _ (Children l) _ => forallb link_free l
  | Emphasis l | Strong l | Strikethrough l => forallb well_nested l
  | _ => true
  end.

(** A greedy repetition of one character class, read off the subject: take
    the characters of the class one by one, and on the way back try the
    continuation at each position where [lo] rounds are done. *)
Fixpoint greedy_run (p : cset) (lo : nat) (k : cont) (n : nat)
         (bef aft : list ascii) (g : caps) {struct aft} : answer :=
  let stop (_ : unit) := if (lo <=? n)%nat then k (Cur bef aft) g else None in
  match aft with
  | x :: t =>
      if p x then
        match greedy_run p lo k (S n) (x :: bef) t g with
        | Some res => Some res
        | None => stop tt
        end
      else stop tt
  | [] => stop tt
  end.

(** No two spaces in a row. *)
Fixpoint single_spaced (l : list ascii) : bool :=
  match l with
  | x :: t =>
      match t with
      | y :: _ => negb (Ascii.eqb x space && Ascii.eqb y space)
      | [] => true
      end && single_spaced t
  | [] => true
  end.

(** [squeezed l out]: [out] is [l] with every run of spaces and newlines
    turned into one space, and nothing else changed.  A run is taken whole:
    what follows it does not start with a space or a newline. *)
Inductive squeezed : list ascii -> list ascii -> Prop :=
| squeezed_nil : squeezed [] []
| squeezed_char x l out :
    x <> space -> x <> newline -> squeezed l out ->
    squeezed (x :: l) (x :: out)
| squeezed_run run l out :
    run <> [] -> Forall (fun y => y = space \/ y = newline) run ->
    (forall y, hd_error l = Some y -> y <> space /\ y <> newline) ->
    squeezed l out ->
    squeezed (run ++ l) (space :: out).

(** Whether some character other than whitespace is left. *)
Definition has_text (l : list ascii) : bool := negb (forallb re_space l).

(** What follows the lead of a hard line break: a newline, and some text
    after it. *)
Definition newline_then_text : re :=
  Seq (Chr (chr newline))
      (Ahead false (Seq (star (Chr re_space)) Dollar)).

(** The least number of characters a match of [r] consumes. *)
Fixpoint min_len (r : re) : nat :=
  match r with
  | Chr _ => 1
  | Seq a b => min_len a + min_len b
  | Alt a b => Nat.min (min_len a) (min_len b)
  | Rep _ lo _ a => match lo with 0 => 0 | S _ => min_len a end
  | Grp _ a => min_len a
  | _ => 0
  end.

(** Whether every repeated sub-pattern of [r] consumes a character per
    round. *)
Fixpoint rounds_consume (r : re) : bool :=
  match r with
  | Seq a b | Alt a b => rounds_consume a && rounds_consume b
  | Rep _ _ _ a => (1 <=? min_len a)%nat && rounds_consume a
  | Grp _ a | Ahead _ a => rounds_consume a
  | _ => true
  end.

(** The lesser of two bounds, [None] standing for no bound. *)
Definition omin (a b : option nat) : option nat :=
  match a, b with
  | Some x, Some y => Some (Nat.min x y)
  | Some x, None => Some x
  | None, _ => b
  end.

(** The least number of characters a match of [r] consumes before a group
    opens; [None] when [r] has no group. *)
Fixpoint lead (r : re) : option nat :=
  match r with
  | Seq a b => omin (lead a) (option_map (Nat.add (min_len a)) (lead b))
  | Alt a b => omin (lead a) (lead b)
  | Rep _ _ _ a => lead a
  | Grp _ _ => Some 0
  | _ => None
  end.

(** A captured text [w] fits: it leaves [lead] characters of the [room]. *)
Definition fits (o : option nat) (room : nat) (nw : nat * list ascii) : Prop :=
  exists l, o = Some l /\ length nw.2 + l <= room.

(** Where a match of [r] from [c] with groups [g] may hand over. *)
Definition reach (r : re) (c : cursor) (g : caps) (c' : cursor) (g' : caps)
  : Prop :=
  length (after c') + min_len r <= length (after c)
  /\ exists new, g' = new ++ g /\ Forall (fits (lead r) (length (after c))) new.

(** [finite m]: [m] returns or raises. *)
Definition finite {A} (m : M A) : Prop :=
  forall st, fst (m st) <> Exhausted.

(** The rules whose action renders group 1 of the match. *)
Definition renders_group (name : RuleName) : bool :=
  match name with
  | std_link | ref_link | ref_link2 | strikethrough => true
  | _ => false
  end.

(** A match within a text of length [L]: it is not empty, and the group its
    action renders is shorter than the text. *)
Definition well_matched (L : nat) (name : RuleName) (m : Match) : Prop :=
  1 <= String.length (group0 m) <= L
  /\ (renders_group name = true ->
      forall t, group m 1 = Some t -> String.length t < L).

(** ** What a match is

    The matcher above finds the match that Python finds.  What follows says
    what a match of a pattern is, whatever the order in which the
    alternatives are tried: it is the frame in which the shape of the
    matches of a rule is read off its pattern. *)

(** The cursor past the characters [w]. *)
Definition advance (w : list ascii) (c : cursor) : cursor :=
  Cur (rev w ++ before c) (skipn (length w) (after c)).

(** Whether the matcher found a match. *)
Definition succeeds (o : answer) : bool :=
  match o with Some _ => true | None => false end.

(** The rounds of a repetition, one after the other: each round spans some
    characters and captures some groups, from where the round before it
    left. *)
Fixpoint chain (P : cursor -> caps -> list ascii -> caps -> Prop)
         (c : cursor) (g : caps) (rounds : list (list ascii * caps)) : Prop :=
  match rounds with
  | [] => True
  | (w, new) :: rounds' =>
      w <> [] /\ P c g w new /\ chain P (advance w c) (new ++ g) rounds'
  end.

(** [spans r c g w new]: a match of [r] that starts at [c] with the groups
    [g] may consume the characters [w] and capture the groups [new], the
    latest first.  This is what a match of [r] is, whatever the order in
    which the matcher tries the alternatives. *)
Fixpoint spans (r : re) (c : cursor) (g : caps) (w : list ascii)
         (new : caps) {struct r} : Prop :=
  match r with
  | Eps => w = [] /\ new = []
  | Chr p => exists x, w = [x] /\ p x = true /\ new = []
  | Seq a b =>
      exists w1 w2 n1 n2,
        w = w1 ++ w2 /\ new = n2 ++ n1
        /\ spans a c g w1 n1 /\ spans b (advance w1 c) (n1 ++ g) w2 n2
  | Alt a b => spans a c g w new \/ spans b c g w new
  | Rep _ lo hi a =>
      exists rounds,
        w = concat (map fst rounds) /\ new = concat (rev (map snd rounds))
        /\ lo <= length rounds
        /\ (forall h, hi = Some h -> length rounds <= h)
        /\ chain (spans a) c g rounds
  | Grp n a => exists n1, new = (n, w) :: n1 /\ spans a c g w n1
  | Bref n => lookup_group n g = Some w /\ new = []
  | Ahead positive a =>
      w = [] /\ new = [] /\ succeeds (rmatch a accept c g) = positive
  | Behind positive p => w = [] /\ new = [] /\ prev_is p c = positive
  | Wordb =>
      w = [] /\ new = []
      /\ xorb (prev_is is_word c) (next_is is_word c) = true
  | Dollar => w = [] /\ new = [] /\ at_end c = true
  end.

(** [w] lies ahead of [c]. *)
Definition ahead (w : list ascii) (c : cursor) : Prop :=
  exists rest, after c = w ++ rest.

(** ** Checks on patterns

    Facts of every match of a pattern that can be computed from the
    pattern. *)

(** The 256 characters. *)
Definition all_ascii : list ascii := map ascii_of_nat (seq 0 256).

(** Whether the class [q] lies within the class [p]. *)
Definition sub (q p : cset) : bool :=
  forallb (fun x => implb (q x) (p x)) all_ascii.

(** Whether every match of [r] consumes a character of [p]. *)
Fixpoint must_have (p : cset) (r : re) : bool :=
  match r with
  | Chr q => sub q p
  | Seq a b => must_have p a || must_have p b
  | Alt a b => must_have p a && must_have p b
  | Rep _ lo _ a => (1 <=? lo)%nat && must_have p a
  | Grp _ a => must_have p a
  | _ => false
  end.

(** Whether every match of [r] captures the group [n]. *)
Fixpoint captures (n : nat) (r : re) : bool :=
  match r with
  | Seq a b => captures n a || captures n b
  | Alt a b => captures n a && captures n b
  | Rep _ lo _ a => (1 <=? lo)%nat && captures n a
  | Grp m a => (m =? n)%nat || captures n a
  | _ => false
  end.

(** Whether every character a match of [r] consumes is of [p]. *)
Fixpoint all_in (p : cset) (r : re) : bool :=
  match r with
  | Chr q => sub q p
  | Seq a b | Alt a b => all_in p a && all_in p b
  | Rep _ _ _ a | Grp _ a => all_in p a
  | Bref _ => false
  | _ => true
  end.

(** The sub-patterns that the group [n] of [r] encloses. *)
Fixpoint bodies (n : nat) (r : re) : list re :=
  match r with
  | Seq a b | Alt a b => bodies n a ++ bodies n b
  | Rep _ _ _ a => bodies n a
  | Grp m a => (if (m =? n)%nat then [a] else []) ++ bodies n a
  | _ => []
  end.

(** ** Notions of the statements about matches *)

(** The characters that take part in inline markup: without one of them in
    a text, no rule matches. *)
Definition markup : cset := any_of "\<[*_`~" ||| chr newline.

(** The characters of the body of an autolink. *)
Definition link_char : cset := cnot (any_of " <>").

(** The delimiters of a link title. *)
Definition title_delimiters (a b : ascii) : Prop :=
  (a = dquote /\ b = dquote) \/ (a = "'"%char /\ b = "'"%char)
  \/ (a = "("%char /\ b = ")"%char).

(** The groups of the match that the action of a rule reads. *)
Definition reads (name : RuleName) : list nat :=
  match name with
  | auto_link | footnote | ref_link | ref_link2 | strikethrough => [1]
  | std_link => [1; 2]
  | codespan => [2]
  | _ => []
  end.

(** A match that has what the action of the rule reads. *)
Definition supplied (name : RuleName) (m : Match) : Prop :=
  group0 m <> "" /\ Forall (fun n => is_Some (group m n)) (reads name).

(** The string a rule action hands to [self.render], when it renders a
    part of its match. *)
Definition rendered_part (name : RuleName) (m : Match) : option string :=
  match name with
  | emphasis => Some (Str.slice 1 1 (group0 m))
  | strong => Some (Str.slice 2 2 (group0 m))
  | std_link | ref_link | ref_link2 | strikethrough => group m 1
  | _ => None
  end.

(** ** Notions of the statements about the state *)

(** [quiet m]: [m] keeps a list of footnotes that the state has, and
    raises nothing but the [KeyError] of a state without that list. *)
Definition quiet {A} (m : M A) : Prop :=
  forall st out st', m st = (out, st') ->
    (is_Some (footnotes st) -> is_Some (footnotes st'))
    /\ match out with
       | Raise e => e = KeyError "footnotes" /\ footnotes st' = None
       | _ => True
       end.

(** The footnote references of a token, in the order of the text: the key
    and the index of each, through the children of the wrappers. *)
Fixpoint refs (t : Token) : list (string * Z) :=
  match t with
  | FootnoteRef key index => [(key, index)]
  | Link _ (Children l) _ | Emphasis l | Strong l | Strikethrough l =>
      flat_map refs l
  | _ => []
  end.

(** The [n] numbers that follow [i]. *)
Fixpoint count_from (i : Z) (n : nat) : list Z :=
  match n with
  | 0 => []
  | S n' => (i + 1)%Z :: count_from (i + 1)%Z n'
  end.

(** [state.get('footnote_index', 0)] *)
Definition index_of (st : State) : Z := default 0%Z (footnote_index st).

(** [accounted st rs st']: from [st] to [st'] the footnote counters moved
    by the references [rs], and by nothing else: the indexes of [rs] are the
    numbers that follow the counter of [st], the counter of [st'] is the
    last of them, the keys of [rs] were appended to the list of footnotes in
    their order, each of them is a key of [def_footnotes], and the
    tables of definitions are those of [st]. *)
Definition accounted (st : State) (rs : list (string * Z)) (st' : State)
  : Prop :=
  map snd rs = count_from (index_of st) (length rs)
  /\ index_of st' = (index_of st + Z.of_nat (length rs))%Z
  /\ (rs = [] -> footnote_index st' = footnote_index st)
  /\ (rs <> [] -> is_Some (footnotes st))
  /\ (forall l, footnotes st = Some l ->
                footnotes st' = Some (l ++ map fst rs))
  /\ (footnotes st = None -> footnotes st' = None)
  /\ Forall (fun r => unresolved_footnote st r.1 = false) rs
  /\ def_footnotes st' = def_footnotes st
  /\ def_links st' = def_links st.

(** [returns R m]: when [m] returns, [R] relates the state before, what is
    returned and the state after. *)
Definition returns {A} (R : State -> A -> State -> Prop) (m : M A) : Prop :=
  forall st a st', m st = (Ok a, st') -> R st a st'.

(** What a rendering leaves behind, when it returns: the footnote counters
    account for the references of the tokens, and the guard reads as
    before. *)
Definition settled (st : State) (ts : list Token) (st' : State) : Prop :=
  accounted st (flat_map refs ts) st' /\ in_link st' = in_link st.

(** * Properties *)

(** ** Strings *)

Lemma chars_of_chars l : Str.chars (Str.of_chars l) = l.
Proof. apply list_ascii_of_string_of_list_ascii. Qed.

Lemma of_chars_chars s : Str.of_chars (Str.chars s) = s.
Proof. apply string_of_list_ascii_of_string. Qed.

Lemma unescape_chars_plain l :
  existsb (Ascii.eqb backslash) l = false -> Str.unescape_chars l = l.
Proof.
  induction l as [|x t IH]; [reflexivity|]. cbn [existsb].
  intros H. apply orb_false_elim in H as [Hx Ht].
  cbn [Str.unescape_chars]. destruct t as [|y t']; [reflexivity|].
  rewrite Ascii.eqb_sym in Hx. rewrite Hx. cbn [andb].
  now rewrite (IH Ht).
Qed.

Lemma blank_is_space x : Str.blank x = true -> is_space x = true.
Proof.
  unfold Str.blank, cor, chr. intros H.
  apply orb_true_iff in H as [H|H]; apply Ascii.eqb_eq in H; now subst.
Qed.

Lemma collapse_no_newline r l : ~ In newline (Str.collapse_from r l).
Proof.
  revert r. induction l as [|x t IH]; intros r; cbn [Str.collapse_from].
  - intros [].
  - destruct (Str.blank x) eqn:B.
    + destruct r; [apply IH|]. intros [H|H]; [discriminate|]. now apply IH in H.
    + intros [H|H]; [|now apply IH in H]. subst x. discriminate.
Qed.

Lemma collapse_in_run_head l :
  hd_error (Str.collapse_from true l) <> Some space.
Proof.
  induction l as [|x t IH]; cbn [Str.collapse_from]; [discriminate|].
  destruct (Str.blank x) eqn:B; [assumption|].
  cbn. intros [= ->]. discriminate.
Qed.

Lemma collapse_single_spaced r l :
  single_spaced (Str.collapse_from r l) = true.
Proof.
  revert r. induction l as [|x t IH]; intros r; cbn [Str.collapse_from];
    [reflexivity|].
  destruct (Str.blank x) eqn:B.
  - destruct r; [apply IH|]. cbn [single_spaced]. rewrite IH, andb_true_r.
    pose proof (collapse_in_run_head t) as H.
    destruct (Str.collapse_from true t) as [|y u]; [reflexivity|].
    cbn. destruct (Ascii.eqb y space) eqn:E; [|reflexivity].
    apply Ascii.eqb_eq in E. subst y. now destruct H.
  - cbn [single_spaced]. rewrite IH, andb_true_r.
    destruct (Str.collapse_from false t) as [|y u]; [reflexivity|].
    destruct (Ascii.eqb x space) eqn:E; [|reflexivity].
    apply Ascii.eqb_eq in E. subst x. discriminate.
Qed.

Lemma hd_error_app {A} (a b : list A) x :
  hd_error a = Some x -> hd_error (a ++ b) = Some x.
Proof. now destruct a. Qed.

Lemma collapse_last r l x :
  hd_error (rev l) = Some x -> Str.blank x = false ->
  hd_error (rev (Str.collapse_from r l)) = Some x.
Proof.
  revert r. induction l as [|y t IH]; intros r H B; [discriminate|].
  destruct t as [|z u].
  - cbn in H. injection H as ->. cbn [Str.collapse_from]. now rewrite B.
  - assert (Ht : hd_error (rev (z :: u)) = Some x).
    { cbn [rev] in H |- *. destruct (rev u ++ [z]) eqn:E.
      - now destruct (rev u).
      - exact H. }
    clear H. remember (z :: u) as t eqn:Et. cbn [Str.collapse_from].
    destruct (Str.blank y); [destruct r|]; cbn [rev];
      try apply hd_error_app; now apply IH.
Qed.

(** The characters other than spaces and newlines are kept, in their
    order. *)
Lemma collapse_keeps_text r l :
  List.filter (cnot Str.blank) (Str.collapse_from r l)
  = List.filter (cnot Str.blank) l.
Proof.
  revert r. induction l as [|x t IH]; intros r; [reflexivity|].
  cbn [Str.collapse_from List.filter].
  destruct (Str.blank x) eqn:B.
  - replace (cnot Str.blank x) with false by (unfold cnot; now rewrite B).
    destruct r; [apply IH|]. cbn [List.filter].
    change (cnot Str.blank space) with false. apply IH.
  - cbn [List.filter].
    replace (cnot Str.blank x) with true by (unfold cnot; now rewrite B).
    now rewrite IH.
Qed.

(** A text without a newline or two spaces in a row is left as it is. *)
Lemma collapse_fixed r l :
  single_spaced l = true -> ~ In newline l ->
  (r = true -> forall y, hd_error l = Some y -> Str.blank y = false) ->
  Str.collapse_from r l = l.
Proof.
  revert r. induction l as [|x t IH]; intros r Hs Hn Hr; [reflexivity|].
  cbn [Str.collapse_from]. cbn [single_spaced] in Hs.
  apply andb_true_iff in Hs as [Hx Hs].
  assert (Hnt : ~ In newline t) by (intros H; apply Hn; now right).
  destruct (Str.blank x) eqn:B.
  - destruct r; [specialize (Hr eq_refl x eq_refl); congruence|].
    assert (x = space) as ->.
    { unfold Str.blank, cor, chr in B. apply orb_true_iff in B as [B|B];
        apply Ascii.eqb_eq in B; [assumption|].
      subst x. destruct Hn. now left. }
    f_equal. apply IH; try assumption. intros _ y Hy.
    destruct t as [|z u]; [discriminate|]. injection Hy as ->.
    destruct (Str.blank y) eqn:By; [|reflexivity].
    unfold Str.blank, cor, chr in By. apply orb_true_iff in By as [By|By];
      apply Ascii.eqb_eq in By; subst y.
    + discriminate Hx.
    + destruct Hnt. now left.
  - f_equal. apply IH; try assumption. discriminate.
Qed.

Lemma lstrip_head l x :
  hd_error (Str.lstrip l) = Some x -> is_space x = false.
Proof.
  induction l as [|y t IH]; cbn [Str.lstrip]; [discriminate|].
  destruct (is_space y) eqn:E; [assumption|]. now intros [= <-].
Qed.

Lemma lstrip_suffix l :
  exists p, l = p ++ Str.lstrip l /\ forallb is_space p = true.
Proof.
  induction l as [|y t [p [Hp Hs]]]; [now exists []|].
  cbn [Str.lstrip]. destruct (is_space y) eqn:E.
  - exists (y :: p). cbn. now rewrite E, Hs, <- Hp.
  - now exists [].
Qed.

(** What [strip] leaves: the text without a run of whitespace at each end,
    and without whitespace at either end of what is left. *)
Lemma strip_spec s :
  (exists p q, Str.chars s = p ++ Str.chars (Str.strip s) ++ q
               /\ forallb is_space p = true /\ forallb is_space q = true)
  /\ (forall x, hd_error (Str.chars (Str.strip s)) = Some x ->
                is_space x = false)
  /\ (forall x, hd_error (rev (Str.chars (Str.strip s))) = Some x ->
                is_space x = false).
Proof.
  unfold Str.strip. rewrite chars_of_chars.
  destruct (lstrip_suffix (Str.chars s)) as [p [Hp Hps]].
  destruct (lstrip_suffix (rev (Str.lstrip (Str.chars s)))) as [q [Hq Hqs]].
  set (a := Str.lstrip (Str.chars s)) in *.
  set (b := Str.lstrip (rev a)) in *.
  assert (Ha : a = rev b ++ rev q).
  { rewrite <- rev_app_distr, <- Hq. symmetry. apply rev_involutive. }
  split; [|split].
  - exists p, (rev q). rewrite <- Ha. split; [exact Hp|]. split; [exact Hps|].
    rewrite forallb_forall in *. intros x Hx. apply Hqs. now apply in_rev.
  - intros x Hx. apply (lstrip_head (Str.chars s)). fold a. rewrite Ha.
    now apply hd_error_app.
  - intros x. rewrite rev_involutive. apply lstrip_head.
Qed.

(** ** The matcher *)

(** The equations of the matcher. *)
Lemma rmatch_Seq a b k c g : rmatch (Seq a b) k c g = rmatch a (rmatch b k) c g.
Proof. reflexivity. Qed.

Lemma rmatch_Chr p k bef aft g :
  rmatch (Chr p) k (Cur bef aft) g
  = match aft with
    | x :: t => if p x then k (Cur (x :: bef) t) g else None
    | [] => None
    end.
Proof. reflexivity. Qed.

Lemma rmatch_Alt a b k c g :
  rmatch (Alt a b) k c g
  = match rmatch a k c g with Some res => Some res | None => rmatch b k c g end.
Proof. reflexivity. Qed.

Lemma rmatch_not_ahead a k c g :
  rmatch (Ahead false a) k c g
  = match rmatch a accept c g with Some _ => None | None => k c g end.
Proof. reflexivity. Qed.

(** ** Code spans *)

Lemma blank_chars x :
  Str.blank x = true <-> x = space \/ x = newline.
Proof.
  unfold Str.blank, cor, chr. rewrite orb_true_iff.
  now rewrite !Ascii.eqb_eq.
Qed.

Lemma not_blank_chars x :
  Str.blank x = false <-> x <> space /\ x <> newline.
Proof.
  unfold Str.blank, cor, chr. rewrite orb_false_iff.
  now rewrite !Ascii.eqb_neq.
Qed.

(** A list is a run of spaces and newlines, then a rest that does not
    start with one. *)
Lemma blank_span l :
  exists run rest,
    l = run ++ rest /\ forallb Str.blank run = true
    /\ (forall y, hd_error rest = Some y -> Str.blank y = false)
    /\ length rest <= length l.
Proof.
  induction l as [|x t (run & rest & Ht & Hrun & Hrest & Hlen)].
  - exists [], []. repeat split; [discriminate|reflexivity].
  - destruct (Str.blank x) eqn:B.
    + exists (x :: run), rest. cbn [app forallb length]. rewrite B, Hrun, <- Ht.
      repeat split; [assumption|lia].
    + exists [], (x :: t). cbn. repeat split; [|lia]. now intros y [= <-].
Qed.

(** Within a run, the rest of the run adds nothing. *)
Lemma collapse_run run l :
  forallb Str.blank run = true ->
  (forall y, hd_error l = Some y -> Str.blank y = false) ->
  Str.collapse_from true (run ++ l) = Str.collapse_from false l.
Proof.
  intros Hrun Hl. induction run as [|x run IH]; cbn [app].
  - destruct l as [|y t]; [reflexivity|]. cbn [Str.collapse_from].
    now rewrite (Hl y eq_refl).
  - cbn [forallb] in Hrun. apply andb_true_iff in Hrun as [Hx Hrun].
    cbn [Str.collapse_from]. rewrite Hx. now apply IH.
Qed.

(** [re.sub(r'[ \n]+', ' ', s)] does what [squeezed] says. *)
Lemma collapse_squeezed n :
  forall l, length l <= n -> squeezed l (Str.collapse_from false l).
Proof.
  induction n as [|n IH]; intros l Hl.
  - destruct l; [constructor|cbn in Hl; lia].
  - destruct l as [|x t]; [constructor|]. cbn [length] in Hl.
    cbn [Str.collapse_from]. destruct (Str.blank x) eqn:B.
    + destruct (blank_span t) as (run & rest & -> & Hrun & Hrest & Hlen).
      rewrite (collapse_run run rest Hrun Hrest).
      apply (squeezed_run (x :: run) rest).
      * discriminate.
      * constructor; [now apply blank_chars|].
        apply List.Forall_forall. intros y Hy. apply blank_chars.
        rewrite forallb_forall in Hrun. now apply Hrun.
      * intros y Hy. apply not_blank_chars. now apply Hrest.
      * apply IH. lia.
    + apply not_blank_chars in B as [B1 B2].
      apply squeezed_char; [assumption|assumption|]. apply IH. lia.
Qed.

(** Whitespace at one end is cut up to the first character that is none:
    two ways of cutting it agree. *)
Lemma trim_front_unique p p' b b' :
  p ++ b = p' ++ b' ->
  forallb is_space p = true -> forallb is_space p' = true ->
  (forall x, hd_error b = Some x -> is_space x = false) ->
  (forall x, hd_error b' = Some x -> is_space x = false) ->
  b <> [] -> p = p' /\ b = b'.
Proof.
  revert p'. induction p as [|x p IH]; intros p' E Hp Hp' Hb Hb' Hne.
  - cbn [app] in E. destruct p' as [|y p']; [now split|].
    destruct b as [|z b]; [now destruct Hne|].
    cbn [app] in E. injection E as -> _.
    cbn [forallb] in Hp'. apply andb_true_iff in Hp' as [Hy _].
    now rewrite (Hb y eq_refl) in Hy.
  - cbn [forallb] in Hp. apply andb_true_iff in Hp as [Hx Hp].
    destruct p' as [|y p'].
    + cbn [app] in E. destruct b' as [|z b']; [discriminate|].
      injection E as <- _. now rewrite (Hb' x eq_refl) in Hx.
    + cbn [app] in E. injection E as <- E.
      cbn [forallb] in Hp'. apply andb_true_iff in Hp' as [_ Hp'].
      destruct (IH p' E Hp Hp' Hb Hb' Hne) as [-> ->]. now split.
Qed.

Lemma squeezed_of_nil out : squeezed [] out -> out = [].
Proof.
  intros H. remember (@nil ascii) as l eqn:El.
  destruct H as [|x l out|run l out Hne _ _ _]; [reflexivity|discriminate|].
  apply app_eq_nil in El as [-> _]. now destruct Hne.
Qed.

(** A run that is taken whole is taken in one way. *)
Lemma run_unique run run' l l' :
  run ++ l = run' ++ l' ->
  Forall (fun y => y = space \/ y = newline) run ->
  Forall (fun y => y = space \/ y = newline) run' ->
  (forall y, hd_error l = Some y -> y <> space /\ y <> newline) ->
  (forall y, hd_error l' = Some y -> y <> space /\ y <> newline) ->
  run = run' /\ l = l'.
Proof.
  revert run'. induction run as [|x run IH]; intros run' E Hr Hr' Hl Hl'.
  - cbn [app] in E. destruct run' as [|y run']; [now split|].
    subst l. cbn [app hd_error] in Hl.
    apply Forall_cons_iff in Hr' as [Hy _].
    destruct (Hl y eq_refl) as [H1 H2]. now destruct Hy.
  - apply Forall_cons_iff in Hr as [Hx Hr1].
    destruct run' as [|y run'].
    + cbn [app] in E. subst l'. cbn [app hd_error] in Hl'.
      destruct (Hl' x eq_refl) as [H1 H2]. now destruct Hx.
    + cbn [app] in E. injection E as <- E.
      apply Forall_cons_iff in Hr' as [_ Hr1'].
      destruct (IH run' E Hr1 Hr1' Hl Hl') as [-> ->]. now split.
Qed.

(** [squeezed] leaves one result. *)
Lemma squeezed_unique l out :
  squeezed l out -> forall out', squeezed l out' -> out' = out.
Proof.
  induction 1 as [|x l out Hs Hn H IH|run l out Hne Hrun Hl H IH];
    intros out' H'.
  - now apply squeezed_of_nil.
  - remember (x :: l) as xl eqn:E.
    destruct H' as [|x' l' o' Hs' Hn' H1|run' l' o' Hne' Hrun' Hl' H1].
    + discriminate.
    + injection E as -> ->. f_equal. now apply IH.
    + destruct run' as [|y run']; [now destruct Hne'|].
      cbn [app] in E. injection E as -> _.
      apply Forall_cons_iff in Hrun' as [Hy _]. now destruct Hy.
  - remember (run ++ l) as rl eqn:E.
    destruct H' as [|x' l' o' Hs' Hn' H1|run' l' o' Hne' Hrun' Hl' H1].
    + symmetry in E. apply app_eq_nil in E as [-> _]. now destruct Hne.
    + destruct run as [|y run]; [now destruct Hne|].
      cbn [app] in E. injection E as -> _.
      apply Forall_cons_iff in Hrun as [Hy _]. now destruct Hy.
    + destruct (run_unique _ _ _ _ E Hrun' Hrun Hl' Hl) as [-> ->].
      f_equal. now apply IH.
Qed.

Lemma forallb_rev_true {A} (f : A -> bool) l :
  forallb f l = true -> forallb f (rev l) = true.
Proof.
  rewrite !forallb_forall. intros H x Hx. apply H. now apply in_rev.
Qed.

(** A text that is whitespace throughout has no body. *)
Lemma trim_blank_text (lead trail lead' body' trail' : list ascii) :
  lead ++ trail = lead' ++ body' ++ trail' ->
  forallb is_space lead = true -> forallb is_space trail = true ->
  (forall x, hd_error body' = Some x -> is_space x = false) ->
  body' = [].
Proof.
  intros E Hl Ht Hb'. destruct body' as [|y body0']; [reflexivity|].
  assert (Hall : forallb is_space (lead ++ trail) = true)
    by (rewrite forallb_app; now rewrite Hl, Ht).
  rewrite E in Hall. rewrite !forallb_app in Hall.
  apply andb_true_iff in Hall as [_ Hall].
  apply andb_true_iff in Hall as [Hall _].
  cbn [forallb] in Hall. apply andb_true_iff in Hall as [Hy _].
  now rewrite (Hb' y eq_refl) in Hy.
Qed.

(** The body of a text is cut in one way. *)
Lemma trim_unique (lead body trail lead' body' trail' : list ascii) :
  lead ++ body ++ trail = lead' ++ body' ++ trail' ->
  forallb is_space lead = true -> forallb is_space trail = true ->
  forallb is_space lead' = true -> forallb is_space trail' = true ->
  (forall x, hd_error body = Some x -> is_space x = false) ->
  (forall x, hd_error (rev body) = Some x -> is_space x = false) ->
  (forall x, hd_error body' = Some x -> is_space x = false) ->
  (forall x, hd_error (rev body') = Some x -> is_space x = false) ->
  body' = body.
Proof.
  intros E Hl Ht Hl' Ht' Hb Hbr Hb' Hbr'.
  destruct body as [|x body0] eqn:Eb.
  { cbn [app] in E. exact (trim_blank_text _ _ _ _ _ E Hl Ht Hb'). }
  destruct body' as [|x' body0'] eqn:Eb'.
  { cbn [app] in E. symmetry in E.
    exfalso.
    now pose proof (trim_blank_text _ _ lead (x :: body0) trail E Hl' Ht' Hb). }
  rewrite <- Eb, <- Eb' in *.
  assert (Hne : body <> []) by (rewrite Eb; discriminate).
  assert (Hne' : body' <> []) by (rewrite Eb'; discriminate).
  assert (F : lead = lead' /\ body ++ trail = body' ++ trail').
  { apply trim_front_unique; try assumption.
    - intros z Hz. apply Hb. rewrite Eb in *. exact Hz.
    - intros z Hz. apply Hb'. rewrite Eb' in *. exact Hz.
    - rewrite Eb. discriminate. }
  destruct F as [_ F].
  apply (f_equal (@rev ascii)) in F. rewrite !rev_app_distr in F.
  assert (G : rev trail = rev trail' /\ rev body = rev body').
  { apply trim_front_unique; try assumption.
    - now apply forallb_rev_true.
    - now apply forallb_rev_true.
    - intros Hr. apply (f_equal (@rev ascii)) in Hr.
      rewrite rev_involutive in Hr. now apply Hne. }
  destruct G as [_ G]. apply (f_equal (@rev ascii)) in G.
  now rewrite !rev_involutive in G.
Qed.

(** C7: the content of a code span is group 2 of the match, trimmed, with
    every run of spaces and newlines turned into one space.  The text of
    group 2 is a run of whitespace, a body and a run of whitespace, where
    the body neither starts nor ends with whitespace; the content is the
    body with each run of spaces and newlines made one space, and with
    nothing else changed.  The action returns the content as a string and
    leaves the state as it was; it does not call [render], so the content
    is not parsed again. *)
Theorem parse_codespan_content (m : Match) (inner : string) (st : State) :
  group m 2 = Some inner ->
  exists lead body trail code,
    Str.chars inner = lead ++ body ++ trail
    /\ forallb is_space lead = true /\ forallb is_space trail = true
    /\ (forall x, hd_error body = Some x -> is_space x = false)
    /\ (forall x, hd_error (rev body) = Some x -> is_space x = false)
    /\ squeezed body code
    /\ parse_codespan m st = (Ok (Codespan (Str.of_chars code)), st).
Proof.
  intros Hg.
  destruct (strip_spec inner) as [(p & q & Hpq & Hp & Hq) [Hhd Hlast]].
  exists p, (Str.chars (Str.strip inner)), q,
         (Str.collapse_from false (Str.chars (Str.strip inner))).
  repeat split; try assumption.
  - now apply (collapse_squeezed (length (Str.chars (Str.strip inner)))).
  - unfold parse_codespan, bind, need. now rewrite Hg.
Qed.

(** [str.isspace] by code points, those below 256. *)
Lemma is_space_codes x :
  is_space x = true
  <-> In (code x) [9; 10; 11; 12; 13; 28; 29; 30; 31; 32; 133; 160].
Proof.
  unfold is_space. cbn [In]. set (n := code x).
  rewrite !orb_true_iff, !andb_true_iff, !Nat.leb_le, !Nat.eqb_eq. lia.
Qed.

(** A no-break space and a space are trimmed at the front, a next-line
    control at the back; the runs of spaces and newlines inside become one
    space each. *)
Lemma parse_codespan_content_witness :
  let inner :=
    Str.of_chars (nbsp :: Str.chars " x " ++ newline :: Str.chars "  y z"
                    ++ [nel]) in
  parse_codespan (mkMatch EmptyString [(2, inner)]) bare
  = (Ok (Codespan "x y z"), bare)
  /\ exists lead body trail code,
       Str.chars inner = lead ++ body ++ trail
       /\ forallb is_space lead = true /\ forallb is_space trail = true
       /\ (forall x, hd_error body = Some x -> is_space x = false)
       /\ (forall x, hd_error (rev body) = Some x -> is_space x = false)
       /\ squeezed body code
       /\ parse_codespan (mkMatch EmptyString [(2, inner)]) bare
          = (Ok (Codespan (Str.of_chars code)), bare).
Proof.
  split; [reflexivity|].
  exact (parse_codespan_content
           (mkMatch EmptyString
              [(2, Str.of_chars (nbsp :: Str.chars " x " ++ newline
                                   :: Str.chars "  y z" ++ [nel]))])
           _ bare eq_refl).
Defined.

(** The body and the content are settled by the text of group 2: two
    ways of cutting the text and squeezing the body give the same
    content. *)
Lemma codespan_content_settled (lead body trail code : list ascii)
      (lead' body' trail' code' : list ascii) :
  lead ++ body ++ trail = lead' ++ body' ++ trail' ->
  forallb is_space lead = true -> forallb is_space trail = true ->
  forallb is_space lead' = true -> forallb is_space trail' = true ->
  (forall x, hd_error body = Some x -> is_space x = false) ->
  (forall x, hd_error (rev body) = Some x -> is_space x = false) ->
  (forall x, hd_error body' = Some x -> is_space x = false) ->
  (forall x, hd_error (rev body') = Some x -> is_space x = false) ->
  squeezed body code -> squeezed body' code' -> code' = code.
Proof.
  intros E Hl Ht Hl' Ht' Hb Hbr Hb' Hbr' Hs Hs'.
  assert (Hbody : body' = body) by (eapply trim_unique; eassumption).
  subst body'. exact (squeezed_unique _ _ Hs _ Hs').
Qed.

(** The spec's example: the content of a code span is not parsed again. *)
Example codespan_is_verbatim eu uk st :
  render eu uk 1 "`*not emphasis*`" st
  = (Ok [Codespan "*not emphasis*"], st).
Proof. vm_compute. reflexivity. Qed.

(** ** Escapes *)

(** C9: wherever a backslash stands before a punctuation character, the
    escape rule matches the two and its action returns the [Text] of the
    character alone, leaving the state as it was; rendering the two
    characters gives that one token. *)
Theorem escape_is_literal_text eu uk depth (c : ascii) (st : State) :
  is_punct c = true ->
  render eu uk (S depth) (String backslash (String c "")) st
  = (Ok [Text (String c "")], st)
  /\ forall bef rest,
       let start := Cur bef (backslash :: c :: rest) in
       let stop := Cur (c :: backslash :: bef) rest in
       match_at Patterns.ESCAPE start = Some (stop, [])
       /\ parse_escape (Scanner.match_object start stop []) st
          = (Ok (Text (String c "")), st).
Proof.
  intros H. split.
  - destruct c as [[] [] [] [] [] [] [] []];
      try discriminate H; vm_compute; reflexivity.
  - intros bef rest start stop. split.
    + unfold match_at, Patterns.ESCAPE, start.
      rewrite rmatch_Seq, !rmatch_Chr. unfold chr.
      now rewrite Ascii.eqb_refl, H.
    + unfold parse_escape, ret, Scanner.match_object, consumed, start, stop.
      cbn [after length group0].
      replace (S (S (length rest)) - length rest) with 2 by lia.
      reflexivity.
Qed.

Lemma escape_is_literal_text_witness :
  is_punct "*"%char = true
  /\ render as_given as_given 1 "\*" bare = (Ok [Text "*"], bare)
  /\ match_at Patterns.ESCAPE (Cur [] (Str.chars "\*b*"))
     = Some (Cur (Str.chars "*\") (Str.chars "b*"), []).
Proof.
  split; [reflexivity|].
  destruct (escape_is_literal_text as_given as_given 0 "*"%char bare eq_refl)
    as [Hrender Hrule].
  split; [exact Hrender|].
  exact (proj1 (Hrule [] (Str.chars "b*"))).
Defined.

(** ** The hard line break *)

(** A greedy repetition of a character class runs as [greedy_run] says. *)
Lemma rep_loop_class p lo k fuel n bef aft g :
  length aft <= fuel ->
  rep_loop (rmatch (Chr p)) true lo None k fuel n (Cur bef aft) g
  = greedy_run p lo k n bef aft g.
Proof.
  revert n bef aft. induction fuel as [|fuel IH]; intros n bef aft Hlen.
  - destruct aft; [reflexivity | cbn in Hlen; lia].
  - destruct aft as [|x t]; [reflexivity|].
    cbn [rep_loop below rmatch after before greedy_run].
    destruct (p x); [|reflexivity].
    replace (length t <? length (x :: t))%nat with true
      by (symmetry; apply Nat.ltb_lt; cbn; lia).
    rewrite IH by (cbn in Hlen; lia). reflexivity.
Qed.

(** [\s*$] succeeds exactly on a rest that is all whitespace. *)
Lemma whitespace_to_end n bef aft g :
  greedy_run re_space 0 (rmatch Dollar accept) n bef aft g = None
  <-> has_text aft = true.
Proof.
  unfold has_text. set (k := rmatch Dollar accept). revert n bef.
  induction aft as [|x t IH]; intros n bef; cbn [greedy_run forallb Nat.leb].
  - split; discriminate.
  - assert (Hstop : re_space x = false \/ t <> [] ->
                    k (Cur bef (x :: t)) g = None).
    { intros H. unfold k. cbn [rmatch]. unfold at_end. cbn [after].
      destruct t; [|reflexivity]. destruct H as [H|H]; [|now destruct H].
      destruct (Ascii.eqb x newline) eqn:N; [|reflexivity].
      apply Ascii.eqb_eq in N. subst x. discriminate H. }
    destruct (re_space x) eqn:E; cbn [andb negb].
    + destruct (greedy_run re_space 0 k (S n) (x :: bef) t g) eqn:R.
      * split; [discriminate|]. intros H.
        apply (IH (S n) (x :: bef)) in H. congruence.
      * assert (Ht : negb (forallb re_space t) = true)
          by (now apply (IH (S n) (x :: bef))).
        split; [now intros _|]. intros _. apply Hstop. right.
        intros ->. discriminate Ht.
    + split; [reflexivity|]. intros _. apply Hstop. now left.
Qed.

Lemma rmatch_class p lo k bef aft g :
  rmatch (Rep true lo None (Chr p)) k (Cur bef aft) g
  = greedy_run p lo k 0 bef aft g.
Proof. apply rep_loop_class. reflexivity. Qed.

Lemma newline_then_text_eq bef aft g :
  rmatch newline_then_text accept (Cur bef aft) g
  = match aft with
    | x :: t => if Ascii.eqb x newline && has_text t
                then Some (Cur (x :: bef) t, g) else None
    | [] => None
    end.
Proof.
  unfold newline_then_text. rewrite rmatch_Seq, rmatch_Chr.
  destruct aft as [|x t]; [reflexivity|]. unfold chr at 1.
  destruct (Ascii.eqb x newline); [|reflexivity]. cbn [andb].
  rewrite rmatch_not_ahead, rmatch_Seq. unfold star. rewrite rmatch_class.
  destruct (greedy_run re_space 0 (rmatch Dollar accept) 0 (x :: bef) t g)
    eqn:R.
  - destruct (has_text t) eqn:T; [|reflexivity].
    apply (proj2 (whitespace_to_end 0 (x :: bef) t g)) in T. congruence.
  - apply (proj1 (whitespace_to_end 0 (x :: bef) t g)) in R. now rewrite R.
Qed.

Lemma repeat_shift {A} (x : A) n l :
  repeat x n ++ x :: l = x :: repeat x n ++ l.
Proof. induction n as [|n IH]; [reflexivity|]. cbn. now rewrite IH. Qed.

(** A run of spaces before the newline. *)
Lemma spaces_then_newline n bef aft c' g' :
  greedy_run (chr space) 2 (rmatch newline_then_text accept) n bef aft []
  = Some (c', g')
  <-> exists j rest,
        aft = repeat space j ++ newline :: rest /\ 2 <= n + j
        /\ has_text rest = true
        /\ c' = Cur (newline :: repeat space j ++ bef) rest /\ g' = [].
Proof.
  revert n bef. induction aft as [|x t IH]; intros n bef; cbn [greedy_run].
  - rewrite newline_then_text_eq. split.
    + destruct (2 <=? n)%nat; discriminate.
    + intros (j & rest & H & _). now destruct j.
  - rewrite !newline_then_text_eq. unfold chr at 1.
    destruct (Ascii.eqb x space) eqn:E.
    + apply Ascii.eqb_eq in E. subst x.
      change (Ascii.eqb space newline) with false. cbn [andb].
      assert (Hsame : forall o : answer,
                match o with
                | Some res => Some res
                | None => if (2 <=? n)%nat then None else None
                end = o).
      { intros [res|]; [reflexivity|]. now destruct (2 <=? n)%nat. }
      rewrite Hsame, IH. split.
      * intros (j & rest & -> & Hn & Ht & -> & ->).
        exists (S j), rest. cbn [repeat app].
        rewrite repeat_shift. repeat split; auto; lia.
      * intros (j & rest & Ha & Hn & Ht & -> & ->).
        destruct j as [|j]; [discriminate Ha|].
        cbn [repeat app] in Ha. injection Ha as ->.
        exists j, rest. cbn [repeat app].
        rewrite repeat_shift. repeat split; auto; lia.
    + split.
      * destruct (2 <=? n)%nat eqn:N; [|discriminate].
        destruct (Ascii.eqb x newline) eqn:X; [|discriminate].
        destruct (has_text t) eqn:T; [|discriminate].
        cbn [andb]. intros [= <- <-].
        apply Ascii.eqb_eq in X. subst x. apply Nat.leb_le in N.
        exists 0, t. cbn. repeat split; auto; lia.
      * intros (j & rest & Ha & Hn & Ht & -> & ->).
        destruct j as [|j].
        -- cbn in Ha. injection Ha as -> ->.
           replace (2 <=? n)%nat with true
             by (symmetry; apply Nat.leb_le; lia).
           rewrite Ht. reflexivity.
        -- cbn in Ha. injection Ha as -> _.
           discriminate E.
Qed.

Lemma linebreak_unfold bef aft :
  match_at Patterns.LINEBREAK (Cur bef aft)
  = match rmatch (Chr (chr backslash))
                 (rmatch newline_then_text accept) (Cur bef aft) [] with
    | Some res => Some res
    | None => greedy_run (chr space) 2 (rmatch newline_then_text accept)
                         0 bef aft []
    end.
Proof.
  unfold match_at, Patterns.LINEBREAK, atleast. cbn [seqs].
  fold accept. fold newline_then_text.
  now rewrite rmatch_Seq, rmatch_Alt, rmatch_class.
Qed.

(** [\s] of the patterns is the whitespace of ASCII: the tab, the
    newline, the vertical tab, the form feed, the carriage return and the
    space. *)
Lemma re_space_codes x :
  re_space x = true <-> In (code x) [9; 10; 11; 12; 13; 32].
Proof.
  unfold re_space. cbn [In]. set (n := code x).
  rewrite orb_true_iff, andb_true_iff, !Nat.leb_le, Nat.eqb_eq. lia.
Qed.

Lemma re_space_not_codes x :
  re_space x = false <-> ~ In (code x) [9; 10; 11; 12; 13; 32].
Proof.
  rewrite <- re_space_codes. now destruct (re_space x).
Qed.

Lemma has_text_codes l :
  has_text l = true
  <-> exists x, In x l /\ ~ In (code x) [9; 10; 11; 12; 13; 32].
Proof.
  unfold has_text. rewrite negb_true_iff. split.
  - induction l as [|y l IH]; cbn [forallb]; [discriminate|].
    destruct (re_space y) eqn:Y; cbn [andb].
    + intros H. destruct (IH H) as (x & Hx & Hn). exists x.
      split; [now right|assumption].
    + intros _. exists y. split; [now left|]. intros H.
      apply re_space_codes in H. congruence.
  - intros (x & Hx & Hn). destruct (forallb re_space l) eqn:F; [|reflexivity].
    rewrite forallb_forall in F. specialize (F x Hx).
    now apply re_space_codes in F.
Qed.

(** C8 (as amended): the hard-linebreak rule matches at a position exactly
    when the text from there on is a backslash, or two spaces or more, then
    a newline, then a rest with a character in it that is no whitespace of
    ASCII (tab, newline, vertical tab, form feed, carriage return, space);
    the match is the lead and the newline, and ends after the newline.  So
    a match never ends at the end of the input.  The action returns
    [Linebreak] and leaves the state as it was. *)
Theorem linebreak_rule (bef aft : list ascii) :
  (forall c' g,
     match_at Patterns.LINEBREAK (Cur bef aft) = Some (c', g) <->
     exists lead rest,
       aft = lead ++ newline :: rest
       /\ (lead = [backslash] \/ exists n, 2 <= n /\ lead = repeat space n)
       /\ (exists x, In x rest /\ ~ In (code x) [9; 10; 11; 12; 13; 32])
       /\ c' = Cur (newline :: rev lead ++ bef) rest /\ g = [])
  /\ (forall c' g,
        match_at Patterns.LINEBREAK (Cur bef aft) = Some (c', g) ->
        after c' <> []
        /\ exists lead, consumed (Cur bef aft) c' = lead ++ [newline])
  /\ (forall m st, parse_linebreak m st = (Ok Linebreak, st)).
Proof.
  assert (Hiff : forall c' g,
     match_at Patterns.LINEBREAK (Cur bef aft) = Some (c', g) <->
     exists lead rest,
       aft = lead ++ newline :: rest
       /\ (lead = [backslash] \/ exists n, 2 <= n /\ lead = repeat space n)
       /\ has_text rest = true
       /\ c' = Cur (newline :: rev lead ++ bef) rest /\ g = []).
  { intros c' g. rewrite linebreak_unfold.
    destruct aft as [|x t].
    - cbn. split; [discriminate|]. intros (lead & rest & H & _).
      now destruct lead.
    - cbn [rmatch after before]. unfold chr at 1.
      destruct (Ascii.eqb x backslash) eqn:E.
      + apply Ascii.eqb_eq in E. subst x.
        rewrite newline_then_text_eq.
        assert (Hsp : greedy_run (chr space) 2
                        (rmatch newline_then_text accept) 0 bef
                        (backslash :: t) [] = None) by reflexivity.
        rewrite Hsp. split.
        * destruct t as [|y u]; [discriminate|].
          destruct (Ascii.eqb y newline) eqn:Y; [|discriminate].
          destruct (has_text u) eqn:T; [|discriminate].
          cbn [andb]. intros [= <- <-]. apply Ascii.eqb_eq in Y. subst y.
          exists [backslash], u. repeat split; auto.
        * intros (lead & rest & Ha & [->|(n & Hn & ->)] & Ht & -> & ->).
          -- cbn in Ha. injection Ha as ->. cbn. now rewrite Ht.
          -- destruct n as [|n]; [lia|]. discriminate Ha.
      + rewrite spaces_then_newline. split.
        * intros (j & rest & Ha & Hj & Ht & -> & ->).
          exists (repeat space j), rest. rewrite rev_repeat.
          repeat split; auto. right. exists j. split; [lia|reflexivity].
        * intros (lead & rest & Ha & [->|(n & Hn & ->)] & Ht & -> & ->).
          -- cbn in Ha. injection Ha as -> _. discriminate E.
          -- exists n, rest. rewrite rev_repeat. repeat split; auto. }
  split; [|split; [|reflexivity]].
  - intros c' g. rewrite Hiff. split.
    + intros (lead & rest & Ha & Hl & Ht & Hc).
      exists lead, rest. now rewrite <- has_text_codes.
    + intros (lead & rest & Ha & Hl & Ht & Hc).
      exists lead, rest. now rewrite has_text_codes.
  - intros c' g H. apply Hiff in H as (lead & rest & -> & _ & Ht & -> & _).
    split; [cbn; now destruct rest|].
    exists lead. unfold consumed. cbn [after].
    rewrite length_app. cbn [length].
    replace (length lead + S (length rest) - length rest)
      with (length lead + 1) by lia.
    change (newline :: rest) with ([newline] ++ rest).
    rewrite app_assoc, firstn_app, length_app. cbn [length].
    rewrite Nat.sub_diag, firstn_all2 by (rewrite length_app; cbn; lia).
    cbn [firstn]. now rewrite app_nil_r.
Qed.

(** Two spaces and a newline before a no-break space are a hard line
    break: the no-break space is no whitespace of ASCII. *)
Lemma linebreak_rule_witness :
  match_at Patterns.LINEBREAK (Cur [] (Str.chars "  " ++ [newline; nbsp]))
  = Some (Cur (newline :: Str.chars "  ") [nbsp], [])
  /\ match_at Patterns.LINEBREAK (Cur [] (Str.chars "  " ++ [newline])) = None.
Proof.
  split; [|reflexivity].
  apply (proj1 (linebreak_rule [] (Str.chars "  " ++ [newline; nbsp]))).
  exists (Str.chars "  "), [nbsp].
  split; [reflexivity|].
  split; [right; exists 2; split; [lia|reflexivity]|].
  split; [|split; reflexivity].
  exists nbsp. split; [now left|].
  cbn. intros H. repeat (destruct H as [H|H]; [discriminate H|]). exact H.
Defined.

(** C8 (as stated) fails: two spaces before a newline that is not at the
    end of the input, yet no hard line break, because only a space follows
    the newline.  The rule does not match there, and the text is rendered
    as one [Text]. *)
Lemma linebreak_not_before_blank_rest :
  match_at Patterns.LINEBREAK
    (Cur (Str.chars "a") (Str.chars "  " ++ newline :: Str.chars " ")) = None
  /\ render as_given as_given 1
       (Str.of_chars (Str.chars "a  " ++ newline :: Str.chars " ")) bare
     = (Ok [Text (Str.of_chars (Str.chars "a  " ++ newline :: Str.chars " "))],
        bare).
Proof. split; reflexivity. Qed.

(** A hard line break in a text, and trailing spaces at the end of one. *)
Example linebreak_example eu uk st :
  render eu uk 1 (Str.of_chars (Str.chars "a  " ++ newline :: Str.chars "b")) st
  = (Ok [Text "a"; Linebreak; Text "b"], st)
  /\ fst (render eu uk 1 (Str.of_chars (Str.chars "a  " ++ [newline])) st)
     = Ok [Text (Str.of_chars (Str.chars "a  " ++ [newline]))].
Proof. split; vm_compute; reflexivity. Qed.

(** ** Autolinks *)




(** ** Images *)

(** C5: the destination of an image does not go through [escape_url]:
    whatever [escape_url] is, the image carries the destination as
    written. *)
Theorem image_destination_not_escaped eu uk st :
  render eu uk 1 "![x](a&b)" st = (Ok [Image "a&b" (Some "x") None], st).
Proof. vm_compute. reflexivity. Qed.

(** C10: for a match that starts with [!], both the standard and the
    reference form return an [Image] whose alt text is group 1 as matched;
    the result is the same whatever the guard says and whatever [render]
    would do, and the state is left as it was. *)
Theorem image_bypasses_link_guard eu uk rec (m : Match) (rest : string)
        (st : State) :
  group0 m = String "!" rest ->
  (forall raw, group m 2 = Some raw ->
     parse_std_link eu rec m st
     = (Ok (Image (std_destination raw) (group m 1) (std_title (group m 3))),
        st))
  /\ (forall key d link title,
        ref_key_text m = Some key -> def_links st = Some d ->
        d !! uk key = Some (link, title) ->
        parse_ref_link eu uk rec m st
        = (Ok (Image (Str.unescape link) (group m 1) (ref_title title)), st)).
Proof.
  intros Hline. split.
  - intros raw Hraw. unfold parse_std_link, bind, need.
    rewrite Hraw, Hline. reflexivity.
  - intros key d link title Hkey Hd Hlook.
    assert (Hres : unresolved_link st (uk key) = false).
    { unfold unresolved_link. rewrite Hd, Hlook.
      rewrite bool_decide_eq_false_2;
        [|intros ->; now rewrite lookup_empty in Hlook].
      rewrite bool_decide_eq_true_2; [reflexivity|eauto]. }
    unfold parse_ref_link, bind, need, get_state, ret.
    rewrite Hkey. cbv beta iota. rewrite Hres, Hd. cbn [mbind option_bind].
    rewrite Hlook, Hline. reflexivity.
Qed.

Lemma image_bypasses_link_guard_witness :
  let st := set_in_link true with_links in
  parse_std_link as_given (fun _ => raise TypeError)
    (mkMatch "![b](u2)" [(2, "u2"); (1, "b")]) st
  = (Ok (Image "u2" (Some "b") None), st)
  /\ parse_ref_link as_given as_given (fun _ => raise TypeError)
       (mkMatch "![b][foo]" [(2, "foo"); (1, "b")]) st
     = (Ok (Image "/url" (Some "b") None), st).
Proof.
  split.
  - exact (proj1 (image_bypasses_link_guard as_given as_given
                    (fun _ => raise TypeError)
                    (mkMatch "![b](u2)" [(2, "u2"); (1, "b")]) "[b](u2)"
                    (set_in_link true with_links) eq_refl) "u2" eq_refl).
  - exact (proj2 (image_bypasses_link_guard as_given as_given
                    (fun _ => raise TypeError)
                    (mkMatch "![b][foo]" [(2, "foo"); (1, "b")]) "[b][foo]"
                    (set_in_link true with_links) eq_refl)
                 "foo" (<["foo" := ("/url", None)]> ∅) "/url" None
                 eq_refl eq_refl eq_refl).
Defined.

(** An image in the text of a link stays an image. *)
Example image_in_link_text eu uk :
  render eu uk 2 "[a ![b](u2) c](u1)" bare
  = (Ok [Link (eu "u1")
           (Children [Text "a "; Image "u2" (Some "b") None; Text " c"]) None],
     set_in_link false bare).
Proof. vm_compute. reflexivity. Qed.

(** ** Unresolved references *)

(** C6 (as amended): a reference link whose key is not in [def_links], and
    a footnote reference whose key is not in [def_footnotes], return a
    [Text] and leave the state as it was, also when the table is empty or
    absent.  The footnote's text is the matched source; the reference
    link's text is the matched source with the backslash escapes of
    punctuation undone, which is the source itself when it has no
    backslash. *)
Theorem unresolved_reference_is_text eu uk rec (m : Match) (st : State) :
  (forall key, ref_key_text m = Some key ->
     unresolved_link st (uk key) = true ->
     parse_ref_link eu uk rec m st = (Ok (Text (Str.unescape (group0 m))), st)
     /\ parse_ref_link2 eu uk rec m st
        = (Ok (Text (Str.unescape (group0 m))), st))
  /\ (forall key, group m 1 = Some key ->
        unresolved_footnote st (Str.lower key) = true ->
        parse_footnote m st = (Ok (Text (group0 m)), st))
  /\ (Str.contains backslash (group0 m) = false ->
        Str.unescape (group0 m) = group0 m)
  /\ (def_links st = None \/ def_links st = Some ∅ ->
        forall key, unresolved_link st key = true)
  /\ (def_footnotes st = None \/ def_footnotes st = Some ∅ ->
        forall key, unresolved_footnote st key = true).
Proof.
  split; [|split; [|split; [|split]]].
  - intros key Hkey Hun.
    assert (E : parse_ref_link eu uk rec m st
                = (Ok (Text (Str.unescape (group0 m))), st)).
    { unfold parse_ref_link, bind, need, get_state, ret.
      rewrite Hkey. cbv beta iota. now rewrite Hun. }
    split; exact E.
  - intros key Hkey Hun.
    unfold parse_footnote, bind, need, get_state, ret.
    rewrite Hkey. cbv beta iota. now rewrite Hun.
  - intros H. unfold Str.unescape.
    rewrite unescape_chars_plain by exact H. apply of_chars_chars.
  - intros [H|H] key; unfold unresolved_link; now rewrite H.
  - intros [H|H] key; unfold unresolved_footnote; now rewrite H.
Qed.

Lemma unresolved_reference_is_text_witness :
  parse_ref_link2 as_given as_given (fun _ => raise TypeError)
                  (mkMatch "[foo]" [(1, "foo")]) bare
  = (Ok (Text "[foo]"), bare)
  /\ parse_footnote (mkMatch "[^foo]" [(1, "foo")]) bare
     = (Ok (Text "[^foo]"), bare).
Proof.
  split.
  - exact (proj2 (proj1 (unresolved_reference_is_text as_given as_given
                           (fun _ => raise TypeError)
                           (mkMatch "[foo]" [(1, "foo")]) bare)
                        "foo" eq_refl eq_refl)).
  - exact (proj1 (proj2 (unresolved_reference_is_text as_given as_given
                           (fun _ => raise TypeError)
                           (mkMatch "[^foo]" [(1, "foo")]) bare))
                 "foo" eq_refl eq_refl).
Defined.

(** The spec's example: with empty [def_links], [[foo]] stays as it is. *)
Example unresolved_reference_example eu uk :
  render eu uk 1 "[foo]" bare = (Ok [Text "[foo]"], bare).
Proof. vm_compute. reflexivity. Qed.

(** C6 (as stated) fails for a source with a backslash escape: the text
    is not the original source. *)
Lemma unresolved_reference_unescaped :
  parse_ref_link2 as_given as_given (fun _ => raise TypeError)
                  (mkMatch "[a\*]" [(1, "a\*")]) bare
  = (Ok (Text "[a*]"), bare)
  /\ render as_given as_given 1 "[a\*]" bare = (Ok [Text "[a*]"], bare)
  /\ "[a*]" <> "[a\*]".
Proof. repeat split; try (vm_compute; reflexivity). discriminate. Qed.

(** ** Footnote references *)

(** C1 (as amended): a footnote reference whose key is defined gets the
    counter plus one as its index, 1 when the counter is absent, and its key
    is appended to [footnotes]; nothing looks at the keys already there, so
    the same reference parsed again gets the next index and is appended
    again. *)
Theorem parse_footnote_next_index (m : Match) (key : string)
        (l : list string) (st : State) :
  group m 1 = Some key ->
  unresolved_footnote st (Str.lower key) = false ->
  footnotes st = Some l ->
  let k := Str.lower key in
  let i := default 0%Z (footnote_index st) in
  let st1 := set_footnotes (l ++ [k]) (set_footnote_index (i + 1) st) in
  let st2 := set_footnotes (l ++ [k; k]) (set_footnote_index (i + 2) st) in
  parse_footnote m st = (Ok (FootnoteRef k (i + 1)%Z), st1)
  /\ parse_footnote m st1 = (Ok (FootnoteRef k (i + 2)%Z), st2).
Proof.
  intros Hg Hdef Hl k i st1 st2.
  assert (Hstep : forall s j, def_footnotes s = def_footnotes st ->
            footnotes s = Some j ->
            parse_footnote m s
            = (Ok (FootnoteRef k (default 0%Z (footnote_index s) + 1)%Z),
               set_footnotes (j ++ [k])
                 (set_footnote_index (default 0%Z (footnote_index s) + 1) s))).
  { intros s j Hs Hj.
    assert (Hu : unresolved_footnote s k = false).
    { unfold unresolved_footnote in *. now rewrite Hs. }
    unfold parse_footnote, bind, need, get_state, modify, ret.
    rewrite Hg. cbv beta iota. fold k. rewrite Hu.
    cbn [footnotes set_footnote_index]. rewrite Hj. reflexivity. }
  split.
  - now apply Hstep.
  - rewrite (Hstep st1 (l ++ [k])) by reflexivity.
    unfold st1, st2, set_footnotes, set_footnote_index. cbn.
    rewrite <- app_assoc. cbn.
    now replace (i + 1 + 1)%Z with (i + 2)%Z by lia.
Qed.

Lemma parse_footnote_next_index_witness :
  let m := mkMatch "[^a]" [(1, "a")] in
  let st1 := set_footnotes ["a"] (set_footnote_index 1 with_footnotes) in
  let st2 := set_footnotes ["a"; "a"] (set_footnote_index 2 with_footnotes) in
  unresolved_footnote with_footnotes "a" = false
  /\ parse_footnote m with_footnotes = (Ok (FootnoteRef "a" 1), st1)
  /\ parse_footnote m st1 = (Ok (FootnoteRef "a" 2), st2).
Proof.
  split; [reflexivity|].
  apply (parse_footnote_next_index (mkMatch "[^a]" [(1, "a")]) "a" []
           with_footnotes); reflexivity.
Defined.

(** C1 (as stated) fails: in the spec's own example the second [[^a]] gets
    index 3, not 1, and [a] is appended a second time.  The same is seen on
    the three calls of the action alone. *)
Lemma footnote_index_not_reused :
  exists st',
    render as_given as_given 1 "[^a] text [^b] more [^a]" with_footnotes
    = (Ok [FootnoteRef "a" 1; Text " text "; FootnoteRef "b" 2;
           Text " more "; FootnoteRef "a" 3], st')
    /\ (let* t1 := parse_footnote (mkMatch "[^a]" [(1, "a")]) in
        let* t2 := parse_footnote (mkMatch "[^b]" [(1, "b")]) in
        let* t3 := parse_footnote (mkMatch "[^a]" [(1, "a")]) in
        ret [t1; t2; t3]) with_footnotes
       = (Ok [FootnoteRef "a" 1; FootnoteRef "b" 2; FootnoteRef "a" 3], st')
    /\ footnotes st' = Some ["a"; "b"; "a"]
    /\ footnote_index st' = Some 3%Z.
Proof.
  eexists. split; [vm_compute; reflexivity|].
  split; [vm_compute; reflexivity|]. split; reflexivity.
Qed.

(** ** Computations that keep an invariant of the state *)

Section Holds.

Variable I : State -> Prop.

Lemma holds_ret {A} (Q : A -> Prop) (a : A) : Q a -> holds I Q (ret a).
Proof.
  intros Ha st out st' Hst Heq. injection Heq as <- <-.
  split; [assumption|]. intros a' [= <-]. exact Ha.
Qed.

Lemma holds_raise {A} (Q : A -> Prop) (e : Exn) : holds I Q (raise e).
Proof.
  intros st out st' Hst Heq. injection Heq as <- <-.
  split; [assumption|]. discriminate.
Qed.

Lemma holds_exhausted {A} (Q : A -> Prop) :
  holds I Q (fun st => (Exhausted, st)).
Proof.
  intros st out st' Hst Heq. injection Heq as <- <-.
  split; [assumption|]. discriminate.
Qed.

Lemma holds_bind {A B} (P : A -> Prop) (Q : B -> Prop) (m : M A)
      (f : A -> M B) :
  holds I P m -> (forall a, P a -> holds I Q (f a)) -> holds I Q (bind m f).
Proof.
  intros Hm Hf st out st' Hst Heq. unfold bind in Heq.
  destruct (m st) as [[a|e|] st1] eqn:E;
    destruct (Hm _ _ _ Hst E) as [Hst1 Ha].
  - exact (Hf a (Ha a eq_refl) _ _ _ Hst1 Heq).
  - injection Heq as <- <-. split; [assumption|discriminate].
  - injection Heq as <- <-. split; [assumption|discriminate].
Qed.

Lemma holds_weaken {A} (P Q : A -> Prop) (m : M A) :
  holds I P m -> (forall a, P a -> Q a) -> holds I Q m.
Proof.
  intros Hm HPQ st out st' Hst Heq. destruct (Hm _ _ _ Hst Heq) as [H1 H2].
  split; [assumption|]. intros a Ha. apply HPQ, H2, Ha.
Qed.

Lemma holds_need {A} (e : Exn) (o : option A) :
  holds I (fun a => o = Some a) (need e o).
Proof.
  destruct o as [a|]; [now apply holds_ret | apply holds_raise].
Qed.

Lemma holds_get_state : holds I I get_state.
Proof.
  intros st out st' Hst Heq. injection Heq as <- <-.
  split; [assumption|]. now intros a [= <-].
Qed.

Lemma holds_modify (f : State -> State) :
  (forall st, I st -> I (f st)) -> holds I (fun _ => True) (modify f).
Proof.
  intros Hf st out st' Hst Heq. injection Heq as <- <-.
  split; [now apply Hf | trivial].
Qed.

Lemma holds_starts_with_bang line :
  holds I (fun _ => True) (starts_with_bang line).
Proof. destruct line; [apply holds_raise | now apply holds_ret]. Qed.

End Holds.

(** One step of a computation: its first part by a rule above, the rest
    left to do. *)
Ltac holds_step :=
  eapply holds_bind;
  [ first [ apply holds_need | apply holds_get_state
          | apply holds_starts_with_bang
          | apply holds_modify; solve [auto] ]
  | ].

(** ** A check on tokens that the scan carries through

    [q] is a check that passes on every token without rendered text and on
    a wrapper whose children pass; [I] is an invariant that the footnote
    counters do not touch.  When [render] and [tokenize_link] keep [I] and
    return tokens that pass, so does the scan. *)

Section Checked.

Variable I : State -> Prop.
Variable q : Token -> bool.

Hypothesis q_leaf : forall t, leaf t = true -> q t = true.
Hypothesis q_emphasis : forall l, q (Emphasis l) = forallb q l.
Hypothesis q_strong : forall l, q (Strong l) = forallb q l.
Hypothesis q_strikethrough : forall l, q (Strikethrough l) = forallb q l.
Hypothesis I_index : forall i st, I st -> I (set_footnote_index i st).
Hypothesis I_footnotes : forall l st, I st -> I (set_footnotes l st).

Variable escape_url unikey : string -> string.
Variable render : string -> M (list Token).

Hypothesis render_passes :
  forall s, holds I (fun l => forallb q l = true) (render s).
Hypothesis link_passes :
  forall line link text title,
    holds I (fun t => q t = true)
          (tokenize_link escape_url render line link text title).

Lemma ref_link_passes m :
  holds I (fun t => q t = true) (parse_ref_link escape_url unikey render m).
Proof.
  unfold parse_ref_link.
  holds_step. intros key _. holds_step. intros st Hst.
  destruct (unresolved_link _ _); [now apply holds_ret, q_leaf|].
  holds_step. intros [link title] _. holds_step. intros [] _.
  - now apply holds_ret, q_leaf.
  - apply link_passes.
Qed.

Lemma action_passes name m :
  holds I (fun t => q t = true)
        (get_rule_method escape_url unikey render name m).
Proof.
  destruct name; cbn [get_rule_method].
  - now apply holds_ret, q_leaf.
  - now apply holds_ret, q_leaf.
  - unfold parse_auto_link. holds_step. intros text _.
    now apply holds_ret, q_leaf.
  - unfold parse_footnote. holds_step. intros key _. holds_step.
    intros st Hst.
    destruct (unresolved_footnote _ _); [now apply holds_ret, q_leaf|].
    holds_step. intros _ _. holds_step. intros st1 Hst1.
    holds_step. intros l _. holds_step. intros _ _.
    now apply holds_ret, q_leaf.
  - unfold parse_std_link. holds_step. intros raw _. holds_step.
    intros [] _; [now apply holds_ret, q_leaf | apply link_passes].
  - apply ref_link_passes.
  - apply ref_link_passes.
  - unfold parse_strong. eapply holds_bind; [apply render_passes|].
    intros l Hl. apply holds_ret. now rewrite q_strong.
  - unfold parse_emphasis. eapply holds_bind; [apply render_passes|].
    intros l Hl. apply holds_ret. now rewrite q_emphasis.
  - unfold parse_codespan. holds_step. intros inner _.
    now apply holds_ret, q_leaf.
  - unfold parse_strikethrough. holds_step. intros text _.
    eapply holds_bind; [apply render_passes|].
    intros l Hl. apply holds_ret. now rewrite q_strikethrough.
  - now apply holds_ret, q_leaf.
Qed.

Lemma hole_passes l : holds I (fun ts => forallb q ts = true) (hole l).
Proof.
  destruct l; [now apply holds_ret|]. unfold hole, parse_text.
  eapply holds_bind;
    [apply (holds_ret I (fun t => q t = true)); now apply q_leaf|].
  intros t Ht. apply holds_ret. cbn. now rewrite Ht.
Qed.

Lemma scan_passes steps rules c :
  holds I (fun ts => forallb q ts = true)
        (scan escape_url unikey render steps rules c).
Proof.
  revert c. induction steps as [|steps IH]; intros c; cbn [scan].
  - apply holds_exhausted.
  - destruct (Scanner.search _ _ _) as [[start [[name stop] g]]|].
    + eapply holds_bind; [apply hole_passes|]. intros gap Hgap.
      eapply holds_bind; [apply action_passes|]. intros tok Htok.
      eapply holds_bind; [apply IH|]. intros rest Hrest.
      apply holds_ret. rewrite forallb_app. cbn.
      now rewrite Hgap, Htok, Hrest.
    + apply hole_passes.
Qed.

End Checked.

(** ** Links inside link text *)

Lemma tokenize_link_guarded eu rec line link text title st :
  in_link st = true ->
  tokenize_link eu rec line link text title st = (Ok (Text line), st).
Proof.
  intros Hin. unfold tokenize_link, bind, get_state. now rewrite Hin.
Qed.

(** What [tokenize_link] does when the guard is down: the guard goes up, the
    text is rendered, the guard goes down. *)
Lemma tokenize_link_open eu rec line link text title st :
  in_link st = false ->
  tokenize_link eu rec line link text title st
  = match text with
    | None => (Raise TypeError, set_in_link true st)
    | Some s =>
        match rec s (set_in_link true st) with
        | (Ok inner, st1) =>
            (Ok (Link (eu link) (Children inner) title), set_in_link false st1)
        | (Raise e, st1) => (Raise e, st1)
        | (Exhausted, st1) => (Exhausted, st1)
        end
    end.
Proof.
  intros Hin. unfold tokenize_link, bind, get_state, modify, need.
  rewrite Hin. cbv beta iota.
  destruct text as [s|]; [|reflexivity]. unfold ret. cbv beta iota.
  now destruct (rec s (set_in_link true st)) as [[inner|e|] st1].
Qed.

(** While the guard is up, [render] keeps it up, however it ends, and
    returns no link built by [tokenize_link]. *)
Lemma render_keeps eu uk depth s :
  keeps (fun ts => forallb link_free ts = true) (render eu uk depth s).
Proof.
  revert s. induction depth as [|depth IH]; intros s; cbn [render].
  - apply holds_exhausted.
  - unfold parse. apply scan_passes; try reflexivity; auto.
    + now intros [ | ? [] ? | | | | | | | | ].
    + intros line link text title st out st' Hin Heq.
      rewrite tokenize_link_guarded in Heq by exact Hin.
      injection Heq as <- <-. split; [assumption|]. now intros a [= <-].
Qed.

(** Whatever the state, in what [render] returns the text of a link holds
    no link built by [tokenize_link]. *)
Lemma render_well_nested eu uk depth s :
  holds (fun _ => True) (fun ts => forallb well_nested ts = true)
        (render eu uk depth s).
Proof.
  revert s. induction depth as [|depth IH]; intros s; cbn [render].
  - apply holds_exhausted.
  - unfold parse. apply scan_passes; try reflexivity; auto.
    + now intros [ | ? [] ? | | | | | | | | ].
    + intros line link text title st out st' _ Heq.
      split; [trivial|]. intros tok ->.
      destruct (in_link st) eqn:Hin.
      * rewrite tokenize_link_guarded in Heq by exact Hin.
        now injection Heq as <- <-.
      * rewrite tokenize_link_open in Heq by exact Hin.
        destruct text as [t|]; [|discriminate].
        destruct (render eu uk depth t (set_in_link true st))
          as [[inner|e|] st1] eqn:R; try discriminate.
        injection Heq as <- <-. cbn [well_nested].
        now apply (render_keeps eu uk depth t (set_in_link true st) _ _
                     eq_refl R).
Qed.

(** The guard where it is read: a standard or reference link is resolved
    by [tokenize_link].  Called while the guard is up, that is while the
    text of an outer link is rendered, it returns the literal [Text] of the
    whole matched source and leaves the state alone.  Called with the guard
    down, it returns a [Link] whose rendered text holds no link built by
    [tokenize_link] at any depth.  So in what [render] returns, from any
    state, no link built by [tokenize_link] stands in the text of another. *)
Theorem no_link_in_link_text eu uk depth :
  (forall line link text title st,
     in_link st = true ->
     tokenize_link eu (render eu uk depth) line link text title st
     = (Ok (Text line), st))
  /\ (forall line link text title st tok st',
        in_link st = false ->
        tokenize_link eu (render eu uk depth) line link text title st
        = (Ok tok, st') ->
        exists inner, tok = Link (eu link) (Children inner) title
                      /\ forallb link_free inner = true)
  /\ (forall s st toks st',
        render eu uk depth s st = (Ok toks, st') ->
        forallb well_nested toks = true).
Proof.
  split; [|split].
  - intros. now apply tokenize_link_guarded.
  - intros line link text title st tok st' Hin Heq.
    rewrite tokenize_link_open in Heq by assumption.
    destruct text as [s|]; [|discriminate].
    destruct (render eu uk depth s (set_in_link true st))
      as [[inner|e|] st1] eqn:R; try discriminate.
    injection Heq as <- <-. exists inner. split; [reflexivity|].
    now apply (render_keeps eu uk depth s (set_in_link true st) _ _ eq_refl R).
  - intros s st toks st' Heq.
    now apply (render_well_nested eu uk depth s st _ _ Logic.I Heq).
Qed.

Lemma no_link_in_link_text_witness :
  let inner := [Text "a "; Text "[b](u2)"; Text " c"] in
  tokenize_link as_given (render as_given as_given 2) "[b](u2)" "u2"
                (Some "b") None (set_in_link true bare)
  = (Ok (Text "[b](u2)"), set_in_link true bare)
  /\ render as_given as_given 2 "[a [b](u2) c](u1)" bare
     = (Ok [Link "u1" (Children inner) None], set_in_link false bare)
  /\ forallb well_nested [Link "u1" (Children inner) None] = true.
Proof.
  assert (E : render as_given as_given 2 "[a [b](u2) c](u1)" bare
              = (Ok [Link "u1" (Children
                       [Text "a "; Text "[b](u2)"; Text " c"]) None],
                 set_in_link false bare)) by (vm_compute; reflexivity).
  destruct (no_link_in_link_text as_given as_given 2) as (Hup & _ & Hout).
  split; [now apply Hup|]. split; [exact E|]. exact (Hout _ _ _ _ E).
Defined.

(** The spec's example of a link inside a link text, at any depth from 2
    on and for any [escape_url]. *)
Example nested_link_is_text eu uk depth :
  render eu uk (S (S depth)) "[a [b](u2) c](u1)" bare
  = (Ok [Link (eu "u1")
              (Children [Text "a "; Text "[b](u2)"; Text " c"]) None],
     set_in_link false bare).
Proof. vm_compute. reflexivity. Qed.

(** C2: the code lets a link stand in the text of a link.  The guard
    [_in_link] is read by [tokenize_link] only, where standard and reference
    links end: [parse_auto_link] does not read it, and with the guard up it
    returns a [Link] all the same, for every match and every state.  So the
    autolink in the text of [[a <http://x.y> c](u1)] comes out as a [Link]
    inside the outer [Link], where the standard link in the text of
    [[a [b](u2) c](u1)] comes out as the literal [Text] of its source. *)
Theorem autolink_ignores_link_guard eu uk :
  (forall m st,
     parse_auto_link eu m (set_in_link true st)
     = match group m 1 with
       | Some text =>
           (Ok (Link (eu (auto_link_target text)) (Plain text) None),
            set_in_link true st)
       | None => (Raise TypeError, set_in_link true st)
       end)
  /\ render eu uk 2 "[a <http://x.y> c](u1)" bare
     = (Ok [Link (eu "u1")
              (Children [Text "a ";
                         Link (eu "http://x.y") (Plain "http://x.y") None;
                         Text " c"]) None],
        set_in_link false bare)
  /\ render eu uk 2 "[a [b](u2) c](u1)" bare
     = (Ok [Link (eu "u1")
              (Children [Text "a "; Text "[b](u2)"; Text " c"]) None],
        set_in_link false bare).
Proof.
  split; [|split; vm_compute; reflexivity].
  intros m st. unfold parse_auto_link, bind, need.
  now destruct (group m 1).
Qed.

(** C3 (as amended): when [tokenize_link] returns, the guard reads as it did
    on entry: the state is untouched when it was up, and it is [False] when
    it was down or absent.  When the rendering of the text does not return,
    the guard was down on entry and is left [True]. *)
Theorem tokenize_link_guard_on_exit eu uk depth line link text title
        st out st' :
  tokenize_link eu (render eu uk depth) line link text title st = (out, st') ->
  match out with
  | Ok _ => in_link st' = in_link st
            /\ (in_link st = true -> st' = st)
            /\ (in_link st = false -> _in_link st' = Some false)
  | _ => in_link st = false /\ _in_link st' = Some true
  end.
Proof.
  intros Heq. destruct (in_link st) eqn:Hin.
  - rewrite tokenize_link_guarded in Heq by assumption.
    injection Heq as <- <-. rewrite Hin. repeat split; auto; discriminate.
  - rewrite tokenize_link_open in Heq by assumption.
    assert (Hup : forall s o st1,
              render eu uk depth s (set_in_link true st) = (o, st1) ->
              _in_link st1 = Some true).
    { intros s o st1 R.
      destruct (render_keeps eu uk depth s (set_in_link true st) _ _
                  eq_refl R) as [H _].
      unfold in_link in H. now destruct (_in_link st1) as [[]|]. }
    destruct text as [s|].
    + destruct (render eu uk depth s (set_in_link true st))
        as [[inner|e|] st1] eqn:R; injection Heq as <- <-.
      * repeat split; auto; discriminate.
      * split; [reflexivity | exact (Hup _ _ _ R)].
      * split; [reflexivity | exact (Hup _ _ _ R)].
    + injection Heq as <- <-. now split.
Qed.

Lemma tokenize_link_guard_on_exit_witness :
  let st' := set_in_link false bare in
  tokenize_link as_given (render as_given as_given 2) "[x *y*](u)" "u"
                (Some "x *y*") None bare
  = (Ok (Link "u" (Children [Text "x "; Emphasis [Text "y"]]) None), st')
  /\ in_link st' = in_link bare
  /\ (in_link bare = true -> st' = bare)
  /\ (in_link bare = false -> _in_link st' = Some false).
Proof.
  assert (E : tokenize_link as_given (render as_given as_given 2)
                "[x *y*](u)" "u" (Some "x *y*") None bare
              = (Ok (Link "u" (Children [Text "x "; Emphasis [Text "y"]])
                       None), set_in_link false bare))
    by (vm_compute; reflexivity).
  split; [exact E|].
  exact (tokenize_link_guard_on_exit _ _ _ _ _ _ _ _ _ _ E).
Defined.

(** C3 (as stated) fails on an exceptional exit: the footnote reference in
    the link text raises, as the state has no [footnotes] list, and the guard
    that was [False] on entry is left [True]. *)
Lemma guard_left_up_on_error :
  exists st',
    tokenize_link as_given (render as_given as_given 1) "[x [^a]](u)" "u"
                  (Some "x [^a]") None without_list
    = (Raise (KeyError "footnotes"), st')
    /\ _in_link without_list = Some false
    /\ _in_link st' = Some true.
Proof. eexists. split; [vm_compute; reflexivity|]. split; reflexivity. Qed.

(** The spec's example of nested formatting. *)
Example recursive_formatting eu uk depth st :
  render eu uk (S (S (S depth))) "**a *b* c**" st
  = (Ok [Strong [Text "a "; Emphasis [Text "b"]; Text " c"]], st).
Proof. vm_compute. reflexivity. Qed.

(** ** Where a match hands over *)

Lemma fits_weaken o o' room room' nw :
  fits o room nw ->
  (forall l, o = Some l -> exists l', o' = Some l' /\ l' + room <= l + room') ->
  fits o' room' nw.
Proof.
  intros (l & Ho & Hl) H. destruct (H l Ho) as (l' & Ho' & Hl').
  exists l'. split; [assumption|lia].
Qed.

Lemma Forall_fits_weaken o o' room room' new :
  Forall (fits o room) new ->
  (forall l, o = Some l -> exists l', o' = Some l' /\ l' + room <= l + room') ->
  Forall (fits o' room') new.
Proof.
  intros H Ho. eapply Forall_impl; [exact H|].
  intros nw Hnw. eapply fits_weaken; eauto.
Qed.

Lemma omin_l a b l :
  a = Some l -> exists l', omin a b = Some l' /\ l' <= l.
Proof.
  intros ->. destruct b as [y|]; cbn; eexists; split; try reflexivity; lia.
Qed.

Lemma omin_r a b l :
  b = Some l -> exists l', omin a b = Some l' /\ l' <= l.
Proof.
  intros ->. destruct a as [x|]; cbn; eexists; split; try reflexivity; lia.
Qed.

Lemma literal_shrinks w c c' :
  literal w c = Some c' -> length (after c') <= length (after c).
Proof.
  revert c. induction w as [|x w IH]; intros c; cbn [literal].
  - now intros [= ->].
  - destruct c as [bef [|y t]]; cbn [after before]; [discriminate|].
    destruct (Ascii.eqb x y); [|discriminate].
    intros H. apply IH in H. cbn in *. lia.
Qed.

Lemma consumed_length c c' : length (consumed c c') <= length (after c).
Proof. unfold consumed. rewrite length_firstn. lia. Qed.

Section Reach.

Variable a : re.
Hypothesis reach_a :
  forall k c g res, rmatch a k c g = Some res ->
    exists c' g', reach a c g c' g' /\ k c' g' = Some res.

(** The rounds of a repetition hand over at a position that is not before
    the start, and past one round when rounds are still due. *)
Lemma rep_loop_reach greedy lo hi k fuel n c g res :
  rep_loop (rmatch a) greedy lo hi k fuel n c g = Some res ->
  exists c' g',
    length (after c') <= length (after c)
    /\ (n < lo -> length (after c') + min_len a <= length (after c))
    /\ (exists new, g' = new ++ g
                    /\ Forall (fits (lead a) (length (after c))) new)
    /\ k c' g' = Some res.
Proof.
  revert n c g. induction fuel as [|fuel IH]; intros n c g.
  - cbn [rep_loop]. destruct (lo <=? n)%nat eqn:E; [|discriminate].
    apply Nat.leb_le in E. intros H. exists c, g.
    repeat split; [lia|lia| |assumption]. now exists [].
  - cbn [rep_loop]. intros H.
    assert (Hstop : (if (lo <=? n)%nat then k c g else None) = Some res ->
              exists c' g',
                length (after c') <= length (after c)
                /\ (n < lo -> length (after c') + min_len a
                              <= length (after c))
                /\ (exists new, g' = new ++ g
                      /\ Forall (fits (lead a) (length (after c))) new)
                /\ k c' g' = Some res).
    { destruct (lo <=? n)%nat eqn:E; [|discriminate].
      apply Nat.leb_le in E. intros Hk. exists c, g.
      repeat split; [lia|lia| |assumption]. now exists []. }
    assert (Hmore : (if below n hi then
                       rmatch a (fun c' g' =>
                         if (length (after c') <? length (after c))%nat
                         then rep_loop (rmatch a) greedy lo hi k fuel (S n)
                                       c' g'
                         else None) c g
                     else None) = Some res ->
              exists c' g',
                length (after c') <= length (after c)
                /\ (n < lo -> length (after c') + min_len a
                              <= length (after c))
                /\ (exists new, g' = new ++ g
                      /\ Forall (fits (lead a) (length (after c))) new)
                /\ k c' g' = Some res).
    { destruct (below n hi); [|discriminate]. intros Hm.
      apply reach_a in Hm as (c1 & g1 & (Hlen & new1 & -> & Hnew1) & Hk).
      destruct (length (after c1) <? length (after c))%nat; [|discriminate].
      apply IH in Hk as (c' & g' & Hlen' & _ & (new2 & -> & Hnew2) & Hk).
      exists c', (new2 ++ new1 ++ g). repeat split; [lia|lia| |assumption].
      exists (new2 ++ new1). split; [now rewrite app_assoc|].
      apply Forall_app. split; [|assumption].
      eapply Forall_fits_weaken; [exact Hnew2|].
      intros l Hl. exists l. split; [assumption|lia]. }
    destruct greedy;
      match type of H with
      | match ?x with _ => _ end = _ => destruct x as [res'|] eqn:E
      end;
      try (injection H as ->); auto.
Qed.

End Reach.

(** A match hands over where [reach] says. *)
Lemma rmatch_reach r :
  forall k c g res, rmatch r k c g = Some res ->
    exists c' g', reach r c g c' g' /\ k c' g' = Some res.
Proof.
  induction r as [|p|a IHa b IHb|a IHa b IHb|greedy lo hi a IHa|n a IHa|n
                  |positive a IHa|positive p| |];
    intros k c g res H; cbn [rmatch] in H.
  - exists c, g. split; [|assumption]. split; [cbn; lia|now exists []].
  - destruct c as [bef [|x t]]; cbn [after before] in H; [discriminate|].
    destruct (p x); [|discriminate].
    eexists _, g. split; [|exact H]. split; [cbn; lia|now exists []].
  - apply IHa in H as (c1 & g1 & (Hlen1 & new1 & -> & Hnew1) & H).
    apply IHb in H as (c' & g' & (Hlen2 & new2 & -> & Hnew2) & H).
    exists c', (new2 ++ new1 ++ g). split; [|assumption].
    split; [cbn [min_len]; lia|].
    exists (new2 ++ new1). split; [now rewrite app_assoc|].
    apply Forall_app. split.
    + eapply Forall_fits_weaken; [exact Hnew2|]. intros l Hl. cbn [lead].
      destruct (omin_r (lead a) (option_map (Nat.add (min_len a)) (lead b))
                  (min_len a + l)) as (l' & -> & Hl').
      { now rewrite Hl. }
      exists l'. split; [reflexivity|lia].
    + eapply Forall_fits_weaken; [exact Hnew1|]. intros l Hl. cbn [lead].
      destruct (omin_l (lead a) (option_map (Nat.add (min_len a)) (lead b))
                  l Hl) as (l' & -> & Hl').
      exists l'. split; [reflexivity|lia].
  - destruct (rmatch a k c g) as [res'|] eqn:E.
    + injection H as ->.
      apply IHa in E as (c' & g' & (Hlen & new & -> & Hnew) & E).
      exists c', (new ++ g). split; [|assumption].
      split; [cbn [min_len]; lia|]. exists new. split; [reflexivity|].
      eapply Forall_fits_weaken; [exact Hnew|]. intros l Hl. cbn [lead].
      destruct (omin_l (lead a) (lead b) l Hl) as (l' & -> & Hl').
      exists l'. split; [reflexivity|lia].
    + apply IHb in H as (c' & g' & (Hlen & new & -> & Hnew) & H).
      exists c', (new ++ g). split; [|assumption].
      split; [cbn [min_len]; lia|]. exists new. split; [reflexivity|].
      eapply Forall_fits_weaken; [exact Hnew|]. intros l Hl. cbn [lead].
      destruct (omin_r (lead a) (lead b) l Hl) as (l' & -> & Hl').
      exists l'. split; [reflexivity|lia].
  - apply (rep_loop_reach a IHa) in H
      as (c' & g' & Hlen & Hdue & (new & -> & Hnew) & H).
    exists c', (new ++ g). split; [|assumption].
    split; [|now exists new].
    cbn [min_len]. destruct lo as [|lo]; [lia|]. apply Hdue. lia.
  - apply IHa in H as (c' & g' & (Hlen & new & -> & Hnew) & H).
    exists c', ((n, consumed c c') :: new ++ g). split; [|assumption].
    split; [cbn [min_len]; lia|].
    exists ((n, consumed c c') :: new). split; [reflexivity|].
    constructor.
    + exists 0. split; [reflexivity|]. cbn.
      pose proof (consumed_length c c'). lia.
    + eapply Forall_fits_weaken; [exact Hnew|]. intros l Hl.
      exists 0. split; [reflexivity|lia].
  - destruct (lookup_group n g) as [w|]; [|discriminate].
    destruct (literal w c) as [c'|] eqn:L; [|discriminate].
    apply literal_shrinks in L.
    exists c', g. split; [|assumption]. split; [cbn; lia|now exists []].
  - exists c, g. split; [split; [cbn; lia|now exists []]|].
    destruct (rmatch a accept c g); destruct positive; congruence.
  - destruct (Bool.eqb (prev_is p c) positive); [|discriminate].
    exists c, g. split; [split; [cbn; lia|now exists []]|assumption].
  - destruct (xorb _ _); [|discriminate].
    exists c, g. split; [split; [cbn; lia|now exists []]|assumption].
  - destruct (at_end c); [|discriminate].
    exists c, g. split; [split; [cbn; lia|now exists []]|assumption].
Qed.

(** ** The depth that is enough *)

Lemma finite_ret {A} (a : A) : finite (ret a).
Proof. intros st. discriminate. Qed.

Lemma finite_raise {A} (e : Exn) : finite (@raise A e).
Proof. intros st. discriminate. Qed.

Lemma finite_bind {A B} (m : M A) (f : A -> M B) :
  finite m -> (forall a, finite (f a)) -> finite (bind m f).
Proof.
  intros Hm Hf st. unfold bind. specialize (Hm st).
  destruct (m st) as [[a|e|] st1]; cbn in *;
    [apply Hf | discriminate | congruence].
Qed.

Lemma finite_need {A} (e : Exn) (o : option A) : finite (need e o).
Proof. destruct o; [apply finite_ret | apply finite_raise]. Qed.

Lemma finite_bind_need {A B} (e : Exn) (o : option A) (f : A -> M B) :
  (forall a, o = Some a -> finite (f a)) -> finite (bind (need e o) f).
Proof.
  intros H. destruct o as [a|]; intros st.
  - exact (H a eq_refl st).
  - discriminate.
Qed.

Lemma finite_modify f : finite (modify f).
Proof. intros st. discriminate. Qed.

Lemma finite_get_state : finite get_state.
Proof. intros st. discriminate. Qed.

Create HintDb finite.

#[local] Hint Resolve finite_ret finite_raise finite_need finite_modify
  finite_get_state : finite.

Ltac finite_step :=
  first [ apply finite_bind; [solve [auto with finite] | intros ?]
        | solve [auto with finite] ].

Lemma length_of_chars l : String.length (Str.of_chars l) = length l.
Proof.
  unfold Str.of_chars.
  induction l as [|x l IH]; [reflexivity|]. cbn. now rewrite IH.
Qed.

Lemma length_chars s : length (Str.chars s) = String.length s.
Proof.
  unfold Str.chars.
  induction s as [|x s IH]; [reflexivity|]. cbn. now rewrite IH.
Qed.

Lemma slice_length i j s :
  String.length (Str.slice i j s) = String.length s - j - i.
Proof.
  unfold Str.slice.
  rewrite length_of_chars, length_skipn, length_firstn, length_chars. lia.
Qed.

(** The repetitions of the rule patterns consume a character per round, as
    [rep_loop] expects. *)
Lemma rule_rounds_consume name :
  rounds_consume (get_rule_pattern name) = true.
Proof. destruct name; vm_compute; reflexivity. Qed.

(** A match of a rule is never empty. *)
Lemma rule_min_len name : 1 <= min_len (get_rule_pattern name).
Proof. destruct name; vm_compute; lia. Qed.

Lemma rule_lead name :
  renders_group name = true ->
  exists l, lead (get_rule_pattern name) = Some l /\ 1 <= l.
Proof.
  destruct name; try discriminate; intros _; vm_compute; eexists;
    (split; [reflexivity|lia]).
Qed.

Lemma assoc_map_in n (g : caps) t :
  assoc n (map (fun '(i, w) => (i, Str.of_chars w)) g) = Some t ->
  exists w, In (n, w) g /\ t = Str.of_chars w.
Proof.
  induction g as [|[i w] g IH]; cbn [map assoc]; [discriminate|].
  destruct (i =? n)%nat eqn:E.
  - apply Nat.eqb_eq in E. subst i. intros [= <-]. exists w.
    split; [now left|reflexivity].
  - intros H. destruct (IH H) as (w' & Hin & ->). exists w'.
    split; [now right|reflexivity].
Qed.

(** What the scanner hands to an action is well matched. *)
Lemma match_well_matched L name start stop g :
  length (after start) <= L ->
  match_at (get_rule_pattern name) start = Some (stop, g) ->
  well_matched L name (Scanner.match_object start stop g)
  /\ length (after stop) < length (after start).
Proof.
  intros HL H. unfold match_at in H.
  apply rmatch_reach in H as (c' & g' & (Hlen & new & -> & Hnew) & [= <- <-]).
  pose proof (rule_min_len name) as Hmin.
  assert (Hg0 : String.length (group0 (Scanner.match_object start c' (new ++ [])))
                = length (after start) - length (after c')).
  { cbn [Scanner.match_object group0]. rewrite length_of_chars.
    unfold consumed. rewrite length_firstn. lia. }
  split; [|lia]. split; [rewrite Hg0; lia|].
  intros Hr t Ht. destruct (rule_lead name Hr) as (l & Hl & Hl1).
  cbn [group Scanner.match_object subgroups] in Ht.
  apply assoc_map_in in Ht as (w & Hin & ->).
  rewrite app_nil_r in Hin. rewrite List.Forall_forall in Hnew.
  destruct (Hnew _ Hin) as (l' & Hl' & Hfit).
  rewrite Hl in Hl'. injection Hl' as <-. cbn in Hfit.
  rewrite length_of_chars. lia.
Qed.

Lemma first_rule_match rules c name stop g :
  Scanner.first_rule rules c = Some (name, stop, g) ->
  match_at (get_rule_pattern name) c = Some (stop, g).
Proof.
  induction rules as [|r rules IH]; cbn [Scanner.first_rule]; [discriminate|].
  destruct (match_at (get_rule_pattern r) c) as [[c' g']|] eqn:E.
  - now intros [= <- <- <-].
  - exact IH.
Qed.

Lemma search_match rules bef aft start name stop g :
  Scanner.search rules bef aft = Some (start, (name, stop, g)) ->
  length (after start) <= length aft
  /\ match_at (get_rule_pattern name) start = Some (stop, g).
Proof.
  revert bef. induction aft as [|x aft IH]; intros bef; cbn [Scanner.search].
  - destruct (Scanner.first_rule rules (Cur bef [])) as [[[n s] g']|] eqn:E;
      [|discriminate].
    intros [= <- <- <- <-]. split; [reflexivity|].
    now apply first_rule_match with (rules := rules).
  - destruct (Scanner.first_rule rules (Cur bef (x :: aft)))
      as [[[n s] g']|] eqn:E.
    + intros [= <- <- <- <-]. split; [reflexivity|].
      now apply first_rule_match with (rules := rules).
    + intros H. apply IH in H as [Hlen H]. split; [cbn; lia|assumption].
Qed.

Section Finite.

Variable escape_url unikey : string -> string.
Variable render : string -> M (list Token).
Variable L : nat.
Hypothesis render_below :
  forall s, String.length s < L -> finite (render s).

Lemma tokenize_link_finite line link text title :
  (forall t, text = Some t -> String.length t < L) ->
  finite (tokenize_link escape_url render line link text title).
Proof.
  intros Ht. unfold tokenize_link.
  apply finite_bind; [apply finite_get_state|]. intros st.
  destruct (in_link st); [apply finite_ret|].
  apply finite_bind; [apply finite_modify|]. intros _.
  apply finite_bind.
  - destruct text as [t|].
    + intros st'. exact (render_below t (Ht t eq_refl) st').
    + intros st'. discriminate.
  - intros inner. repeat finite_step.
Qed.

Lemma starts_with_bang_finite line : finite (starts_with_bang line).
Proof. destruct line; cbn [starts_with_bang]; auto with finite. Qed.

Lemma action_finite name m :
  well_matched L name m ->
  finite (get_rule_method escape_url unikey render name m).
Proof.
  intros [[Hlo Hhi] Hgroup].
  assert (Hlink : renders_group name = true ->
            forall line link title,
              finite (tokenize_link escape_url render line link
                                    (group m 1) title)).
  { intros Hr line link title. apply tokenize_link_finite.
    now apply Hgroup. }
  destruct name; cbn [get_rule_method].
  - apply finite_ret.
  - apply finite_ret.
  - unfold parse_auto_link. repeat finite_step.
  - unfold parse_footnote. repeat finite_step.
    destruct (unresolved_footnote _ _); repeat finite_step.
  - unfold parse_std_link. repeat finite_step.
    apply finite_bind; [apply starts_with_bang_finite|].
    intros []; [apply finite_ret | now apply Hlink].
  - unfold parse_ref_link.
    apply finite_bind; [apply finite_need|]. intros key.
    apply finite_bind; [apply finite_get_state|]. intros st.
    destruct (unresolved_link _ _); [apply finite_ret|].
    apply finite_bind; [apply finite_need|]. intros [link title].
    apply finite_bind; [apply starts_with_bang_finite|].
    intros []; [apply finite_ret | now apply Hlink].
  - unfold parse_ref_link2, parse_ref_link.
    apply finite_bind; [apply finite_need|]. intros key.
    apply finite_bind; [apply finite_get_state|]. intros st.
    destruct (unresolved_link _ _); [apply finite_ret|].
    apply finite_bind; [apply finite_need|]. intros [link title].
    apply finite_bind; [apply starts_with_bang_finite|].
    intros []; [apply finite_ret | now apply Hlink].
  - unfold parse_strong.
    apply finite_bind; [|intros; apply finite_ret].
    apply render_below. rewrite slice_length. lia.
  - unfold parse_emphasis.
    apply finite_bind; [|intros; apply finite_ret].
    apply render_below. rewrite slice_length. lia.
  - unfold parse_codespan. repeat finite_step.
  - unfold parse_strikethrough. apply finite_bind_need. intros t Ht.
    apply finite_bind; [|intros; apply finite_ret].
    apply render_below. now apply Hgroup.
  - apply finite_ret.
Qed.

Lemma hole_finite l : finite (hole l).
Proof. destruct l; cbn [hole]; unfold parse_text; repeat finite_step. Qed.

Lemma scan_finite steps rules c :
  length (after c) < steps -> length (after c) <= L ->
  finite (scan escape_url unikey render steps rules c).
Proof.
  revert c. induction steps as [|steps IH]; intros c Hsteps HL; [lia|].
  cbn [scan].
  destruct (Scanner.search rules (before c) (after c))
    as [[start [[name stop] g]]|] eqn:E; [|apply hole_finite].
  apply search_match in E as [Hstart Hmatch].
  destruct (match_well_matched L name start stop g) as [Hwell Hstop];
    [lia|assumption|].
  apply finite_bind; [apply hole_finite|]. intros gap.
  apply finite_bind; [now apply action_finite|]. intros tok.
  apply finite_bind; [apply IH; lia|]. intros rest. apply finite_ret.
Qed.

End Finite.

(** A depth above the length of the text is enough: [render] returns or
    raises. *)
Theorem render_finite escape_url unikey depth s :
  String.length s < depth -> finite (render escape_url unikey depth s).
Proof.
  revert s. induction depth as [|depth IH]; intros s Hs; [lia|].
  cbn [render]. unfold parse.
  apply scan_finite with (L := String.length s).
  - intros t Ht. apply IH. lia.
  - cbn [after]. rewrite length_chars. lia.
  - cbn [after]. rewrite length_chars. lia.
Qed.

(** ** What a match is *)

Lemma advance_nil c : advance [] c = c.
Proof. now destruct c. Qed.

Lemma advance_app w1 w2 c : advance (w1 ++ w2) c = advance w2 (advance w1 c).
Proof.
  unfold advance. cbn [before after].
  rewrite rev_app_distr, <- app_assoc, length_app, Nat.add_comm.
  now rewrite skipn_skipn.
Qed.

Lemma after_advance w c rest :
  after c = w ++ rest -> after (advance w c) = rest.
Proof.
  intros H. unfold advance. cbn [after]. rewrite H.
  now rewrite skipn_app, skipn_all, Nat.sub_diag.
Qed.

Lemma ahead_app w1 w2 c :
  ahead w1 c -> ahead w2 (advance w1 c) -> ahead (w1 ++ w2) c.
Proof.
  intros [r1 H1] [r2 H2]. rewrite (after_advance _ _ _ H1) in H2. subst r1.
  exists r2. now rewrite <- app_assoc.
Qed.

Lemma consumed_advance w c : ahead w c -> consumed c (advance w c) = w.
Proof.
  intros [rest H]. unfold consumed. rewrite (after_advance _ _ _ H), H.
  rewrite length_app.
  replace (length w + length rest - length rest) with (length w) by lia.
  now rewrite firstn_app, firstn_all, Nat.sub_diag, app_nil_r.
Qed.

Lemma literal_advance w c c' :
  literal w c = Some c' -> ahead w c /\ c' = advance w c.
Proof.
  revert c. induction w as [|x w IH]; intros c; cbn [literal].
  - intros [= <-]. split; [now exists (after c)|]. now rewrite advance_nil.
  - destruct c as [bef [|y t]]; cbn [after before]; [discriminate|].
    destruct (Ascii.eqb x y) eqn:E; [|discriminate].
    apply Ascii.eqb_eq in E. subst y. intros H.
    apply IH in H as [[rest Hr] ->]. cbn [after] in Hr. subst t. split.
    + now exists rest.
    + unfold advance. cbn [before after rev length skipn].
      now rewrite <- app_assoc.
Qed.

Section Spans.

Variable a : re.
Hypothesis spans_a :
  forall k c g res, rmatch a k c g = Some res ->
    exists w new, ahead w c /\ spans a c g w new
                  /\ k (advance w c) (new ++ g) = Some res.

Lemma rep_loop_spans greedy lo hi k fuel n c g res :
  rep_loop (rmatch a) greedy lo hi k fuel n c g = Some res ->
  exists rounds,
    let w := concat (map fst rounds) in
    let new := concat (rev (map snd rounds)) in
    ahead w c /\ chain (spans a) c g rounds
    /\ lo <= n + length rounds
    /\ (forall h, hi = Some h -> rounds <> [] -> n + length rounds <= h)
    /\ k (advance w c) (new ++ g) = Some res.
Proof.
  revert n c g. induction fuel as [|fuel IH]; intros n c g H;
    cbn [rep_loop] in H.
  - destruct (lo <=? n)%nat eqn:E; [|discriminate]. apply Nat.leb_le in E.
    exists []. cbn. rewrite advance_nil.
    repeat split; [now exists (after c)|lia|congruence|assumption].
  - assert (Hstop : (if (lo <=? n)%nat then k c g else None) = Some res ->
              exists rounds,
                let w := concat (map fst rounds) in
                let new := concat (rev (map snd rounds)) in
                ahead w c /\ chain (spans a) c g rounds
                /\ lo <= n + length rounds
                /\ (forall h, hi = Some h -> rounds <> [] ->
                              n + length rounds <= h)
                /\ k (advance w c) (new ++ g) = Some res).
    { destruct (lo <=? n)%nat eqn:E; [|discriminate]. apply Nat.leb_le in E.
      intros Hk. exists []. cbn. rewrite advance_nil.
      repeat split; [now exists (after c)|lia|congruence|assumption]. }
    assert (Hmore : (if below n hi then
                       rmatch a (fun c' g' =>
                         if (length (after c') <? length (after c))%nat
                         then rep_loop (rmatch a) greedy lo hi k fuel (S n)
                                       c' g'
                         else None) c g
                     else None) = Some res ->
              exists rounds,
                let w := concat (map fst rounds) in
                let new := concat (rev (map snd rounds)) in
                ahead w c /\ chain (spans a) c g rounds
                /\ lo <= n + length rounds
                /\ (forall h, hi = Some h -> rounds <> [] ->
                              n + length rounds <= h)
                /\ k (advance w c) (new ++ g) = Some res).
    { destruct (below n hi) eqn:B; [|discriminate]. intros Hm.
      apply spans_a in Hm as (w1 & n1 & Hw1 & Hs1 & Hk).
      destruct (length (after (advance w1 c)) <? length (after c))%nat eqn:P;
        [|discriminate].
      apply Nat.ltb_lt in P.
      assert (Hne : w1 <> []).
      { intros ->. rewrite advance_nil in P. lia. }
      apply IH in Hk as (rounds & Hw & Hc & Hlo & Hhi & Hk).
      exists ((w1, n1) :: rounds). cbn [map fst snd concat rev length].
      rewrite concat_app. cbn [concat]. rewrite app_nil_r.
      repeat split.
      - now apply ahead_app.
      - assumption.
      - assumption.
      - assumption.
      - lia.
      - intros h Hh _. destruct rounds as [|r rounds].
        + subst hi. cbn in B. apply Nat.ltb_lt in B. cbn. lia.
        + specialize (Hhi h Hh ltac:(discriminate)). cbn in *. lia.
      - now rewrite advance_app, <- app_assoc. }
    destruct greedy;
      match type of H with
      | match ?x with _ => _ end = _ => destruct x as [res'|] eqn:E
      end;
      try (injection H as ->); auto.
Qed.

End Spans.

(** Every match the matcher finds is one that [spans] describes. *)
Lemma rmatch_spans r :
  forall k c g res, rmatch r k c g = Some res ->
    exists w new, ahead w c /\ spans r c g w new
                  /\ k (advance w c) (new ++ g) = Some res.
Proof.
  induction r as [|p|a IHa b IHb|a IHa b IHb|greedy lo hi a IHa|n a IHa|n
                  |positive a IHa|positive p| |];
    intros k c g res H; cbn [rmatch] in H.
  - exists [], []. rewrite advance_nil.
    repeat split; [now exists (after c)|assumption].
  - destruct c as [bef [|x t]]; cbn [after before] in H; [discriminate|].
    destruct (p x) eqn:Px; [|discriminate].
    exists [x], []. repeat split; [now exists t| |exact H].
    exists x. now repeat split.
  - apply IHa in H as (w1 & n1 & Hw1 & Hs1 & H).
    apply IHb in H as (w2 & n2 & Hw2 & Hs2 & H).
    exists (w1 ++ w2), (n2 ++ n1). repeat split.
    + now apply ahead_app.
    + now exists w1, w2, n1, n2.
    + now rewrite advance_app, <- app_assoc.
  - destruct (rmatch a k c g) as [res'|] eqn:E.
    + injection H as ->. apply IHa in E as (w & new & Hw & Hs & E).
      exists w, new. repeat split; [assumption|now left|assumption].
    + apply IHb in H as (w & new & Hw & Hs & H).
      exists w, new. repeat split; [assumption|now right|assumption].
  - apply (rep_loop_spans a IHa) in H as (rounds & Hw & Hc & Hlo & Hhi & H).
    eexists _, _. repeat split; [exact Hw| |exact H].
    exists rounds. repeat split; [lia| |assumption].
    intros h Hh. destruct rounds as [|r rounds]; [cbn; lia|].
    exact (Hhi h Hh ltac:(discriminate)).
  - apply IHa in H as (w & n1 & Hw & Hs & H).
    rewrite (consumed_advance _ _ Hw) in H.
    exists w, ((n, w) :: n1). repeat split; [assumption| |exact H].
    now exists n1.
  - destruct (lookup_group n g) as [w|] eqn:G; [|discriminate].
    destruct (literal w c) as [c'|] eqn:L; [|discriminate].
    apply literal_advance in L as [Hw ->].
    exists w, []. now repeat split.
  - exists [], []. rewrite advance_nil. cbn [spans app].
    destruct (rmatch a accept c g); destruct positive; try discriminate;
      (repeat split; [now exists (after c)|assumption]).
  - destruct (Bool.eqb (prev_is p c) positive) eqn:E; [|discriminate].
    apply eqb_prop in E.
    exists [], []. rewrite advance_nil.
    repeat split; [now exists (after c)|assumption|assumption].
  - destruct (xorb _ _) eqn:E; [|discriminate].
    exists [], []. rewrite advance_nil.
    repeat split; [now exists (after c)|assumption|assumption].
  - destruct (at_end c) eqn:E; [|discriminate].
    exists [], []. rewrite advance_nil.
    repeat split; [now exists (after c)|assumption|assumption].
Qed.

(** A match of a pattern at a position, as [spans] describes it. *)
Lemma match_at_spans r c stop g :
  match_at r c = Some (stop, g) ->
  exists w, ahead w c /\ spans r c [] w g /\ stop = advance w c
            /\ consumed c stop = w.
Proof.
  intros H. apply rmatch_spans in H as (w & new & Hw & Hs & [= <- <-]).
  rewrite app_nil_r. exists w. repeat split; try assumption.
  now apply consumed_advance.
Qed.

(** *** Checks on patterns *)

Lemma in_all_ascii x : In x all_ascii.
Proof.
  unfold all_ascii. apply in_map_iff. exists (nat_of_ascii x). split.
  - apply ascii_nat_embedding.
  - apply in_seq. pose proof (nat_ascii_bounded x). lia.
Qed.

Lemma sub_spec q p x : sub q p = true -> q x = true -> p x = true.
Proof.
  unfold sub. rewrite forallb_forall. intros H Hq.
  specialize (H x (in_all_ascii x)). now rewrite Hq in H.
Qed.

(** A fact of every round is a fact of the repetition. *)
Lemma chain_Forall (P : cursor -> caps -> list ascii -> caps -> Prop)
      (Q : list ascii -> caps -> Prop) :
  (forall c g w new, P c g w new -> Q w new) ->
  forall rounds c g, chain P c g rounds ->
    Forall (fun r => Q r.1 r.2) rounds.
Proof.
  intros HPQ. induction rounds as [|[w new] rounds IH]; intros c g H.
  - constructor.
  - destruct H as (_ & Hp & Hc). constructor; [now apply (HPQ c g)|].
    now apply (IH _ _ Hc).
Qed.

Lemma must_have_spans p r :
  must_have p r = true ->
  forall c g w new, spans r c g w new -> Exists (fun x => p x = true) w.
Proof.
  induction r as [|q|a IHa b IHb|a IHa b IHb|greedy lo hi a IHa|n a IHa|n
                  |positive a IHa|positive q| |];
    cbn [must_have]; try discriminate; intros Hm c g w new Hs;
    cbn [spans] in Hs.
  - destruct Hs as (x & -> & Hx & _). constructor.
    now apply (sub_spec q p).
  - destruct Hs as (w1 & w2 & n1 & n2 & -> & _ & H1 & H2).
    apply Exists_app. apply orb_true_iff in Hm as [Hm|Hm].
    + left. now apply (IHa Hm _ _ _ _ H1).
    + right. now apply (IHb Hm _ _ _ _ H2).
  - apply andb_true_iff in Hm as [Ha Hb].
    destruct Hs as [Hs|Hs]; [now apply (IHa Ha _ _ _ _ Hs)|].
    now apply (IHb Hb _ _ _ _ Hs).
  - apply andb_true_iff in Hm as [Hlo Ha]. apply Nat.leb_le in Hlo.
    destruct Hs as (rounds & -> & _ & Hlen & _ & Hc).
    destruct rounds as [|[w1 n1] rounds]; [cbn in Hlen; lia|].
    destruct Hc as (_ & H1 & _). cbn [map fst concat].
    apply Exists_app. left. now apply (IHa Ha _ _ _ _ H1).
  - destruct Hs as (n1 & _ & Hs). now apply (IHa Hm _ _ _ _ Hs).
Qed.

Lemma captures_spans n r :
  captures n r = true ->
  forall c g w new, spans r c g w new -> exists v, In (n, v) new.
Proof.
  induction r as [|q|a IHa b IHb|a IHa b IHb|greedy lo hi a IHa|m a IHa|m
                  |positive a IHa|positive q| |];
    cbn [captures]; try discriminate; intros Hm c g w new Hs;
    cbn [spans] in Hs.
  - destruct Hs as (w1 & w2 & n1 & n2 & _ & -> & H1 & H2).
    apply orb_true_iff in Hm as [Hm|Hm].
    + destruct (IHa Hm _ _ _ _ H1) as [v Hv]. exists v.
      apply in_or_app. now right.
    + destruct (IHb Hm _ _ _ _ H2) as [v Hv]. exists v.
      apply in_or_app. now left.
  - apply andb_true_iff in Hm as [Ha Hb].
    destruct Hs as [Hs|Hs]; [now apply (IHa Ha _ _ _ _ Hs)|].
    now apply (IHb Hb _ _ _ _ Hs).
  - apply andb_true_iff in Hm as [Hlo Ha]. apply Nat.leb_le in Hlo.
    destruct Hs as (rounds & _ & -> & Hlen & _ & Hc).
    destruct rounds as [|[w1 n1] rounds]; [cbn in Hlen; lia|].
    destruct Hc as (_ & H1 & _).
    destruct (IHa Ha _ _ _ _ H1) as [v Hv]. exists v.
    cbn [map snd rev]. rewrite concat_app. cbn [concat].
    apply in_or_app. right. apply in_or_app. now left.
  - destruct Hs as (n1 & -> & Hs).
    destruct (m =? n)%nat eqn:E.
    + apply Nat.eqb_eq in E. subst m. exists w. now left.
    + destruct (IHa Hm _ _ _ _ Hs) as [v Hv]. exists v. now right.
Qed.

Lemma all_in_spans p r :
  all_in p r = true ->
  forall c g w new, spans r c g w new -> Forall (fun x => p x = true) w.
Proof.
  induction r as [|q|a IHa b IHb|a IHa b IHb|greedy lo hi a IHa|n a IHa|n
                  |positive a IHa|positive q| |];
    cbn [all_in]; try discriminate; intros Hm c g w new Hs;
    cbn [spans] in Hs;
    try (destruct Hs as (-> & _); constructor).
  - destruct Hs as (x & -> & Hx & _). repeat constructor.
    now apply (sub_spec q p).
  - apply andb_true_iff in Hm as [Ha Hb].
    destruct Hs as (w1 & w2 & n1 & n2 & -> & _ & H1 & H2).
    apply Forall_app. split; [now apply (IHa Ha _ _ _ _ H1)|].
    now apply (IHb Hb _ _ _ _ H2).
  - apply andb_true_iff in Hm as [Ha Hb].
    destruct Hs as [Hs|Hs]; [now apply (IHa Ha _ _ _ _ Hs)|].
    now apply (IHb Hb _ _ _ _ Hs).
  - destruct Hs as (rounds & -> & _ & _ & _ & Hc).
    apply (chain_Forall _ (fun w _ => Forall (fun x => p x = true) w))
      in Hc; [|intros c' g' w' new'; apply (IHa Hm)].
    clear -Hc. induction Hc as [|[w1 n1] rounds H1 _ IH]; [constructor|].
    cbn [map fst concat]. apply Forall_app. now split.
  - destruct Hs as (n1 & _ & Hs). now apply (IHa Hm _ _ _ _ Hs).
Qed.

Lemma in_concat_rev_map {A B} (f : A -> list B) (l : list A) (y : B) :
  In y (concat (rev (map f l))) -> exists x, In x l /\ In y (f x).
Proof.
  rewrite <- map_rev. intros H. apply in_concat in H as (ys & Hys & Hy).
  apply in_map_iff in Hys as (x & <- & Hx). exists x.
  split; [now apply in_rev|assumption].
Qed.

(** What a group has captured is a match of what it encloses. *)
Lemma bodies_spans n v r :
  forall c g w new, spans r c g w new -> In (n, v) new ->
    exists a c' g' n', In a (bodies n r) /\ spans a c' g' v n'.
Proof.
  induction r as [|q|a IHa b IHb|a IHa b IHb|greedy lo hi a IHa|m a IHa|m
                  |positive a IHa|positive q| |];
    intros c g w new Hs Hin; cbn [spans] in Hs; cbn [bodies];
    try (destruct Hs as (_ & -> & _); now destruct Hin);
    try (destruct Hs as (_ & ->); now destruct Hin).
  - destruct Hs as (x & _ & _ & ->). now destruct Hin.
  - destruct Hs as (w1 & w2 & n1 & n2 & _ & -> & H1 & H2).
    apply in_app_or in Hin as [Hin|Hin].
    + destruct (IHb _ _ _ _ H2 Hin) as (a' & c' & g' & n' & Ha & Hs).
      exists a', c', g', n'. split; [apply in_or_app; now right|assumption].
    + destruct (IHa _ _ _ _ H1 Hin) as (a' & c' & g' & n' & Ha & Hs).
      exists a', c', g', n'. split; [apply in_or_app; now left|assumption].
  - destruct Hs as [Hs|Hs].
    + destruct (IHa _ _ _ _ Hs Hin) as (a' & c' & g' & n' & Ha & Hs').
      exists a', c', g', n'. split; [apply in_or_app; now left|assumption].
    + destruct (IHb _ _ _ _ Hs Hin) as (a' & c' & g' & n' & Ha & Hs').
      exists a', c', g', n'. split; [apply in_or_app; now right|assumption].
  - destruct Hs as (rounds & _ & -> & _ & _ & Hc).
    apply in_concat_rev_map in Hin as ([w1 n1] & Hr & Hin). cbn in Hin.
    apply (chain_Forall _ (fun _ n1 => In (n, v) n1 ->
             exists a' c' g' n', In a' (bodies n a) /\ spans a' c' g' v n'))
      in Hc; [|intros c' g' w' new'; apply IHa].
    rewrite List.Forall_forall in Hc. exact (Hc _ Hr Hin).
  - destruct Hs as (n1 & -> & Hs). destruct Hin as [[= -> ->]|Hin].
    + rewrite Nat.eqb_refl. exists a, c, g, n1. split; [now left|assumption].
    + destruct (IHa _ _ _ _ Hs Hin) as (a' & c' & g' & n' & Ha & Hs').
      exists a', c', g', n'. split; [apply in_or_app; now right|assumption].
Qed.

Lemma spans_min_len r :
  forall c g w new, spans r c g w new -> min_len r <= length w.
Proof.
  induction r as [|q|a IHa b IHb|a IHa b IHb|greedy lo hi a IHa|n a IHa|n
                  |positive a IHa|positive q| |];
    intros c g w new Hs; cbn [spans] in Hs; cbn [min_len]; try lia.
  - destruct Hs as (x & -> & _). cbn. lia.
  - destruct Hs as (w1 & w2 & n1 & n2 & -> & _ & H1 & H2).
    apply IHa in H1. apply IHb in H2. rewrite length_app. lia.
  - destruct Hs as [Hs|Hs]; [apply IHa in Hs|apply IHb in Hs]; lia.
  - destruct lo as [|lo]; [lia|].
    destruct Hs as (rounds & -> & _ & Hlen & _ & Hc).
    destruct rounds as [|[w1 n1] rounds]; [cbn in Hlen; lia|].
    destruct Hc as (_ & H1 & _). apply IHa in H1.
    cbn [map fst concat]. rewrite length_app. lia.
  - destruct Hs as (n1 & _ & Hs). now apply IHa in Hs.
Qed.

Lemma Forall_forallb {A} (p : A -> bool) l :
  Forall (fun x => p x = true) l -> forallb p l = true.
Proof.
  intros H. apply forallb_forall. now apply List.Forall_forall.
Qed.

(** *** Runs of a character class, and the ends of a match *)

Lemma rmatch_Grp n a k c g :
  rmatch (Grp n a) k c g
  = rmatch a (fun c' g' => k c' ((n, consumed c c') :: g')) c g.
Proof. reflexivity. Qed.

Lemma consumed_app bef bef' w rest :
  consumed (Cur bef (w ++ rest)) (Cur bef' rest) = w.
Proof.
  unfold consumed. cbn [after]. rewrite length_app.
  replace (length w + length rest - length rest) with (length w) by lia.
  now rewrite firstn_app, firstn_all, Nat.sub_diag, app_nil_r.
Qed.

Lemma advance_ahead w bef rest :
  advance w (Cur bef (w ++ rest)) = Cur (rev w ++ bef) rest.
Proof.
  unfold advance. cbn [before after].
  now rewrite skipn_app, skipn_all, Nat.sub_diag.
Qed.

(** A greedy run over the characters of a class, up to a character that is
    not of the class, hands over there when the continuation takes it. *)
Lemma greedy_run_full p lo k n bef run rest g res :
  forallb p run = true ->
  match rest with x :: _ => p x = false | [] => True end ->
  lo <= n + length run ->
  k (Cur (rev run ++ bef) rest) g = Some res ->
  greedy_run p lo k n bef (run ++ rest) g = Some res.
Proof.
  revert n bef. induction run as [|x run IH]; intros n bef Hp Hr Hlo Hk.
  - cbn [app rev length] in *.
    assert (E : (lo <=? n)%nat = true) by (apply Nat.leb_le; lia).
    destruct rest as [|y t]; cbn [greedy_run]; [now rewrite E|].
    now rewrite Hr, E.
  - cbn [forallb] in Hp. apply andb_true_iff in Hp as [Hx Hp].
    cbn [app greedy_run]. rewrite Hx.
    rewrite (IH (S n) (x :: bef)); try assumption; [reflexivity| |].
    + cbn [length] in Hlo. lia.
    + cbn [rev] in Hk. now rewrite <- app_assoc in Hk.
Qed.

(** The rounds of a repeated character class. *)
Lemma class_rounds p c g rounds :
  chain (spans (Chr p)) c g rounds ->
  forallb p (concat (map fst rounds)) = true
  /\ concat (rev (map snd rounds)) = []
  /\ length (concat (map fst rounds)) = length rounds.
Proof.
  revert c g. induction rounds as [|[w new] rounds IH]; intros c g H.
  - now cbn.
  - destruct H as (_ & (x & -> & Hx & ->) & H).
    destruct (IH _ _ H) as (H1 & H2 & H3).
    cbn [map fst snd concat rev app forallb length].
    rewrite Hx, H1, concat_app, H2, H3. now cbn.
Qed.

Lemma ends_with {A} (x : A) l r : rev l = x :: r -> l = rev r ++ [x].
Proof. intros H. rewrite <- (rev_involutive l), H. reflexivity. Qed.

Lemma next_not p c g x t :
  succeeds (rmatch (Chr p) accept c g) = false ->
  after c = x :: t -> p x = false.
Proof.
  intros H E. destruct c as [bef aft]. cbn [after] in E. subst aft.
  rewrite rmatch_Chr in H. now destruct (p x).
Qed.

Lemma prev_not p w c y t :
  prev_is p (advance w c) = false -> w = t ++ [y] -> p y = false.
Proof.
  intros H ->. unfold prev_is, advance in H. cbn [before] in H.
  now rewrite rev_app_distr in H.
Qed.

Lemma not_nil_last {A} (l : list A) :
  l <> [] -> exists t y, l = t ++ [y].
Proof.
  intros H. destruct (exists_last H) as (t & y & ->). now exists t, y.
Qed.

(** Takes apart what [spans] says of a pattern that is written out. *)
Ltac spans_inv :=
  repeat match goal with
  | H : _ \/ _ |- _ => destruct H as [H|H]
  | H : exists _, _ |- _ => destruct H as [? H]
  | H : _ /\ _ |- _ => destruct H as [? H]
  end.

Lemma slice_framed a mid b :
  Str.slice (length a) (length b) (Str.of_chars (a ++ mid ++ b))
  = Str.of_chars mid.
Proof.
  unfold Str.slice. rewrite length_of_chars, chars_of_chars. f_equal.
  rewrite !length_app.
  replace (length a + (length mid + length b) - length b)
    with (length a + length mid) by lia.
  rewrite app_assoc, firstn_app, length_app.
  replace (length a + length mid - (length a + length mid)) with 0 by lia.
  rewrite firstn_all2 by (rewrite length_app; lia).
  cbn [firstn]. rewrite app_nil_r.
  rewrite skipn_app, skipn_all, Nat.sub_diag. reflexivity.
Qed.

Lemma chr_true a x : chr a x = true -> x = a.
Proof. unfold chr. apply Ascii.eqb_eq. Qed.

Lemma chr_false a x : chr a x = false -> x <> a.
Proof. unfold chr. apply Ascii.eqb_neq. Qed.

Lemma cnot_true p x : cnot p x = true -> p x = false.
Proof. unfold cnot. apply negb_true_iff. Qed.

Lemma cor_false p q x : (p ||| q) x = false -> p x = false /\ q x = false.
Proof. unfold cor. apply orb_false_elim. Qed.

(** Reads the facts on single characters off their classes. *)
Ltac classes :=
  repeat match goal with
  | H : chr _ _ = true |- _ => apply chr_true in H; subst
  | H : cnot _ _ = true |- _ => apply cnot_true in H
  | H : (_ ||| _) _ = false |- _ => apply cor_false in H as [? ?]
  | H : chr _ _ = false |- _ => apply chr_false in H
  end.

(** ** What the rules match

    The shape of the matches of a rule, read off its pattern, and what the
    action of the rule takes of the match. *)

(** X1: FOOTNOTE matches at a position exactly when the text there is
    [[^], a key of one or more characters other than the closing bracket,
    and the closing bracket; the match ends after that bracket, and group 1
    is the key. *)
Theorem footnote_rule bef aft stop g :
  match_at Patterns.FOOTNOTE (Cur bef aft) = Some (stop, g)
  <-> exists key rest,
        key <> [] /\ forallb (cnot (chr "]")) key = true
        /\ aft = "["%char :: "^"%char :: key ++ "]"%char :: rest
        /\ stop = Cur ("]"%char :: rev key ++ ["^"%char; "["%char] ++ bef) rest
        /\ g = [(1, key)].
Proof.
  split.
  - intros H. apply match_at_spans in H as (w & [rest Hw] & Hs & -> & _).
    cbn [after] in Hw.
    cbv beta iota zeta delta [Patterns.FOOTNOTE seqs plus lit
                              list_ascii_of_string List.map] in Hs.
    cbn [spans] in Hs. spans_inv; subst; cbn [app] in *; classes.
    match goal with
    | H : chain _ _ _ ?rounds |- _ =>
        apply class_rounds in H as (Hp & Hn & Hl);
        exists (concat (map fst rounds)), rest
    end.
    unfold caps in *. rewrite Hn. repeat split.
    + intros E. rewrite E in Hl. cbn in Hl. lia.
    + assumption.
    + now rewrite <- app_assoc.
    + etransitivity; [exact (advance_ahead _ _ _)|].
      cbn [rev]. rewrite rev_app_distr. cbn [rev app].
      now rewrite <- !app_assoc.
  - intros (key & rest & Hne & Hp & -> & -> & ->).
    unfold match_at, Patterns.FOOTNOTE, seqs, lit.
    cbn [list_ascii_of_string List.map seqs].
    rewrite !rmatch_Seq, !rmatch_Chr.
    change (chr "[" "["%char) with true. change (chr "^" "^"%char) with true.
    cbv iota. rewrite rmatch_Seq, rmatch_Grp. unfold plus.
    rewrite rmatch_class. apply greedy_run_full.
    + exact Hp.
    + reflexivity.
    + destruct key; [now destruct Hne|cbn; lia].
    + rewrite rmatch_Chr. change (chr "]" "]"%char) with true. cbv iota.
      unfold accept. now rewrite consumed_app.
Qed.

(** The shape of a match of EMPHASIS. *)
Lemma emphasis_shape c g w new :
  spans Patterns.EMPHASIS c g w new ->
  exists d x rest,
    (d = "*"%char \/ d = "_"%char)
    /\ re_space x = false /\ x <> d /\ w = d :: x :: rest ++ [d].
Proof.
  intros Hs.
  cbv beta iota zeta delta [Patterns.EMPHASIS alts seqs opt star_lazy] in Hs.
  cbn [spans] in Hs.
  destruct Hs as [Hs|[Hs|[Hs|Hs]]]; spans_inv; subst; cbn [app]; classes.
  - eexists _, _, _. repeat split; [now right|assumption|assumption].
  - eexists _, _, _. repeat split; [now left|assumption|assumption].
  - match goal with
    | |- context [?a :: ?b :: ?l ++ [?y; ?z]] => exists a, b, (l ++ [y])
    end.
    rewrite <- app_assoc. repeat split; [now right|assumption|assumption].
  - match goal with
    | |- context [?a :: ?b :: ?l ++ [?y; ?z]] => exists a, b, (l ++ [y])
    end.
    rewrite <- app_assoc. repeat split; [now left|assumption|].
    now intros ->.
Qed.

(** X2: a match of EMPHASIS is a delimiter, [*] or [_], a character that
    is neither whitespace of ASCII (tab, newline, vertical tab, form feed,
    carriage return, space) nor the delimiter, some more characters, and
    the same delimiter again; [parse_emphasis] renders what stands between
    the two delimiters, and nothing else of the match. *)
Theorem emphasis_inner_text rec c stop g :
  match_at Patterns.EMPHASIS c = Some (stop, g) ->
  exists d x rest,
    (d = "*"%char \/ d = "_"%char)
    /\ ~ In (code x) [9; 10; 11; 12; 13; 32] /\ x <> d
    /\ consumed c stop = d :: x :: rest ++ [d]
    /\ parse_emphasis rec (Scanner.match_object c stop g)
       = (let* children := rec (Str.of_chars (x :: rest)) in
          ret (Emphasis children)).
Proof.
  intros H. apply match_at_spans in H as (w & _ & Hs & _ & Hc).
  apply emphasis_shape in Hs as (d & x & rest & Hd & Hx & Hxd & ->).
  apply re_space_not_codes in Hx.
  exists d, x, rest. repeat split; try assumption.
  unfold parse_emphasis. cbn [Scanner.match_object group0]. rewrite Hc.
  pose proof (slice_framed [d] (x :: rest) [d]) as E.
  cbn [length app] in E. now rewrite E.
Qed.

(** An emphasis after a letter beyond ASCII, which is no word character
    for [\b], and with a no-break space, which is no whitespace for [\s],
    as its first character. *)
Lemma emphasis_inner_text_witness :
  let c := Cur [eacute] ("_"%char :: nbsp :: Str.chars "a_") in
  let stop := Cur (rev ("_"%char :: nbsp :: Str.chars "a_") ++ [eacute]) [] in
  match_at Patterns.EMPHASIS c = Some (stop, [])
  /\ parse_emphasis (render as_given as_given 1)
       (Scanner.match_object c stop []) bare
     = (Ok (Emphasis [Text (Str.of_chars [nbsp; "a"%char])]), bare)
  /\ exists d x rest,
       (d = "*"%char \/ d = "_"%char)
       /\ ~ In (code x) [9; 10; 11; 12; 13; 32] /\ x <> d
       /\ consumed c stop = d :: x :: rest ++ [d]
       /\ parse_emphasis (render as_given as_given 1)
            (Scanner.match_object c stop [])
          = (let* children := render as_given as_given 1
                                (Str.of_chars (x :: rest)) in
             ret (Emphasis children)).
Proof.
  split; [vm_compute; reflexivity|]. split; [vm_compute; reflexivity|].
  apply (emphasis_inner_text (render as_given as_given 1)
           (Cur [eacute] ("_"%char :: nbsp :: Str.chars "a_"))).
  vm_compute. reflexivity.
Defined.

(** The shape of a match of STRONG. *)
Lemma strong_shape c g w new :
  spans Patterns.STRONG c g w new ->
  exists d x rest,
    (d = "*"%char \/ d = "_"%char)
    /\ re_space x = false /\ w = d :: d :: x :: rest ++ [d; d].
Proof.
  intros Hs.
  cbv beta iota zeta delta [Patterns.STRONG alts seqs star_lazy lit
                            list_ascii_of_string List.map] in Hs.
  cbn [spans] in Hs.
  destruct Hs as [Hs|[Hs|[Hs|Hs]]]; spans_inv; subst; cbn [app]; classes.
  - exists "_"%char. eexists _, []. repeat split; [now right|assumption].
  - exists "*"%char. eexists _, []. repeat split; [now left|assumption].
  - match goal with
    | |- context [?a :: ?a :: ?b :: ?l ++ [?y; ?z; ?z']] =>
        exists a, b, (l ++ [y])
    end.
    rewrite <- app_assoc. repeat split; [now right|assumption].
  - match goal with
    | |- context [?a :: ?a :: ?b :: ?l ++ [?y; ?z; ?z']] =>
        exists a, b, (l ++ [y])
    end.
    rewrite <- app_assoc. repeat split; [now left|assumption].
Qed.

(** X3: a match of STRONG is a doubled delimiter, [**] or [__], a character
    that is no whitespace of ASCII (tab, newline, vertical tab, form feed,
    carriage return, space), some more characters, and the same doubled
    delimiter; [parse_strong] renders what stands between the two. *)
Theorem strong_inner_text rec c stop g :
  match_at Patterns.STRONG c = Some (stop, g) ->
  exists d x rest,
    (d = "*"%char \/ d = "_"%char)
    /\ ~ In (code x) [9; 10; 11; 12; 13; 32]
    /\ consumed c stop = d :: d :: x :: rest ++ [d; d]
    /\ parse_strong rec (Scanner.match_object c stop g)
       = (let* children := rec (Str.of_chars (x :: rest)) in
          ret (Strong children)).
Proof.
  intros H. apply match_at_spans in H as (w & _ & Hs & _ & Hc).
  apply strong_shape in Hs as (d & x & rest & Hd & Hx & ->).
  apply re_space_not_codes in Hx.
  exists d, x, rest. repeat split; try assumption.
  unfold parse_strong. cbn [Scanner.match_object group0]. rewrite Hc.
  pose proof (slice_framed [d; d] (x :: rest) [d; d]) as E.
  cbn [length app] in E. now rewrite E.
Qed.

(** A strong emphasis with a no-break space as its first character. *)
Lemma strong_inner_text_witness :
  let line := Str.chars "**" ++ nbsp :: Str.chars "a**" in
  let c := Cur [] line in
  let stop := Cur (rev line) [] in
  match_at Patterns.STRONG c = Some (stop, [])
  /\ parse_strong (render as_given as_given 1)
       (Scanner.match_object c stop []) bare
     = (Ok (Strong [Text (Str.of_chars [nbsp; "a"%char])]), bare)
  /\ exists d x rest,
       (d = "*"%char \/ d = "_"%char)
       /\ ~ In (code x) [9; 10; 11; 12; 13; 32]
       /\ consumed c stop = d :: d :: x :: rest ++ [d; d]
       /\ parse_strong (render as_given as_given 1)
            (Scanner.match_object c stop [])
          = (let* children := render as_given as_given 1
                                (Str.of_chars (x :: rest)) in
             ret (Strong children)).
Proof.
  split; [vm_compute; reflexivity|]. split; [vm_compute; reflexivity|].
  apply (strong_inner_text (render as_given as_given 1)
           (Cur [] (Str.chars "**" ++ nbsp :: Str.chars "a**"))).
  vm_compute. reflexivity.
Defined.

(** The shape of a match of STRIKETHROUGH. *)
Lemma strikethrough_shape c g w new :
  spans Patterns.STRIKETHROUGH c g w new -> ahead w c ->
  exists x text inner,
    w = "~"%char :: "~"%char :: text ++ ["~"%char; "~"%char]
    /\ new = (1, text) :: inner
    /\ hd_error text = Some x /\ re_space x = false
    /\ exists t y, text = t ++ [y] /\ re_space y = false.
Proof.
  intros Hs [tail Hw].
  cbv beta iota zeta delta [Patterns.STRIKETHROUGH seqs star_lazy lit
                            list_ascii_of_string List.map] in Hs.
  cbn [spans] in Hs. spans_inv; subst; cbn [app] in *; classes.
  match goal with
  | H : succeeds _ = true |- _ =>
      unfold advance in H; cbn [length after before] in H;
      rewrite Hw in H; cbn [skipn rmatch after before] in H
  end.
  match goal with
  | |- context [(?body ++ [?y]) ++ _] =>
      generalize dependent body; intros b; intros; exists (hd y b), (b ++ [y])
  end.
  eexists. repeat split.
  - now destruct b.
  - match goal with
    | H : succeeds _ = true |- _ =>
        rewrite skipn_O in H; destruct b as [|z b]; cbn [app hd] in *;
        match type of H with
        | succeeds (if ?p then _ else _) = true =>
            destruct p eqn:E; [|discriminate H]
        end; now apply cnot_true in E
    end.
  - eexists _, _. now split.
Qed.

(** X4: a match of STRIKETHROUGH is [~~], a text and [~~]; the text is
    group 1, it neither starts nor ends with whitespace of ASCII (tab,
    newline, vertical tab, form feed, carriage return, space), and
    [parse_strikethrough] renders it. *)
Theorem strikethrough_inner_text rec c stop g :
  match_at Patterns.STRIKETHROUGH c = Some (stop, g) ->
  exists x text,
    consumed c stop = "~"%char :: "~"%char :: text ++ ["~"%char; "~"%char]
    /\ group (Scanner.match_object c stop g) 1 = Some (Str.of_chars text)
    /\ hd_error text = Some x /\ ~ In (code x) [9; 10; 11; 12; 13; 32]
    /\ (exists t y, text = t ++ [y]
                    /\ ~ In (code y) [9; 10; 11; 12; 13; 32])
    /\ parse_strikethrough rec (Scanner.match_object c stop g)
       = (let* children := rec (Str.of_chars text) in
          ret (Strikethrough children)).
Proof.
  intros H. apply match_at_spans in H as (w & Hw & Hs & _ & Hc).
  apply strikethrough_shape in Hs
    as (x & text & inner & -> & -> & Hx1 & Hx2 & (t & y & Ht & Hy));
    [|assumption].
  apply re_space_not_codes in Hx2. apply re_space_not_codes in Hy.
  exists x, text. repeat split; try assumption.
  now exists t, y.
Qed.

(** A struck text that ends with the next-line control. *)
Lemma strikethrough_inner_text_witness :
  let line := Str.chars "~~a" ++ nel :: Str.chars "~~" in
  let c := Cur [] (line ++ Str.chars "!") in
  let stop := Cur (rev line) (Str.chars "!") in
  let g := [(1, ["a"%char; nel])] in
  match_at Patterns.STRIKETHROUGH c = Some (stop, g)
  /\ parse_strikethrough (render as_given as_given 1)
       (Scanner.match_object c stop g) bare
     = (Ok (Strikethrough [Text (Str.of_chars ["a"%char; nel])]), bare)
  /\ exists x text,
       consumed c stop = "~"%char :: "~"%char :: text ++ ["~"%char; "~"%char]
       /\ group (Scanner.match_object c stop g) 1 = Some (Str.of_chars text)
       /\ hd_error text = Some x /\ ~ In (code x) [9; 10; 11; 12; 13; 32]
       /\ (exists t y, text = t ++ [y]
                       /\ ~ In (code y) [9; 10; 11; 12; 13; 32])
       /\ parse_strikethrough (render as_given as_given 1)
            (Scanner.match_object c stop g)
          = (let* children := render as_given as_given 1
                                (Str.of_chars text) in
             ret (Strikethrough children)).
Proof.
  split; [vm_compute; reflexivity|]. split; [vm_compute; reflexivity|].
  apply (strikethrough_inner_text (render as_given as_given 1)
           (Cur [] ((Str.chars "~~a" ++ nel :: Str.chars "~~")
                    ++ Str.chars "!"))).
  vm_compute. reflexivity.
Defined.

(** The shape of a match of CODESPAN. *)
Lemma codespan_shape c w new :
  spans Patterns.CODESPAN c [] w new -> ahead w c ->
  exists pre ticks code inner,
    w = pre ++ ticks ++ code ++ ticks
    /\ new = (2, code) :: inner
    /\ forallb (chr backslash) pre = true
    /\ ticks <> [] /\ forallb (chr "`") ticks = true
    /\ (exists x t, code = x :: t /\ x <> "`"%char)
    /\ (exists t y, code = t ++ [y] /\ y <> "`"%char).
Proof.
  intros Hs [tail Hw].
  cbv beta iota zeta delta [Patterns.CODESPAN seqs plus plus_lazy] in Hs.
  cbn [spans] in Hs. spans_inv; subst; cbn [app] in *; classes.
  rewrite !advance_nil in *. unfold caps in *.
  repeat match goal with
  | H : chain _ _ _ _ |- _ => apply class_rounds in H as (? & ? & ?)
  end.
  unfold caps in *.
  repeat match goal with
  | H : concat (rev (map snd _)) = [] |- _ => rewrite H in *; clear H
  end.
  cbn [app lookup_group Nat.eqb] in *. rewrite ?app_nil_r in *.
  match goal with
  | H : Some ?a = Some ?b |- _ =>
      assert (E : b = a) by congruence; clear H; subst b
  end.
  match goal with
  | H : spans (star _) _ _ ?pre _ |- _ =>
      pose proof (Forall_forallb _ _
                    (all_in_spans (chr backslash) (star (lit "\\")) eq_refl
                       _ _ _ _ H)) as Hpre;
      clear H; set (p := pre) in *
  end.
  match goal with
  | H1 : forallb (chr "`") ?l1 = true, H2 : forallb any_char ?l2 = true
    |- _ => set (ticks := l1) in *; set (code := l2) in *
  end.
  assert (Hcode : code <> []).
  { intros E. assert (L : length code = 0) by now rewrite E. lia. }
  assert (Hticks : ticks <> []).
  { intros E. assert (L : length ticks = 0) by now rewrite E. lia. }
  clearbody p ticks code.
  exists p, ticks, code. eexists. repeat split; try assumption.
  - destruct code as [|x t]; [now destruct Hcode|]. exists x, t.
    split; [reflexivity|]. apply chr_false.
    match goal with
    | H : succeeds (rmatch _ accept (advance ticks (advance p c)) _) = false
      |- _ =>
        apply (next_not _ _ _ x (t ++ ticks ++ tail)) in H; [exact H|]
    end.
    apply after_advance. apply after_advance.
    rewrite Hw. now rewrite <- !app_assoc.
  - destruct (not_nil_last code Hcode) as (t & y & E). exists t, y.
    split; [assumption|]. apply chr_false.
    match goal with
    | H : prev_is _ (advance code _) = false |- _ =>
        exact (prev_not _ _ _ _ _ H E)
    end.
Qed.

(** X5: a match of CODESPAN is, after backslashes that the action drops,
    a run of backticks, the code, and the same run of backticks again; the
    code is not empty and neither starts nor ends with a backtick; it is
    group 2, and [parse_codespan] returns it stripped and with each run of
    spaces and newlines made one space, leaving the state alone. *)
Theorem codespan_delimiters c stop g st :
  match_at Patterns.CODESPAN c = Some (stop, g) ->
  exists pre ticks code,
    consumed c stop = pre ++ ticks ++ code ++ ticks
    /\ forallb (chr backslash) pre = true
    /\ ticks <> [] /\ forallb (chr "`") ticks = true
    /\ (exists x t, code = x :: t /\ x <> "`"%char)
    /\ (exists t y, code = t ++ [y] /\ y <> "`"%char)
    /\ parse_codespan (Scanner.match_object c stop g) st
       = (Ok (Codespan (Str.collapse (Str.strip (Str.of_chars code)))), st).
Proof.
  intros H. apply match_at_spans in H as (w & Hw & Hs & _ & Hc).
  apply codespan_shape in Hs
    as (pre & ticks & code & inner & -> & -> & Hp & Hn & Ht & Hx & Hy);
    [|assumption].
  exists pre, ticks, code. repeat split; try assumption.
Qed.

Lemma codespan_delimiters_witness :
  exists pre ticks code,
    consumed (Cur [] (Str.chars "`` a`b ``c"))
             (Cur (rev (Str.chars "`` a`b ``")) (Str.chars "c"))
    = pre ++ ticks ++ code ++ ticks
    /\ forallb (chr backslash) pre = true
    /\ ticks <> [] /\ forallb (chr "`") ticks = true
    /\ (exists x t, code = x :: t /\ x <> "`"%char)
    /\ (exists t y, code = t ++ [y] /\ y <> "`"%char)
    /\ parse_codespan
         (Scanner.match_object (Cur [] (Str.chars "`` a`b ``c"))
            (Cur (rev (Str.chars "`` a`b ``")) (Str.chars "c"))
            [(2, Str.chars " a`b "); (1, Str.chars "``")]) bare
       = (Ok (Codespan (Str.collapse (Str.strip (Str.of_chars code)))), bare).
Proof.
  apply (codespan_delimiters (Cur [] (Str.chars "`` a`b ``c"))).
  vm_compute. reflexivity.
Defined.

(** The shape of a match of INLINE_HTML. *)
Lemma inline_html_shape c g w new :
  spans Patterns.INLINE_HTML c g w new ->
  prev_is (chr backslash) c = false
  /\ exists mid, w = "<"%char :: mid ++ [">"%char].
Proof.
  intros Hs.
  cbv beta iota zeta delta [Patterns.INLINE_HTML alts seqs lit
                            list_ascii_of_string List.map] in Hs.
  cbn [spans] in Hs.
  destruct Hs as [Hs|[Hs|[Hs|[Hs|[Hs|Hs]]]]]; spans_inv; subst;
    cbn [app]; classes; (split; [assumption|]);
    eexists; f_equal; apply ends_with;
    repeat (progress (cbn [rev app]; rewrite ?rev_app_distr, <- ?app_assoc));
    reflexivity.
Qed.

(** X6: a match of INLINE_HTML does not stand after a backslash, starts
    with [<] and ends with [>]; [parse_inline_html] returns the matched
    source as it stands and leaves the state alone. *)
Theorem inline_html_verbatim c stop g st :
  match_at Patterns.INLINE_HTML c = Some (stop, g) ->
  prev_is (chr backslash) c = false
  /\ exists mid,
       consumed c stop = "<"%char :: mid ++ [">"%char]
       /\ parse_inline_html (Scanner.match_object c stop g) st
          = (Ok (InlineHtml (Str.of_chars ("<"%char :: mid ++ [">"%char]))),
             st).
Proof.
  intros H. apply match_at_spans in H as (w & _ & Hs & _ & Hc).
  apply inline_html_shape in Hs as (Hb & mid & ->).
  split; [assumption|]. exists mid. split; [assumption|].
  unfold parse_inline_html, ret. cbn [Scanner.match_object group0].
  now rewrite Hc.
Qed.

Lemma inline_html_verbatim_witness :
  prev_is (chr backslash) (Cur [] (Str.chars "<a href='x'>y")) = false
  /\ exists mid,
       consumed (Cur [] (Str.chars "<a href='x'>y"))
                (Cur (rev (Str.chars "<a href='x'>")) (Str.chars "y"))
       = "<"%char :: mid ++ [">"%char]
       /\ parse_inline_html
            (Scanner.match_object (Cur [] (Str.chars "<a href='x'>y"))
               (Cur (rev (Str.chars "<a href='x'>")) (Str.chars "y")) [])
            bare
          = (Ok (InlineHtml (Str.of_chars ("<"%char :: mid ++ [">"%char]))),
             bare).
Proof.
  apply (inline_html_verbatim (Cur [] (Str.chars "<a href='x'>y"))).
  vm_compute. reflexivity.
Defined.

(** The shape of a match of AUTO_LINK. *)
Lemma auto_link_shape c g w new :
  spans Patterns.AUTO_LINK c g w new ->
  exists pre body inner,
    w = pre ++ "<"%char :: body ++ [">"%char]
    /\ new = (1, body) :: inner
    /\ forallb (chr backslash) pre = true
    /\ body <> [] /\ forallb link_char body = true.
Proof.
  intros Hs.
  pose (body := hd Eps (bodies 1 Patterns.AUTO_LINK)).
  assert (Hb : all_in link_char body = true) by (vm_compute; reflexivity).
  assert (Hm : 1 <= min_len body) by (vm_compute; lia).
  change Patterns.AUTO_LINK
    with (Seq (Behind false (chr backslash))
           (Seq (star (lit "\\"))
              (Seq (Chr (chr "<")) (Seq (Grp 1 body) (Chr (chr ">"))))))
    in Hs.
  clearbody body. cbn [spans] in Hs. spans_inv; subst; cbn [app] in *; classes.
  match goal with
  | H1 : spans (star _) _ _ ?pre _, H2 : spans body _ _ ?b _ |- _ =>
      exists pre, b; eexists; repeat split;
      [ apply Forall_forallb;
        apply (all_in_spans (chr backslash) (star (lit "\\")) eq_refl
                 _ _ _ _ H1)
      | intros ->; apply spans_min_len in H2; cbn in H2; lia
      | apply Forall_forallb; apply (all_in_spans _ _ Hb _ _ _ _ H2) ]
  end.
Qed.

(** X7: a match of AUTO_LINK is, after backslashes that the action drops,
    [<], a body and [>]; the body is not empty and holds no space, no [<]
    and no [>]; [parse_auto_link] returns a link whose text is the body and
    whose destination is what [escape_url] makes of the body, with [mailto:]
    before it when [auto_link_target] says so; the state is left alone. *)
Theorem auto_link_body eu c stop g st :
  match_at Patterns.AUTO_LINK c = Some (stop, g) ->
  exists pre body,
    consumed c stop = pre ++ "<"%char :: body ++ [">"%char]
    /\ forallb (chr backslash) pre = true
    /\ body <> [] /\ forallb link_char body = true
    /\ parse_auto_link eu (Scanner.match_object c stop g) st
       = (Ok (Link (eu (auto_link_target (Str.of_chars body)))
                   (Plain (Str.of_chars body)) None), st).
Proof.
  intros H. apply match_at_spans in H as (w & _ & Hs & _ & Hc).
  apply auto_link_shape in Hs as (pre & body & inner & -> & -> & Hp & Hn & Hb).
  exists pre, body. repeat split; try assumption.
Qed.

Lemma auto_link_body_witness :
  exists pre body,
    consumed (Cur [] (Str.chars "<a@b.c> d"))
             (Cur (rev (Str.chars "<a@b.c>")) (Str.chars " d"))
    = pre ++ "<"%char :: body ++ [">"%char]
    /\ forallb (chr backslash) pre = true
    /\ body <> [] /\ forallb link_char body = true
    /\ parse_auto_link as_given
         (Scanner.match_object (Cur [] (Str.chars "<a@b.c> d"))
            (Cur (rev (Str.chars "<a@b.c>")) (Str.chars " d"))
            [(1, Str.chars "a@b.c")]) bare
       = (Ok (Link (as_given (auto_link_target (Str.of_chars body)))
                   (Plain (Str.of_chars body)) None), bare).
Proof.
  apply (auto_link_body as_given (Cur [] (Str.chars "<a@b.c> d"))).
  vm_compute. reflexivity.
Defined.

Lemma std_link_groups c g w new :
  spans Patterns.STD_LINK c g w new ->
  (forall v, In (2, v) new -> forallb (cnot re_space) v = true)
  /\ (forall v, In (3, v) new ->
        exists a t b, v = a :: t ++ [b] /\ title_delimiters a b).
Proof.
  intros Hs. split; intros v Hin;
    destruct (bodies_spans _ v _ _ _ _ _ Hs Hin) as (a & c' & g' & n' & Ha & Hv);
    cbv beta iota zeta delta [bodies Patterns.STD_LINK Patterns.LINK_LABEL
      seqs alts opt star star_lazy plus app Nat.eqb] in Ha;
    destruct Ha as [<-|[]].
  - apply Forall_forallb. revert Hv. apply all_in_spans.
    vm_compute. reflexivity.
  - cbn [spans] in Hv.
    destruct Hv as [Hv|[Hv|Hv]]; spans_inv; subst; cbn [app]; classes;
      eexists _, _, _; (split; [reflexivity|]); unfold title_delimiters;
      tauto.
Qed.

(** X8: in a match of STD_LINK the destination, group 2, holds no
    whitespace of ASCII (tab, newline, vertical tab, form feed, carriage
    return, space); a title, group 3, stands between double quotes, between
    single quotes or between parentheses, and the title of the link is
    what is between them, with the escapes of punctuation undone. *)
Theorem std_link_parts c stop g :
  match_at Patterns.STD_LINK c = Some (stop, g) ->
  let m := Scanner.match_object c stop g in
  (forall raw x, group m 2 = Some raw -> In x (Str.chars raw) ->
     ~ In (code x) [9; 10; 11; 12; 13; 32])
  /\ (forall title, group m 3 = Some title ->
        exists a t b,
          title = Str.of_chars (a :: t ++ [b])
          /\ (a = dquote /\ b = dquote
              \/ a = "'"%char /\ b = "'"%char
              \/ a = "("%char /\ b = ")"%char)
          /\ std_title (Some title) = Some (Str.unescape (Str.of_chars t))).
Proof.
  intros H m. apply match_at_spans in H as (w & _ & Hs & _ & _).
  apply std_link_groups in Hs as [H2 H3]. split.
  - intros raw x Hr Hx. cbn [m group Scanner.match_object subgroups] in Hr.
    apply assoc_map_in in Hr as (v & Hin & ->). rewrite chars_of_chars in Hx.
    apply re_space_not_codes.
    specialize (H2 v Hin). rewrite forallb_forall in H2.
    specialize (H2 x Hx). unfold cnot in H2. now apply negb_true_iff in H2.
  - intros title Ht. cbn [m group Scanner.match_object subgroups] in Ht.
    apply assoc_map_in in Ht as (v & Hin & ->).
    destruct (H3 v Hin) as (a & t & b & -> & Hd).
    exists a, t, b. repeat split; [exact Hd|].
    unfold std_title. cbn [truthy Str.of_chars string_of_list_ascii
                            String.eqb negb option_map].
    pose proof (slice_framed [a] t [b]) as E. cbn [length app] in E.
    unfold Str.of_chars in E. cbn [string_of_list_ascii] in E.
    now rewrite E.
Qed.

(** A destination with a no-break space in it, and a title with an
    escape. *)
Lemma std_link_parts_witness :
  let line := Str.chars "[a](b" ++ nbsp :: Str.chars "c 't\&')" in
  let c := Cur [] line in
  let stop := Cur (rev line) [] in
  let g := [(3, Str.chars "'t\&'"); (2, ["b"%char; nbsp; "c"%char]);
            (1, Str.chars "a")] in
  let m := Scanner.match_object c stop g in
  match_at Patterns.STD_LINK c = Some (stop, g)
  /\ std_title (group m 3) = Some "t&"
  /\ (forall raw x, group m 2 = Some raw -> In x (Str.chars raw) ->
        ~ In (code x) [9; 10; 11; 12; 13; 32])
  /\ (forall title, group m 3 = Some title ->
        exists a t b,
          title = Str.of_chars (a :: t ++ [b])
          /\ (a = dquote /\ b = dquote
              \/ a = "'"%char /\ b = "'"%char
              \/ a = "("%char /\ b = ")"%char)
          /\ std_title (Some title) = Some (Str.unescape (Str.of_chars t))).
Proof.
  split; [vm_compute; reflexivity|]. split; [vm_compute; reflexivity|].
  apply (std_link_parts
           (Cur [] (Str.chars "[a](b" ++ nbsp :: Str.chars "c 't\&')"))).
  vm_compute. reflexivity.
Defined.

(** ** What a rule hands to its action *)

Lemma rule_captures name :
  forallb (fun n => captures n (get_rule_pattern name)) (reads name) = true.
Proof. destruct name; vm_compute; reflexivity. Qed.

Lemma assoc_in n v (g : caps) :
  In (n, v) g ->
  is_Some (assoc n (map (fun '(i, w) => (i, Str.of_chars w)) g)).
Proof.
  induction g as [|[i w] g IH]; [now intros []|]. cbn [map assoc].
  destruct (i =? n)%nat eqn:E; [now eexists|].
  intros [[= -> ->]|H]; [now rewrite Nat.eqb_refl in E|now apply IH].
Qed.

Lemma match_supplied name start stop g :
  match_at (get_rule_pattern name) start = Some (stop, g) ->
  supplied name (Scanner.match_object start stop g).
Proof.
  intros H. split.
  - destruct (match_well_matched (length (after start)) name start stop g
                ltac:(lia) H) as [[[Hlen _] _] _].
    intros E. rewrite E in Hlen. cbn in Hlen. lia.
  - apply match_at_spans in H as (w & _ & Hs & _).
    pose proof (rule_captures name) as Hc. rewrite forallb_forall in Hc.
    apply List.Forall_forall. intros n Hn. specialize (Hc n Hn).
    destruct (captures_spans n _ Hc _ _ _ _ Hs) as [v Hv].
    destruct n as [|n]; [now eexists|].
    cbn [group Scanner.match_object subgroups]. now apply (assoc_in _ v).
Qed.

(** X9: a match of a rule is never empty, so the scan moves on; and the
    part of the match that the action of the rule renders, if it renders
    one, is shorter than the text the match was found in: the recursion of
    [render] goes down. *)
Theorem rule_match_progress name c stop g :
  match_at (get_rule_pattern name) c = Some (stop, g) ->
  let m := Scanner.match_object c stop g in
  group0 m <> ""
  /\ length (after stop) < length (after c)
  /\ forall t, rendered_part name m = Some t ->
       String.length t < length (after c).
Proof.
  intros H m. subst m.
  destruct (match_well_matched (length (after c)) name c stop g
              ltac:(lia) H) as [[[Hlo Hhi] Hg] Hstop].
  repeat split.
  - intros E. rewrite E in Hlo. cbn in Hlo. lia.
  - assumption.
  - intros t Ht. destruct name; cbn [rendered_part] in Ht;
      try discriminate; try (now apply Hg);
      injection Ht as <-; rewrite slice_length;
      cbn [Scanner.match_object group0] in Hlo, Hhi; lia.
Qed.

Lemma rule_match_progress_witness :
  let c := Cur [] (Str.chars "[a*b*](u)") in
  let stop := Cur (rev (Str.chars "[a*b*](u)")) [] in
  let m := Scanner.match_object c stop
             [(2, Str.chars "u"); (1, Str.chars "a*b*")] in
  group0 m <> ""
  /\ length (after stop) < length (after c)
  /\ forall t, rendered_part std_link m = Some t ->
       String.length t < length (after c).
Proof.
  apply (rule_match_progress std_link (Cur [] (Str.chars "[a*b*](u)"))).
  vm_compute. reflexivity.
Defined.

(** The first character of a match is the character at the position. *)
Lemma match_first name c stop g :
  match_at (get_rule_pattern name) c = Some (stop, g) ->
  exists x line,
    group0 (Scanner.match_object c stop g) = String x line
    /\ next_is (chr x) c = true.
Proof.
  intros H.
  destruct (match_well_matched (length (after c)) name c stop g
              ltac:(lia) H) as [[[Hlo _] _] _].
  apply match_at_spans in H as (w & [rest Hw] & _ & _ & Hc).
  cbn [Scanner.match_object group0] in *. rewrite Hc in *.
  destruct w as [|x w]; [cbn in Hlo; lia|].
  exists x, (Str.of_chars w). split; [reflexivity|].
  unfold next_is, chr. rewrite Hw. cbn. apply Ascii.eqb_refl.
Qed.

Lemma starts_with_bang_first name c stop g :
  match_at (get_rule_pattern name) c = Some (stop, g) ->
  next_is (chr "!") c = false ->
  starts_with_bang (group0 (Scanner.match_object c stop g)) = ret false.
Proof.
  intros H Hn. destruct (match_first _ _ _ _ H) as (x & line & -> & Hx).
  cbn [starts_with_bang]. f_equal.
  unfold next_is in *. destruct (after c) as [|y t]; [discriminate|].
  apply chr_true in Hx. subst y. exact Hn.
Qed.

(** ** Links that resolve *)

(** X10: a match of STD_LINK that does not start with [!], met while the
    guard is down, has a text (group 1) and a destination (group 2), and
    [parse_std_link] ends as the rendering of the text under the guard
    does; when that returns, the result is a link with the rendered text.
    Its destination is what [escape_url] makes of group 2 with the escapes
    undone, and then without its first and last character when these are
    [<] and [>].  Its title is group 3 without its first and last character
    and with the escapes undone; there is none when group 3 is absent.  The
    guard is down afterwards. *)
Theorem std_link_resolves eu rec c stop g st :
  match_at Patterns.STD_LINK c = Some (stop, g) ->
  next_is (chr "!") c = false ->
  in_link st = false ->
  let m := Scanner.match_object c stop g in
  exists text raw,
    group m 1 = Some text /\ group m 2 = Some raw
    /\ let dest := Str.unescape raw in
       let link :=
         if Str.startswith "<" dest && Str.endswith ">" dest
         then Str.slice 1 1 dest else dest in
       let title :=
         match group m 3 with
         | Some t => if String.eqb t EmptyString then Some t
                     else Some (Str.unescape (Str.slice 1 1 t))
         | None => None
         end in
       parse_std_link eu rec m st
       = match rec text (set_in_link true st) with
         | (Ok inner, st1) =>
             (Ok (Link (eu link) (Children inner) title),
              set_in_link false st1)
         | (Raise e, st1) => (Raise e, st1)
         | (Exhausted, st1) => (Exhausted, st1)
         end.
Proof.
  intros H Hn Hin m.
  destruct (match_supplied std_link _ _ _ H) as [_ Hg].
  pose proof (starts_with_bang_first std_link _ _ _ H Hn) as Hb.
  fold m in Hg, Hb. clearbody m.
  rewrite List.Forall_forall in Hg.
  destruct (Hg 1 ltac:(now left)) as [text Ht].
  destruct (Hg 2 ltac:(right; now left)) as [raw Hr].
  exists text, raw. split; [exact Ht|]. split; [exact Hr|].
  cbv zeta.
  assert (T : std_title (group m 3)
              = match group m 3 with
                | Some t => if String.eqb t EmptyString then Some t
                            else Some (Str.unescape (Str.slice 1 1 t))
                | None => None
                end).
  { unfold std_title, truthy. destruct (group m 3) as [t|]; [|reflexivity].
    now destruct (String.eqb t EmptyString). }
  rewrite <- T. fold (std_destination raw).
  unfold parse_std_link. rewrite Hr, Hb.
  unfold bind, need, ret. cbv beta iota.
  rewrite tokenize_link_open by assumption. now rewrite Ht.
Qed.

(** [[a](<b\*> 't\&')]: the destination is [b*] and the title [t&]. *)
Lemma std_link_resolves_witness :
  let c := Cur [] (Str.chars "[a](<b\*> 't\&')") in
  let stop := Cur (rev (Str.chars "[a](<b\*> 't\&')")) [] in
  let m := Scanner.match_object c stop
             [(3, Str.chars "'t\&'"); (2, Str.chars "<b\*>");
              (1, Str.chars "a")] in
  parse_std_link as_given (render as_given as_given 1) m bare
  = (Ok (Link "b*" (Children [Text "a"]) (Some "t&")),
     set_in_link false bare).
Proof.
  intros c stop m.
  destruct (std_link_resolves as_given (render as_given as_given 1)
              c stop
              [(3, Str.chars "'t\&'"); (2, Str.chars "<b\*>");
               (1, Str.chars "a")] bare)
    as (text & raw & Ht & Hr & E).
  - vm_compute. reflexivity.
  - reflexivity.
  - reflexivity.
  - fold m in Ht, Hr, E.
    assert (Et : text = "a") by (vm_compute in Ht; congruence).
    assert (Er : raw = "<b\*>") by (vm_compute in Hr; congruence).
    subst text raw. rewrite E. vm_compute. reflexivity.
Defined.

(** X11: a match of REF_LINK or REF_LINK2 that does not start with [!],
    met while the guard is down, has a text (group 1) and a key text (group
    2 when it is there and not empty, the text otherwise); when [def_links]
    has an entry under [unikey] of the key text, the action ends as the
    rendering of the text under the guard does; when that returns, the
    result is a link with the rendered text, with what [escape_url] makes of
    the destination of the entry with the escapes undone, and with the
    title of the entry with the escapes undone, or as it is when it is
    absent or empty; the guard is down afterwards. *)
Theorem ref_link_resolves eu uk rec name c stop g st :
  name = ref_link \/ name = ref_link2 ->
  match_at (get_rule_pattern name) c = Some (stop, g) ->
  next_is (chr "!") c = false ->
  in_link st = false ->
  let m := Scanner.match_object c stop g in
  exists text k,
    group m 1 = Some text
    /\ k = match group m 2 with
           | Some s => if String.eqb s EmptyString then text else s
           | None => text
           end
    /\ forall d link title,
         def_links st = Some d -> d !! uk k = Some (link, title) ->
         get_rule_method eu uk rec name m st
         = match rec text (set_in_link true st) with
           | (Ok inner, st1) =>
               (Ok (Link (eu (Str.unescape link)) (Children inner)
                         match title with
                         | Some t => if String.eqb t EmptyString then Some t
                                     else Some (Str.unescape t)
                         | None => None
                         end),
                set_in_link false st1)
           | (Raise e, st1) => (Raise e, st1)
           | (Exhausted, st1) => (Exhausted, st1)
           end.
Proof.
  intros Hname H Hn Hin m.
  assert (Hg : is_Some (group m 1)).
  { destruct (match_supplied name _ _ _ H) as [_ Hg].
    rewrite List.Forall_forall in Hg. apply Hg.
    destruct Hname as [-> | ->]; now left. }
  pose proof (starts_with_bang_first name _ _ _ H Hn) as Hb.
  fold m in Hb. clearbody m.
  destruct Hg as [text Ht].
  exists text, (match group m 2 with
                | Some s => if String.eqb s EmptyString then text else s
                | None => text
                end).
  split; [exact Ht|]. split; [reflexivity|].
  set (k := match group m 2 with
            | Some s => if String.eqb s EmptyString then text else s
            | None => text
            end).
  assert (Hk : ref_key_text m = Some k).
  { unfold ref_key_text, truthy, k. rewrite Ht.
    destruct (group m 2) as [s|]; [|reflexivity].
    now destruct (String.eqb s EmptyString). }
  intros d link title Hd Hl.
  assert (T : ref_title title
              = match title with
                | Some t => if String.eqb t EmptyString then Some t
                            else Some (Str.unescape t)
                | None => None
                end).
  { unfold ref_title, truthy. destruct title as [t|]; [|reflexivity].
    now destruct (String.eqb t EmptyString). }
  rewrite <- T.
  assert (E : get_rule_method eu uk rec name m
              = parse_ref_link eu uk rec m)
    by (destruct Hname as [-> | ->]; reflexivity).
  rewrite E. unfold parse_ref_link. rewrite Hk, Hb.
  assert (U : unresolved_link st (uk k) = false).
  { unfold unresolved_link. rewrite Hd. rewrite Hl.
    apply orb_false_intro.
    - apply bool_decide_eq_false. intros ->.
      now rewrite lookup_empty in Hl.
    - apply negb_false_iff, bool_decide_eq_true. now eexists. }
  unfold bind, need, ret, get_state. cbv beta iota.
  rewrite U, Hd. cbn [mbind option_bind]. rewrite Hl. cbv beta iota.
  rewrite tokenize_link_open by assumption. now rewrite Ht.
Qed.

(** [[a][foo]] with [foo] defined as [/u\*rl] with the title [t\&x]: the
    destination is [/u*rl] and the title [t&x]. *)
Lemma ref_link_resolves_witness :
  let c := Cur [] (Str.chars "[a][foo]") in
  let stop := Cur (rev (Str.chars "[a][foo]")) [] in
  let m := Scanner.match_object c stop
             [(2, Str.chars "foo"); (1, Str.chars "a")] in
  get_rule_method as_given as_given (render as_given as_given 1)
    ref_link m with_titled_link
  = (Ok (Link "/u*rl" (Children [Text "a"]) (Some "t&x")),
     set_in_link false with_titled_link).
Proof.
  intros c stop m.
  destruct (ref_link_resolves as_given as_given
              (render as_given as_given 1) ref_link c stop
              [(2, Str.chars "foo"); (1, Str.chars "a")] with_titled_link)
    as (text & k & Ht & Hk & E).
  - now left.
  - vm_compute. reflexivity.
  - reflexivity.
  - reflexivity.
  - fold m in Ht, Hk, E.
    assert (Et : text = "a") by (vm_compute in Ht; congruence).
    subst text.
    assert (Ek : k = "foo") by (rewrite Hk; vm_compute; reflexivity).
    clear Hk. subst k.
    rewrite (E (<["foo" := ("/u\*rl", Some "t\&x")]> ∅) "/u\*rl"
               (Some "t\&x") eq_refl ltac:(vm_compute; reflexivity)).
    vm_compute. reflexivity.
Defined.

(** ** Text without markup *)

Lemma rule_must_have name : must_have markup (get_rule_pattern name) = true.
Proof. destruct name; vm_compute; reflexivity. Qed.

Lemma plain_no_match name c :
  forallb (fun x => negb (markup x)) (after c) = true ->
  match_at (get_rule_pattern name) c = None.
Proof.
  intros Hp. destruct (match_at _ c) as [[stop g]|] eqn:E; [|reflexivity].
  apply match_at_spans in E as (w & [rest Hw] & Hs & _).
  apply (must_have_spans _ _ (rule_must_have name)) in Hs.
  rewrite Hw, forallb_app in Hp. apply andb_true_iff in Hp as [Hp _].
  rewrite forallb_forall in Hp. apply List.Exists_exists in Hs as (x & Hx & Hm).
  specialize (Hp x Hx). now rewrite Hm in Hp.
Qed.

Lemma plain_no_rule rules c :
  forallb (fun x => negb (markup x)) (after c) = true ->
  Scanner.first_rule rules c = None.
Proof.
  intros Hp. induction rules as [|name rules IH]; [reflexivity|].
  cbn [Scanner.first_rule]. now rewrite plain_no_match.
Qed.

Lemma plain_no_hit rules bef aft :
  forallb (fun x => negb (markup x)) aft = true ->
  Scanner.search rules bef aft = None.
Proof.
  revert bef. induction aft as [|x aft IH]; intros bef Hp.
  - cbn [Scanner.search]. now rewrite plain_no_rule.
  - cbn [Scanner.search]. rewrite plain_no_rule by exact Hp.
    apply IH. cbn in Hp. now apply andb_true_iff in Hp as [_ Hp].
Qed.

(** X12: a text without a markup character (a backslash, [<], the opening
    bracket, [*], [_], a backtick, [~] or a newline) is rendered as it
    stands, in a single [Text] token, from any state and at any depth;
    the empty text gives no token.  The state is left as it was. *)
Theorem plain_text_verbatim eu uk depth s st :
  forallb (fun x => negb (markup x)) (Str.chars s) = true ->
  render eu uk (S depth) s st
  = (Ok (match s with EmptyString => [] | _ => [Text s] end), st).
Proof.
  intros Hp. cbn [render]. unfold parse. cbn [scan before after].
  rewrite plain_no_hit by exact Hp.
  destruct s as [|x s]; [reflexivity|].
  change (Str.chars (String x s)) with (x :: Str.chars s).
  cbn [hole]. unfold parse_text, bind, ret.
  change (x :: Str.chars s) with (Str.chars (String x s)).
  now rewrite of_chars_chars.
Qed.

Lemma plain_text_verbatim_witness :
  render as_given as_given 1 "plain text, with commas. And (parens)!" bare
  = (Ok [Text "plain text, with commas. And (parens)!"], bare).
Proof.
  exact (plain_text_verbatim as_given as_given 0
           "plain text, with commas. And (parens)!" bare eq_refl).
Defined.

(** ** How a rendering ends *)

Lemma quiet_ret {A} (a : A) : quiet (ret a).
Proof. now intros st out st' [= <- <-]. Qed.

Lemma quiet_exhausted {A} : quiet (fun st => (@Exhausted A, st)).
Proof. now intros st out st' [= <- <-]. Qed.

Lemma quiet_bind {A B} (m : M A) (f : A -> M B) :
  quiet m -> (forall a, quiet (f a)) -> quiet (bind m f).
Proof.
  intros Hm Hf st out st' H. unfold bind in H.
  destruct (m st) as [[a|e|] st1] eqn:E; destruct (Hm _ _ _ E) as [H1 H2].
  - destruct (Hf a _ _ _ H) as [H3 H4]. split; [auto|exact H4].
  - injection H as <- <-. now split.
  - injection H as <- <-. now split.
Qed.

Lemma quiet_bind_need {A B} (e : Exn) (o : option A) (f : A -> M B) :
  is_Some o -> (forall a, o = Some a -> quiet (f a)) ->
  quiet (bind (need e o) f).
Proof.
  intros [a ->] Hf st out st' H. exact (Hf a eq_refl _ _ _ H).
Qed.

Lemma quiet_get_state : quiet get_state.
Proof. now intros st out st' [= <- <-]. Qed.

Lemma quiet_modify (f : State -> State) :
  (forall st, footnotes (f st) = footnotes st) -> quiet (modify f).
Proof.
  intros Hf st out st' [= <- <-]. now rewrite Hf.
Qed.

Lemma unresolved_link_entry st key :
  unresolved_link st key = false -> is_Some (def_links st ≫= (.!! key)).
Proof.
  unfold unresolved_link. destruct (def_links st) as [d|]; [|discriminate].
  intros H. apply orb_false_elim in H as [_ H].
  apply negb_false_iff, bool_decide_eq_true in H. exact H.
Qed.

Section Quiet.

Variable escape_url unikey : string -> string.
Variable render : string -> M (list Token).
Hypothesis rec_quiet : forall s, quiet (render s).

Lemma tokenize_link_quiet line link text title :
  is_Some text ->
  quiet (tokenize_link escape_url render line link text title).
Proof.
  intros [s ->] st out st' H. destruct (in_link st) eqn:Hin.
  - rewrite tokenize_link_guarded in H by assumption.
    now injection H as <- <-.
  - rewrite tokenize_link_open in H by assumption.
    destruct (render s (set_in_link true st)) as [[inner|e|] st1] eqn:R;
      injection H as <- <-; destruct (rec_quiet _ _ _ _ R) as [H1 H2];
      now split.
Qed.

Lemma starts_with_bang_quiet {B} line (f : bool -> M B) :
  line <> "" -> (forall b, quiet (f b)) ->
  quiet (bind (starts_with_bang line) f).
Proof.
  intros Hl Hf. destruct line as [|c line]; [now destruct Hl|].
  intros st out st' H. exact (Hf _ _ _ _ H).
Qed.

Lemma parse_ref_link_quiet m :
  group0 m <> "" -> is_Some (group m 1) ->
  quiet (parse_ref_link escape_url unikey render m).
Proof.
  intros H0 H1. unfold parse_ref_link. apply quiet_bind_need.
  - unfold ref_key_text. destruct (truthy (group m 2)) eqn:T; [|assumption].
    unfold truthy in T. destruct (group m 2); [now eexists|discriminate].
  - intros key _. apply quiet_bind; [apply quiet_get_state|]. intros st.
    destruct (unresolved_link st (unikey key)) eqn:U; [apply quiet_ret|].
    apply quiet_bind_need; [now apply unresolved_link_entry|].
    intros [link title] _. apply starts_with_bang_quiet; [assumption|].
    intros []; [apply quiet_ret | now apply tokenize_link_quiet].
Qed.

Lemma parse_footnote_quiet m :
  is_Some (group m 1) -> quiet (parse_footnote m).
Proof.
  intros H1. unfold parse_footnote. apply quiet_bind_need; [assumption|].
  intros key _. apply quiet_bind; [apply quiet_get_state|]. intros st.
  destruct (unresolved_footnote _ _); [apply quiet_ret|].
  apply quiet_bind; [now apply quiet_modify|]. intros _.
  intros st1 out st' H. unfold bind, get_state, need in H.
  destruct (footnotes st1) as [l|] eqn:F.
  - injection H as <- <-. split; [now eexists|trivial].
  - injection H as <- <-. split; [now rewrite F|]. now split.
Qed.

Lemma wrapper_quiet s (wrap : list Token -> Token) :
  quiet (let* children := render s in ret (wrap children)).
Proof. apply quiet_bind; [apply rec_quiet|]. intros l. apply quiet_ret. Qed.

Lemma action_quiet name m :
  supplied name m -> quiet (get_rule_method escape_url unikey render name m).
Proof.
  intros [H0 Hg]. rewrite List.Forall_forall in Hg.
  destruct name; cbn [get_rule_method]; cbn [reads] in Hg;
    try (pose proof (Hg 1 ltac:(now left)) as H1);
    try apply quiet_ret.
  - unfold parse_auto_link. apply quiet_bind_need; [assumption|].
    intros text _. apply quiet_ret.
  - now apply parse_footnote_quiet.
  - pose proof (Hg 2 ltac:(right; now left)) as H2.
    unfold parse_std_link. apply quiet_bind_need; [assumption|].
    intros raw _. apply starts_with_bang_quiet; [assumption|].
    intros []; [apply quiet_ret | now apply tokenize_link_quiet].
  - now apply parse_ref_link_quiet.
  - now apply parse_ref_link_quiet.
  - apply wrapper_quiet.
  - apply wrapper_quiet.
  - pose proof (Hg 2 ltac:(now left)) as H2.
    unfold parse_codespan. apply quiet_bind_need; [assumption|].
    intros inner _. apply quiet_ret.
  - unfold parse_strikethrough. apply quiet_bind_need; [assumption|].
    intros text _. apply wrapper_quiet.
Qed.

Lemma hole_quiet l : quiet (hole l).
Proof.
  destruct l; [apply quiet_ret|]. cbn [hole]. unfold parse_text.
  apply quiet_bind; [apply quiet_ret|]. intros t. apply quiet_ret.
Qed.

Lemma scan_quiet steps rules c :
  quiet (scan escape_url unikey render steps rules c).
Proof.
  revert c. induction steps as [|steps IH]; intros c; cbn [scan].
  - apply quiet_exhausted.
  - destruct (Scanner.search _ _ _) as [[start [[name stop] g]]|] eqn:E;
      [|apply hole_quiet].
    apply search_match in E as [_ E].
    apply quiet_bind; [apply hole_quiet|]. intros gap.
    apply quiet_bind; [now apply action_quiet, match_supplied|]. intros tok.
    apply quiet_bind; [apply IH|]. intros rest. apply quiet_ret.
Qed.

End Quiet.

Lemma render_quiet eu uk depth s : quiet (render eu uk depth s).
Proof.
  revert s. induction depth as [|depth IH]; intros s; cbn [render].
  - apply quiet_exhausted.
  - unfold parse. now apply scan_quiet.
Qed.

(** X13: with a depth above the length of the text, [render] returns its
    tokens or raises.  Whatever the depth, the one exception it raises is
    the [KeyError] of a state without the list [footnotes]. *)
Theorem render_outcome eu uk depth s st out st' :
  render eu uk depth s st = (out, st') ->
  match out with
  | Ok _ => True
  | Raise e => e = KeyError "footnotes" /\ footnotes st = None
  | Exhausted => depth <= String.length s
  end.
Proof.
  intros R. destruct out as [toks|e|]; [trivial| |].
  - destruct (render_quiet _ _ _ _ _ _ _ R) as [H1 [-> Hn]].
    split; [reflexivity|].
    destruct (footnotes st) as [l|]; [|reflexivity].
    destruct H1 as [l' Hl']; [now eexists|]. congruence.
  - destruct (Nat.le_gt_cases depth (String.length s)) as [H|H];
      [assumption|].
    pose proof (render_finite eu uk depth s H st) as F.
    rewrite R in F. now destruct F.
Qed.

Lemma render_outcome_witness :
  exists st',
    render as_given as_given 2 "see [^a]" without_list
    = (Raise (KeyError "footnotes"), st')
    /\ footnotes without_list = None.
Proof.
  eexists. split; [vm_compute; reflexivity|].
  now destruct (render_outcome as_given as_given 2 "see [^a]" without_list
                  _ _ ltac:(vm_compute; reflexivity)).
Defined.

(** X14: with a list of footnotes in the state and a depth above the length
    of the text, [render] returns its tokens: no text makes it raise. *)
Theorem render_returns eu uk depth s st :
  is_Some (footnotes st) -> String.length s < depth ->
  exists toks st', render eu uk depth s st = (Ok toks, st').
Proof.
  intros Hf Hd. destruct (render eu uk depth s st) as [[toks|e|] st'] eqn:R.
  - now exists toks, st'.
  - destruct (render_quiet _ _ _ _ _ _ _ R) as [H1 [_ Hn]].
    specialize (H1 Hf).
    rewrite Hn in H1. now destruct H1.
  - pose proof (render_finite eu uk depth s Hd st) as H.
    rewrite R in H. now destruct H.
Qed.

Lemma render_returns_witness :
  exists toks st',
    render as_given as_given 12 "[a](<b" bare = (Ok toks, st').
Proof.
  apply render_returns; [now eexists | cbn; lia].
Defined.

(** ** The state after a rendering *)

Lemma count_from_app i n m :
  count_from i (n + m) = count_from i n ++ count_from (i + Z.of_nat n)%Z m.
Proof.
  revert i. induction n as [|n IH]; intros i.
  - cbn. now rewrite Z.add_0_r.
  - cbn [Nat.add count_from app]. rewrite IH. do 3 f_equal. lia.
Qed.

Lemma accounted_refl st : accounted st [] st.
Proof.
  unfold accounted. cbn. repeat split; auto.
  - lia.
  - intros H. now destruct H.
  - intros l ->. now rewrite app_nil_r.
Qed.

Lemma unresolved_footnote_tables st st' key :
  def_footnotes st' = def_footnotes st ->
  unresolved_footnote st' key = unresolved_footnote st key.
Proof. unfold unresolved_footnote. now intros ->. Qed.

Lemma accounted_trans st rs1 st1 rs2 st2 :
  accounted st rs1 st1 -> accounted st1 rs2 st2 ->
  accounted st (rs1 ++ rs2) st2.
Proof.
  intros (Hi1 & Hc1 & He1 & Hs1 & Hl1 & Hn1 & Hr1 & Hf1 & Hd1)
         (Hi2 & Hc2 & He2 & Hs2 & Hl2 & Hn2 & Hr2 & Hf2 & Hd2).
  unfold accounted. rewrite !map_app, length_app, count_from_app.
  repeat split.
  - rewrite Hi1, Hi2, Hc1. reflexivity.
  - rewrite Hc2, Hc1. lia.
  - intros H. apply app_eq_nil in H as [-> ->].
    rewrite He2, He1; reflexivity.
  - intros H. destruct rs1 as [|r rs1]; [|apply Hs1; discriminate].
    cbn in H. specialize (Hs2 H).
    destruct (footnotes st) as [l|] eqn:E; [now exists l|].
    rewrite (Hn1 eq_refl) in Hs2. exact Hs2.
  - intros l Hl. rewrite (Hl2 _ (Hl1 _ Hl)). now rewrite <- app_assoc.
  - intros H. apply Hn2, Hn1, H.
  - apply Forall_app. split; [assumption|].
    eapply List.Forall_impl; [|exact Hr2]. cbn. intros r Hr.
    now rewrite <- (unresolved_footnote_tables st st1).
  - congruence.
  - congruence.
Qed.

Lemma settled_refl st : settled st [] st.
Proof. split; [apply accounted_refl|reflexivity]. Qed.

Lemma settled_trans st ts1 st1 ts2 st2 :
  settled st ts1 st1 -> settled st1 ts2 st2 -> settled st (ts1 ++ ts2) st2.
Proof.
  intros [H1 G1] [H2 G2]. split; [|congruence].
  rewrite flat_map_app. eapply accounted_trans; eassumption.
Qed.

Section Settled.

Variable escape_url unikey : string -> string.
Variable render : string -> M (list Token).
Hypothesis rec_settles : forall s, returns settled (render s).

Lemma tokenize_link_settles line link text title :
  returns (fun st tok st' => settled st [tok] st')
          (tokenize_link escape_url render line link text title).
Proof.
  intros st tok st' H. destruct (in_link st) eqn:Hin.
  - rewrite tokenize_link_guarded in H by assumption.
    injection H as <- <-. apply settled_refl.
  - rewrite tokenize_link_open in H by assumption.
    destruct text as [s|]; [|discriminate].
    destruct (render s (set_in_link true st)) as [[inner|e|] st1] eqn:R;
      try discriminate.
    injection H as <- <-. apply rec_settles in R as [Ha _].
    split; [|now rewrite Hin].
    cbn [flat_map refs]. rewrite app_nil_r. exact Ha.
Qed.

Lemma wrapper_settles s (wrap : list Token -> Token) :
  (forall l, refs (wrap l) = flat_map refs l) ->
  returns (fun st tok st' => settled st [tok] st')
          (let* children := render s in ret (wrap children)).
Proof.
  intros Hw st tok st' H. unfold bind, ret in H.
  destruct (render s st) as [[l|e|] st1] eqn:R; try discriminate.
  injection H as <- <-. apply rec_settles in R as [Ha Hg].
  split; [|assumption]. cbn [flat_map]. now rewrite Hw, app_nil_r.
Qed.

Lemma parse_footnote_settles m :
  returns (fun st tok st' => settled st [tok] st') (parse_footnote m).
Proof.
  intros st tok st' H. unfold parse_footnote, bind, need, get_state in H.
  destruct (group m 1) as [key|]; [|discriminate]. unfold ret in H.
  cbv beta iota in H.
  destruct (unresolved_footnote st (Str.lower key)) eqn:U.
  - injection H as <- <-. apply settled_refl.
  - unfold modify in H. cbv beta iota in H.
    cbn [footnotes set_footnote_index] in H.
    destruct (footnotes st) as [l|] eqn:F; [|discriminate].
    injection H as <- <-. split; [|reflexivity].
    unfold accounted, index_of. cbn.
    repeat split; auto; try congruence.
Qed.

Lemma parse_ref_link_settles m :
  returns (fun st tok st' => settled st [tok] st')
          (parse_ref_link escape_url unikey render m).
Proof.
  intros st tok st' H. unfold parse_ref_link, bind, need, get_state in H.
  destruct (ref_key_text m) as [key|]; [|discriminate]. unfold ret in H.
  cbv beta iota in H.
  destruct (unresolved_link st (unikey key)).
  - injection H as <- <-. apply settled_refl.
  - destruct (def_links st ≫= (.!! unikey key)) as [[link title]|];
      [|discriminate].
    destruct (group0 m) as [|c line] eqn:G; [discriminate|].
    cbn [starts_with_bang] in H. unfold ret in H. cbv beta iota in H.
    destruct (Ascii.eqb c "!").
    + injection H as <- <-. apply settled_refl.
    + now apply tokenize_link_settles in H.
Qed.

Lemma action_settles name m :
  returns (fun st tok st' => settled st [tok] st')
          (get_rule_method escape_url unikey render name m).
Proof.
  destruct name; cbn [get_rule_method].
  - intros st tok st' [= <- <-]. apply settled_refl.
  - intros st tok st' [= <- <-]. apply settled_refl.
  - intros st tok st' H. unfold parse_auto_link, bind, need in H.
    destruct (group m 1); [|discriminate].
    injection H as <- <-. apply settled_refl.
  - apply parse_footnote_settles.
  - intros st tok st' H. unfold parse_std_link, bind, need in H.
    destruct (group m 2) as [raw|]; [|discriminate]. unfold ret in H.
    cbv beta iota in H.
    destruct (group0 m) as [|c line] eqn:G; [discriminate|].
    cbn [starts_with_bang] in H. unfold ret in H. cbv beta iota in H.
    destruct (Ascii.eqb c "!").
    + injection H as <- <-. apply settled_refl.
    + now apply tokenize_link_settles in H.
  - apply parse_ref_link_settles.
  - apply parse_ref_link_settles.
  - unfold parse_strong. now apply wrapper_settles.
  - unfold parse_emphasis. now apply wrapper_settles.
  - intros st tok st' H. unfold parse_codespan, bind, need in H.
    destruct (group m 2); [|discriminate].
    injection H as <- <-. apply settled_refl.
  - intros st tok st' H. unfold parse_strikethrough in H.
    unfold bind at 1 in H. unfold need in H.
    destruct (group m 1) as [t|]; [|discriminate]. unfold ret at 1 in H.
    cbv beta iota in H. revert H. now apply wrapper_settles.
  - intros st tok st' [= <- <-]. apply settled_refl.
Qed.

Lemma hole_settles l : returns settled (hole l).
Proof.
  destruct l; intros st ts st' [= <- <-]; apply settled_refl.
Qed.

Lemma scan_settles steps rules c :
  returns settled (scan escape_url unikey render steps rules c).
Proof.
  revert c. induction steps as [|steps IH]; intros c st ts st' H;
    cbn [scan] in H; [discriminate|].
  destruct (Scanner.search _ _ _) as [[start [[name stop] g]]|];
    [|now apply hole_settles in H].
  unfold bind in H.
  destruct (hole (consumed c start) st) as [[gap|e|] st1] eqn:E1;
    try discriminate.
  destruct (get_rule_method _ _ _ name _ st1) as [[tok|e|] st2] eqn:E2;
    try discriminate.
  destruct (scan _ _ _ steps rules stop st2) as [[rest|e|] st3] eqn:E3;
    try discriminate.
  injection H as <- <-.
  apply hole_settles in E1. apply action_settles in E2. apply IH in E3.
  eapply settled_trans; [exact E1|].
  change (tok :: rest) with ([tok] ++ rest).
  eapply settled_trans; eassumption.
Qed.

End Settled.

Lemma render_settles eu uk depth s : returns settled (render eu uk depth s).
Proof.
  revert s. induction depth as [|depth IH]; intros s; cbn [render].
  - intros st ts st' [=].
  - unfold parse. now apply scan_settles.
Qed.

Lemma forallb_always {A} (l : list A) : forallb (fun _ => true) l = true.
Proof. now induction l. Qed.

Lemma render_tables eu uk depth s D F :
  holds (fun st => def_links st = D /\ def_footnotes st = F)
        (fun _ => True) (render eu uk depth s).
Proof.
  eapply holds_weaken with (P := fun l => forallb (fun _ => true) l = true);
    [|trivial].
  revert s. induction depth as [|depth IH]; intros s; cbn [render].
  - apply holds_exhausted.
  - unfold parse. apply scan_passes with (q := fun _ => true); auto.
    + intros l. now rewrite forallb_always.
    + intros l. now rewrite forallb_always.
    + intros l. now rewrite forallb_always.
    + intros line link text title. unfold tokenize_link.
      holds_step. intros st _. destruct (in_link st); [now apply holds_ret|].
      holds_step. intros _ _.
      eapply holds_bind with (P := fun _ => True).
      * eapply holds_bind; [apply holds_need|]. intros t _.
        eapply holds_weaken; [apply IH|trivial].
      * intros inner _. holds_step. intros _ _. now apply holds_ret.
Qed.

(** X15: [render] only reads the tables of definitions: however it ends,
    with its tokens, with an exception or out of depth, [def_links] and
    [def_footnotes] are what they were. *)
Theorem render_keeps_tables eu uk depth s st out st' :
  render eu uk depth s st = (out, st') ->
  def_links st' = def_links st /\ def_footnotes st' = def_footnotes st.
Proof.
  intros R.
  now destruct (render_tables eu uk depth s _ _ st out st'
                  (conj eq_refl eq_refl) R) as [H _].
Qed.

Lemma render_keeps_tables_witness :
  exists out st',
    render as_given as_given 3 "[a][foo] and [^a]" with_links = (out, st')
    /\ def_links st' = def_links with_links
    /\ def_footnotes st' = def_footnotes with_links.
Proof.
  eexists _, _. split; [vm_compute; reflexivity|].
  eapply (render_keeps_tables as_given as_given 3 "[a][foo] and [^a]").
  vm_compute. reflexivity.
Defined.

(** X16: when [render] returns, the link guard reads as it did before:
    a link's text is rendered with the guard up, and the guard is down
    again after the link. *)
Theorem render_restores_guard eu uk depth s st toks st' :
  render eu uk depth s st = (Ok toks, st') -> in_link st' = in_link st.
Proof. intros R. now apply render_settles in R as [_ H]. Qed.

Lemma render_restores_guard_witness :
  exists toks st',
    render as_given as_given 3 "[*a*](u) [b](v)" bare = (Ok toks, st')
    /\ in_link st' = in_link bare.
Proof.
  eexists _, _. split; [vm_compute; reflexivity|].
  eapply (render_restores_guard as_given as_given 3 "[*a*](u) [b](v)").
  vm_compute. reflexivity.
Defined.

(** X17: when [render] returns, the footnote counters have moved by the
    footnote references of the tokens it returns, wherever they stand in
    the tree: in the order of the text their indexes are the numbers that
    follow the counter [footnote_index] had, the counter is the last of
    them, their keys were appended to [footnotes] in that order, and each
    key is one of [def_footnotes]. *)
Theorem render_counts_footnotes eu uk depth s st toks st' :
  render eu uk depth s st = (Ok toks, st') ->
  let rs := flat_map refs toks in
  map snd rs = count_from (index_of st) (length rs)
  /\ index_of st' = (index_of st + Z.of_nat (length rs))%Z
  /\ (forall l, footnotes st = Some l ->
        footnotes st' = Some (l ++ map fst rs))
  /\ (footnotes st = None -> rs = [] /\ footnotes st' = None)
  /\ Forall (fun r => unresolved_footnote st r.1 = false) rs.
Proof.
  intros R rs. apply render_settles in R as [H _].
  destruct H as (H1 & H2 & _ & H4 & H5 & H6 & H7 & _).
  repeat split; try assumption; try (now apply H6).
  destruct (flat_map refs toks) as [|r l] eqn:E; [reflexivity|].
  destruct H4 as [l' Hl']; [discriminate|]. congruence.
Qed.

Lemma render_counts_footnotes_witness :
  exists toks st',
    render as_given as_given 4 "[^a] *x [^b]* [^a]" with_footnotes
    = (Ok toks, st')
    /\ flat_map refs toks = [("a", 1%Z); ("b", 2%Z); ("a", 3%Z)]
    /\ map snd (flat_map refs toks)
       = count_from (index_of with_footnotes) (length (flat_map refs toks))
    /\ index_of st'
       = (index_of with_footnotes
          + Z.of_nat (length (flat_map refs toks)))%Z
    /\ footnotes st' = Some ["a"; "b"; "a"].
Proof.
  eexists _, _. split; [vm_compute; reflexivity|].
  split; [vm_compute; reflexivity|].
  destruct (render_counts_footnotes as_given as_given 4
              "[^a] *x [^b]* [^a]" with_footnotes _ _
              ltac:(vm_compute; reflexivity)) as (H1 & H2 & H3 & _).
  split; [exact H1|]. split; [exact H2|]. exact (H3 [] eq_refl).
Defined.

(** ** The key of a footnote reference *)

Lemma lower_char_twice x : lower_char (lower_char x) = lower_char x.
Proof.
  assert (H : forallb (fun x => Ascii.eqb (lower_char (lower_char x))
                                          (lower_char x)) all_ascii = true)
    by (vm_compute; reflexivity).
  rewrite forallb_forall in H. apply Ascii.eqb_eq, H, in_all_ascii.
Qed.

Lemma lower_twice s : Str.lower (Str.lower s) = Str.lower s.
Proof.
  unfold Str.lower. rewrite chars_of_chars, map_map. f_equal.
  apply map_ext. intros x. apply lower_char_twice.
Qed.

(** X18: the key of the footnote reference that [parse_footnote] returns
    is in lower case and is a key of [def_footnotes]: the key of the text
    is put in lower case before it is looked up, and the keys of the table
    are taken as they are, so a definition whose key is not in lower case
    is never referred to. *)
Theorem footnote_key_lower m st key index st' :
  parse_footnote m st = (Ok (FootnoteRef key index), st') ->
  Str.lower key = key
  /\ (exists text, group m 1 = Some text /\ key = Str.lower text)
  /\ exists d, def_footnotes st = Some d /\ key ∈ d.
Proof.
  intros H. unfold parse_footnote, bind, need, get_state in H.
  destruct (group m 1) as [text|]; [|discriminate]. unfold ret in H.
  cbv beta iota in H.
  destruct (unresolved_footnote st (Str.lower text)) eqn:U;
    [discriminate|].
  unfold modify in H. cbv beta iota in H.
  cbn [footnotes set_footnote_index] in H.
  destruct (footnotes st) as [l|]; [|discriminate].
  injection H as <- <- <-. split; [apply lower_twice|].
  split; [now exists text|].
  unfold unresolved_footnote in U.
  destruct (def_footnotes st) as [d|]; [|discriminate]. exists d.
  split; [reflexivity|]. apply orb_false_elim in U as [_ U].
  now apply negb_false_iff, bool_decide_eq_true in U.
Qed.

Lemma footnote_key_lower_witness :
  let m := mkMatch "[^A]" [(1, "A")] in
  parse_footnote m with_footnotes
  = (Ok (FootnoteRef "a" 1),
     set_footnotes ["a"] (set_footnote_index 1 with_footnotes))
  /\ Str.lower "a" = "a"
  /\ (exists text, group m 1 = Some text /\ "a" = Str.lower text)
  /\ exists d, def_footnotes with_footnotes = Some d /\ "a" ∈ d.
Proof.
  split; [vm_compute; reflexivity|].
  eapply (footnote_key_lower (mkMatch "[^A]" [(1, "A")]) with_footnotes).
  vm_compute. reflexivity.
Defined.

(** X19: a footnote reference whose key is defined, in a state that has no
    list [footnotes]: [parse_footnote] raises [KeyError], after it has
    stored the next index in [footnote_index]; the counter is not put back. *)
Theorem parse_footnote_without_list m text st :
  group m 1 = Some text ->
  unresolved_footnote st (Str.lower text) = false ->
  footnotes st = None ->
  parse_footnote m st
  = (Raise (KeyError "footnotes"),
     set_footnote_index (index_of st + 1) st).
Proof.
  intros Hg Hu Hf. unfold parse_footnote, bind, need, get_state.
  rewrite Hg. unfold ret. cbv beta iota. rewrite Hu.
  unfold modify. cbv beta iota. cbn [footnotes set_footnote_index].
  now rewrite Hf.
Qed.

Lemma parse_footnote_without_list_witness :
  parse_footnote (mkMatch "[^a]" [(1, "a")]) without_list
  = (Raise (KeyError "footnotes"), set_footnote_index 1 without_list).
Proof.
  exact (parse_footnote_without_list (mkMatch "[^a]" [(1, "a")]) "a"
           without_list eq_refl eq_refl eq_refl).
Defined.
